(** * hlsvod manager: playlist planning, metadata cache policy, lifecycle

    A shallow embedding of [hlsvod/manager.go] and the properties of its
    playlist generator, metadata loader, start/stop lifecycle and the two
    HTTP handlers.

    Layout: the Go values the manager computes with (float64, strings,
    [fmt] verbs); the manager record and [New]; the playlist generator; the
    metadata loader with its external collaborators as an oracle; the
    lifecycle as a small-step machine over the manager, its channels and its
    goroutines; the handlers; then the theorems. *)

From Stdlib Require Import ZArith QArith Lia Lqa List Bool Ascii String.
From Stdlib Require Import Floats.SpecFloat.
From Stdlib Require Import Numbers.DecimalString Numbers.DecimalN.
From stdpp Require Import base option list gmap strings.

Local Open Scope string_scope.
Local Open Scope list_scope.
Local Open Scope Z_scope.

(* ===================================================================== *)
(** ** Go values: float64 and the [fmt] verbs the manager uses            *)
(* ===================================================================== *)

(** A Go [float64] is an IEEE 754 binary64 number: [spec_float] at
    precision 53 and maximal exponent 1024. *)
Abbreviation float64 := spec_float.

Definition f64_prec : Z := 53.
Definition f64_emax : Z := 1024.

(** Go's [x - y] on float64 (round to nearest, ties to even). *)
Definition f64_sub (x y : float64) : float64 := SFsub f64_prec f64_emax x y.

(** Correctly rounded conversion of the integer ratio [n / d] (with
    [0 < d]) to a float64, used to write float literals such as [4.75]. *)
Definition f64_of_ratio (n : Z) (d : positive) : float64 :=
  SFdiv f64_prec f64_emax
    (binary_normalize f64_prec f64_emax n 0 false)
    (binary_normalize f64_prec f64_emax (Zpos d) 0 false).

(** The exact rational value of a finite float; 0 for zeros and for the
    values that are not numbers. *)
Definition F2Q (x : float64) : Q :=
  match x with
  | S754_finite s m e =>
      let sm := if s then Zneg m else Zpos m in
      if 0 <=? e then inject_Z (sm * 2 ^ e) else sm # (2 ^ Z.to_pos (- e))
  | _ => 0%Q
  end.

Definition is_finite (x : float64) : bool :=
  match x with
  | S754_finite _ _ _ | S754_zero _ => true
  | _ => false
  end.

(** Go's [x < y] on float64 (false as soon as one side is NaN). *)
Definition f64_ltb (x y : float64) : bool := SFltb x y.

(** *** Decimal digits *)

Definition LF : string := String (ascii_of_nat 10) EmptyString.

(** [strconv]'s decimal rendering of a natural number. *)
Definition dec_string (n : Z) : string :=
  NilZero.string_of_uint (N.to_uint (Z.to_N n)).

Fixpoint zeros (n : nat) : string :=
  match n with
  | O => EmptyString
  | S n' => String "0" (zeros n')
  end.

(** Left padding with ['0'] up to a minimal width (never truncates). *)
Definition lpad0 (width : nat) (s : string) : string :=
  zeros (width - String.length s) +:+ s.

(** *** [%d] with the zero flag and a width

    [fmt.fmtInteger]: with the [0] flag the width becomes the precision,
    one column of which is given up to a minus sign. *)
Definition fmt_d (zero : bool) (width : nat) (v : Z) : string :=
  let digits := dec_string (Z.abs v) in
  if zero then
    if v <? 0 then "-" +:+ lpad0 (width - 1) digits
    else lpad0 width digits
  else
    let s := if v <? 0 then "-" +:+ digits else digits in
    String.concat EmptyString (repeat " " (width - String.length s)) +:+ s.

(** *** [%.Nf]

    [strconv.FormatFloat(x, 'f', prec, 64)] prints the exact binary value
    rounded to [prec] decimals, ties to even. [round_scaled prec m e] is
    that rounding of [m * 2^e * 10^prec] to an integer. *)
Definition round_scaled (prec : nat) (m : positive) (e : Z) : Z :=
  let num := Zpos m * 10 ^ Z.of_nat prec in
  if 0 <=? e then num * 2 ^ e
  else
    let d := 2 ^ (- e) in
    let q := num / d in
    let r := num mod d in
    match 2 * r ?= d with
    | Lt => q
    | Gt => q + 1
    | Eq => if Z.even q then q else q + 1
    end.

(** The digits of a scaled magnitude: integer part, then (when [prec] is
    positive) a point and exactly [prec] decimals. *)
Definition fixed_digits (prec : nat) (n : Z) : string :=
  let p := 10 ^ Z.of_nat prec in
  dec_string (n / p) +:+
  match prec with
  | O => EmptyString
  | _ => "." +:+ lpad0 prec (dec_string (n mod p))
  end.

Definition fmt_f (prec : nat) (x : float64) : string :=
  match x with
  | S754_nan => "NaN"
  | S754_infinity false => "+Inf"
  | S754_infinity true => "-Inf"
  | S754_zero s => (if s then "-" else EmptyString) +:+ fixed_digits prec 0
  | S754_finite s m e =>
      (if s then "-" else EmptyString) +:+ fixed_digits prec (round_scaled prec m e)
  end.

(** *** [fmt.Sprintf] with one [int] operand

    The fragment of the format language that the segment suffix is
    written in: literal text, [%%], and the verbs [%d] and [%v] with an
    optional [0] flag and a decimal width. A letter that is no verb for an
    [int] prints [%!verb(int=v)]; a verb that finds no operand left
    prints [%!verb(MISSING)]; an operand that no verb consumed is
    reported at the end as [%!(EXTRA int=v)], also after the
    [%!(NOVERB)] of a format that ends inside a directive. The other
    integer verbs ([b c o O q x X U]) and [%T], the other flags,
    precisions and operand indexes are outside the fragment: such a
    directive is copied through, which is not what [fmt] prints for it.
    The suffix that [New] sets lies inside the fragment. *)
Inductive fmt_state :=
| FLit
| FPct (zero : bool) (seen_width : bool) (width : nat).

Definition digit_of (c : ascii) : option nat :=
  let n := nat_of_ascii c in
  if (48 <=? n)%nat && (n <=? 57)%nat then Some (n - 48)%nat else None.

(** The operand that no verb consumed, as [Sprintf] reports it. *)
Definition extra_operand (arg : option Z) : string :=
  match arg with
  | Some a => "%!(EXTRA int=" +:+ fmt_d false 0 a +:+ ")"
  | None => EmptyString
  end.

Definition is_letter (c : ascii) : bool :=
  let n := nat_of_ascii c in
  ((65 <=? n)%nat && (n <=? 90)%nat) || ((97 <=? n)%nat && (n <=? 122)%nat).

(** The verbs that print an [int] operand in another way than [%d]: the
    other integer verbs and [%T]. They are outside the fragment. *)
Definition other_int_verb (c : ascii) : bool :=
  existsb (Ascii.eqb c) ["b"; "c"; "o"; "O"; "q"; "x"; "X"; "U"; "T"]%char.

Fixpoint Sprintf_go (f : string) (st : fmt_state) (arg : option Z) : string :=
  match f with
  | EmptyString =>
      match st with
      | FLit => extra_operand arg
      | FPct _ _ _ => "%!(NOVERB)" +:+ extra_operand arg
      end
  | String c rest =>
      match st with
      | FLit =>
          if Ascii.eqb c "%" then Sprintf_go rest (FPct false false 0) arg
          else String c (Sprintf_go rest FLit arg)
      | FPct zero seen w =>
          if Ascii.eqb c "d" || Ascii.eqb c "v" then
            match arg with
            | Some a => fmt_d zero w a +:+ Sprintf_go rest FLit None
            | None =>
                "%!" +:+ String c "(MISSING)" +:+ Sprintf_go rest FLit None
            end
          else if Ascii.eqb c "%" then
            String "%" (Sprintf_go rest FLit arg)
          else if Ascii.eqb c "0" && negb seen then
            Sprintf_go rest (FPct true false w) arg
          else
            match digit_of c with
            | Some k => Sprintf_go rest (FPct zero true (10 * w + k)) arg
            | None =>
                if is_letter c && negb (other_int_verb c) then
                  match arg with
                  | Some a =>
                      "%!" +:+ String c ("(int=" +:+ fmt_d zero w a +:+ ")")
                      +:+ Sprintf_go rest FLit None
                  | None =>
                      "%!" +:+ String c "(MISSING)"
                      +:+ Sprintf_go rest FLit None
                  end
                else String "%" (String c (Sprintf_go rest FLit arg))
            end
      end
  end.

Definition Sprintf_int (f : string) (v : Z) : string :=
  Sprintf_go f FLit (Some v).

(* ===================================================================== *)
(** ** The manager                                                        *)
(* ===================================================================== *)

(** Modelled from the spec: the [Config] struct is declared in another
    file of the package; these are the fields the manager reads (the
    configuration surface of the spec). *)
Record Config := {
  MediaPath : string;
  FFprobeBinary : string;
  TranscodeDir : string;
  SegmentPrefix : string;
  Cache : bool;
  CacheDir : string;
}.

(** Modelled from the spec: the probe result types are declared with the
    probing routines, outside this file. A video stream descriptor carries
    the ordered keyframe timestamps; the slice may be [nil] ([None]) when
    the fast probe did not produce them. *)
Record ProbeVideoData := {
  PktPtsTime : option (list float64);
}.

(** Modelled from the spec: probe metadata with an optional video stream
    descriptor ([Video == nil] is [None]). *)
Record ProbeMediaData := {
  Video : option ProbeVideoData;
}.

(** A channel value: [nil] or a reference to a channel made by [make]. *)
Definition chan := option nat.

(** The elements of a slice; a nil slice has none. *)
Definition elems {A} (s : option (list A)) : list A := default [] s.

Record ManagerCtx := {
  config : Config;
  segmentDuration : float64;
  segmentSuffix : string;
  ready : bool;
  onReadyChange : chan;
  metadata : option ProbeMediaData;
  playlist : string;
  segments : option (gmap Z bool);
  segmentsTimes : list float64;
  shutdown : chan;
  cancelled : bool;
}.

Definition set_ready (b : bool) (m : ManagerCtx) : ManagerCtx :=
  {| config := config m; segmentDuration := segmentDuration m;
     segmentSuffix := segmentSuffix m; ready := b;
     onReadyChange := onReadyChange m; metadata := metadata m;
     playlist := playlist m; segments := segments m;
     segmentsTimes := segmentsTimes m; shutdown := shutdown m;
     cancelled := cancelled m |}.

Definition set_onReadyChange (c : chan) (m : ManagerCtx) : ManagerCtx :=
  {| config := config m; segmentDuration := segmentDuration m;
     segmentSuffix := segmentSuffix m; ready := ready m;
     onReadyChange := c; metadata := metadata m;
     playlist := playlist m; segments := segments m;
     segmentsTimes := segmentsTimes m; shutdown := shutdown m;
     cancelled := cancelled m |}.

Definition set_metadata (md : option ProbeMediaData) (m : ManagerCtx)
  : ManagerCtx :=
  {| config := config m; segmentDuration := segmentDuration m;
     segmentSuffix := segmentSuffix m; ready := ready m;
     onReadyChange := onReadyChange m; metadata := md;
     playlist := playlist m; segments := segments m;
     segmentsTimes := segmentsTimes m; shutdown := shutdown m;
     cancelled := cancelled m |}.

Definition set_playlist (p : string) (m : ManagerCtx) : ManagerCtx :=
  {| config := config m; segmentDuration := segmentDuration m;
     segmentSuffix := segmentSuffix m; ready := ready m;
     onReadyChange := onReadyChange m; metadata := metadata m;
     playlist := p; segments := segments m;
     segmentsTimes := segmentsTimes m; shutdown := shutdown m;
     cancelled := cancelled m |}.

Definition set_segments (s : option (gmap Z bool)) (m : ManagerCtx)
  : ManagerCtx :=
  {| config := config m; segmentDuration := segmentDuration m;
     segmentSuffix := segmentSuffix m; ready := ready m;
     onReadyChange := onReadyChange m; metadata := metadata m;
     playlist := playlist m; segments := s;
     segmentsTimes := segmentsTimes m; shutdown := shutdown m;
     cancelled := cancelled m |}.

Definition set_segmentsTimes (ts : list float64) (m : ManagerCtx)
  : ManagerCtx :=
  {| config := config m; segmentDuration := segmentDuration m;
     segmentSuffix := segmentSuffix m; ready := ready m;
     onReadyChange := onReadyChange m; metadata := metadata m;
     playlist := playlist m; segments := segments m;
     segmentsTimes := ts; shutdown := shutdown m;
     cancelled := cancelled m |}.

Definition set_shutdown (c : chan) (m : ManagerCtx) : ManagerCtx :=
  {| config := config m; segmentDuration := segmentDuration m;
     segmentSuffix := segmentSuffix m; ready := ready m;
     onReadyChange := onReadyChange m; metadata := metadata m;
     playlist := playlist m; segments := segments m;
     segmentsTimes := segmentsTimes m; shutdown := c;
     cancelled := cancelled m |}.

Definition set_cancelled (b : bool) (m : ManagerCtx) : ManagerCtx :=
  {| config := config m; segmentDuration := segmentDuration m;
     segmentSuffix := segmentSuffix m; ready := ready m;
     onReadyChange := onReadyChange m; metadata := metadata m;
     playlist := playlist m; segments := segments m;
     segmentsTimes := segmentsTimes m; shutdown := shutdown m;
     cancelled := b |}.

(** [New]: the nominal segment duration and the suffix pattern are fixed
    here and never reassigned; every other field has its zero value. *)
Definition New (cfg : Config) : ManagerCtx :=
  {| config := cfg;
     segmentDuration := f64_of_ratio 475 100;
     segmentSuffix := "-%05d.ts";
     ready := false;
     onReadyChange := None;
     metadata := None;
     playlist := EmptyString;
     segments := None;
     segmentsTimes := [];
     shutdown := None;
     cancelled := false |}.

(* ===================================================================== *)
(** ** Segment planner and playlist                                       *)
(* ===================================================================== *)

#[global] Instance float64_inhabited : Inhabited float64 :=
  populate (S754_zero false).

Definition getSegmentName (m : ManagerCtx) (index : Z) : string :=
  SegmentPrefix (config m) +:+ Sprintf_int (segmentSuffix m) index.

(** [strings.Join]. *)
Fixpoint Join (l : list string) (sep : string) : string :=
  match l with
  | [] => EmptyString
  | [x] => x
  | x :: rest => x +:+ sep +:+ Join rest sep
  end.

(** The loop [for i := 1; i < len(m.segmentsTimes); i++] of
    [getPlaylist], appending two lines per round. [fuel] bounds the
    number of rounds; [length (segmentsTimes m)] rounds always suffice. *)
Fixpoint playlist_loop (m : ManagerCtx) (fuel : nat) (i : Z)
    (playlist : list string) : list string :=
  match fuel with
  | O => playlist
  | S fuel' =>
      if i <? Z.of_nat (length (segmentsTimes m)) then
        playlist_loop m fuel' (i + 1)
          (playlist ++
           [ "#EXTINF:" +:+
               fmt_f 3 (f64_sub (segmentsTimes m !!! Z.to_nat i)
                                (segmentsTimes m !!! Z.to_nat (i - 1)))
               +:+ ", no desc";
             getSegmentName m i ])
      else playlist
  end.

(** The slice of lines that [getPlaylist] joins. *)
Definition getPlaylist_lines (m : ManagerCtx) : list string :=
  let playlist :=
    [ "#EXTM3U";
      "#EXT-X-VERSION:4";
      "#EXT-X-PLAYLIST-TYPE:VOD";
      "#EXT-X-MEDIA-SEQUENCE:0";
      "#EXT-X-TARGETDURATION:" +:+ fmt_f 2 (segmentDuration m) ] in
  let playlist := playlist_loop m (length (segmentsTimes m)) 1 playlist in
  playlist ++ [ "#EXT-X-ENDLIST" ].

Definition getPlaylist (m : ManagerCtx) : string :=
  Join (getPlaylist_lines m) LF.

(** The loop of [initialize] that fills the availability table, one
    [false] entry per round; [length (segmentsTimes m)] rounds suffice. *)
Fixpoint segments_loop (m : ManagerCtx) (fuel : nat) (i : Z)
    (segs : gmap Z bool) : gmap Z bool :=
  match fuel with
  | O => segs
  | S fuel' =>
      if i <? Z.of_nat (length (segmentsTimes m)) then
        segments_loop m fuel' (i + 1) (<[i := false]> segs)
      else segs
  end.

(** [initialize]: dereferencing [m.metadata.Video] panics when the
    metadata or its video descriptor is nil; [None] is that panic. *)
Definition initialize (m : ManagerCtx) : option ManagerCtx :=
  md ← metadata m;
  v ← Video md;
  let m := set_segmentsTimes (elems (PktPtsTime v)) m in
  let m := set_playlist (getPlaylist m) m in
  let m := set_segments (Some ∅) m in
  Some (set_segments
          (Some (segments_loop m (length (segmentsTimes m)) 1 ∅)) m).

(* ===================================================================== *)
(** ** Metadata: probe, cache policy                                      *)
(* ===================================================================== *)

(** A Go [error] value: its text, and whether [errors.Is(err,
    os.ErrNotExist)] holds for it. A nil error is [None]. *)
Record error := {
  err_text : string;
  err_not_exist : bool;
}.

(** [fmt.Errorf(prefix + "%v", err)]: a fresh error that does not wrap. *)
Definition Errorf (prefix : string) (err : error) : error :=
  {| err_text := prefix +:+ err_text err; err_not_exist := false |}.

Definition bytes := list Byte.byte.

(** What the manager does to the outside world, in order: log lines, the
    probes, the cache primitives, and the invocation of the transcode
    executor (which no method of this file performs). *)
Inductive Event :=
| LogInfo (msg : string)
| LogWarn (msg : string)
| LogErr (err : error) (msg : string)
| LogPrintf (msg : string)
| CallProbeMedia (binary media : string)
| CallProbeVideo (binary media : string)
| CallGetCacheData
| CallSaveGlobalCacheData (data : bytes)
| CallSaveLocalCacheData (data : bytes)
| CallTranscode (index : Z).

(** The external collaborators of one initialization attempt, taken as
    parameters: the two probes (applied to the probe binary and the media
    path), the JSON codec, and the cache primitives (methods of the
    manager defined in another file of the package). A successful probe
    returns a non-nil result. [json.Unmarshal] decodes into
    [&m.metadata] and may leave it modified even when it fails. *)
Record Env := {
  ProbeMedia : string -> string -> ProbeMediaData + error;
  ProbeVideo : string -> string -> ProbeVideoData + error;
  getCacheData : bytes + error;
  json_Unmarshal :
    bytes -> option ProbeMediaData -> option ProbeMediaData * option error;
  json_Marshal : option ProbeMediaData -> bytes + error;
  saveGlobalCacheData : bytes -> option error;
  saveLocalCacheData : bytes -> option error;
}.

(** Methods that read and write the manager and act on the outside world:
    a state monad over [ManagerCtx] that also records the events. *)
Definition Act (A : Type) : Type := ManagerCtx -> A * ManagerCtx * list Event.

Definition act_ret {A} (a : A) : Act A := fun m => (a, m, []).

Definition act_bind {A B} (c : Act A) (k : A -> Act B) : Act B :=
  fun m =>
    let '(a, m1, t1) := c m in
    let '(b, m2, t2) := k a m1 in
    (b, m2, t1 ++ t2).

Notation "x <-- c ;; k" := (act_bind c (fun x => k))
  (at level 100, c at next level, right associativity).
Notation "c ;;; k" := (act_bind c (fun _ => k))
  (at level 100, right associativity).

Definition emit (e : Event) : Act unit := fun m => (tt, m, [e]).
Definition get {A} (f : ManagerCtx -> A) : Act A := fun m => (f m, m, []).
Definition modify (f : ManagerCtx -> ManagerCtx) : Act unit :=
  fun m => (tt, f m, []).

Definition result_of {A} (r : A * ManagerCtx * list Event) : A := fst (fst r).
Definition state_of {A} (r : A * ManagerCtx * list Event) : ManagerCtx :=
  snd (fst r).
Definition events_of {A} (r : A * ManagerCtx * list Event) : list Event :=
  snd r.

Definition is_cache_write (e : Event) : bool :=
  match e with
  | CallSaveGlobalCacheData _ | CallSaveLocalCacheData _ => true
  | _ => false
  end.

Definition is_error_log (e : Event) : bool :=
  match e with
  | LogErr _ _ => true
  | _ => false
  end.

Definition is_probe (e : Event) : bool :=
  match e with
  | CallProbeMedia _ _ | CallProbeVideo _ _ => true
  | _ => false
  end.

Definition is_transcode (e : Event) : bool :=
  match e with
  | CallTranscode _ => true
  | _ => false
  end.

Definition with_PktPtsTime (md : ProbeMediaData) (ts : option (list float64))
  : ProbeMediaData :=
  {| Video := Some {| PktPtsTime := ts |} |}.

Section Metadata.
Variable env : Env.

Definition fetchMetadata : Act (option error) :=
  emit (LogInfo "fetching metadata") ;;;
  cfg <-- get config ;;
  emit (CallProbeMedia (FFprobeBinary cfg) (MediaPath cfg)) ;;;
  match ProbeMedia env (FFprobeBinary cfg) (MediaPath cfg) with
  | inr err =>
      act_ret (Some (Errorf "unable probe media for metadata: " err))
  | inl metadata =>
      let finish (metadata : ProbeMediaData) : Act (option error) :=
        emit (LogInfo "fetched metadata") ;;;
        modify (set_metadata (Some metadata)) ;;;
        act_ret None in
      match Video metadata with
      | Some {| PktPtsTime := None |} =>
          emit (CallProbeVideo (FFprobeBinary cfg) (MediaPath cfg)) ;;;
          match ProbeVideo env (FFprobeBinary cfg) (MediaPath cfg) with
          | inr err =>
              act_ret
                (Some (Errorf "unable probe video for keyframes: " err))
          | inl videoData =>
              finish (with_PktPtsTime metadata (PktPtsTime videoData))
          end
      | _ => finish metadata
      end
  end.

Definition loadMetadata : Act (option error) :=
  emit (LogInfo "loading metadata") ;;;
  cfg <-- get config ;;
  if negb (Cache cfg) then fetchMetadata
  else
    emit CallGetCacheData ;;;
    let refetch : Act (option error) :=
      r <-- fetchMetadata ;;
      match r with
      | Some err => act_ret (Some err)
      | None =>
          md <-- get metadata ;;
          match json_Marshal env md with
          | inr err => act_ret (Some err)
          | inl data =>
              if negb (String.eqb (CacheDir cfg) EmptyString) then
                emit (CallSaveGlobalCacheData data) ;;;
                act_ret (saveGlobalCacheData env data)
              else
                emit (CallSaveLocalCacheData data) ;;;
                act_ret (saveLocalCacheData env data)
          end
      end in
    match getCacheData env with
    | inl data =>
        old <-- get metadata ;;
        let '(md', uerr) := json_Unmarshal env data old in
        modify (set_metadata md') ;;;
        match uerr with
        | None => act_ret None
        | Some err =>
            emit (LogErr err "cache unmarhalling returned error, replacing") ;;;
            refetch
        end
    | inr err =>
        (if negb (err_not_exist err) then
           emit (LogErr err "cache hit returned error, replacing")
         else act_ret tt) ;;;
        refetch
    end.
End Metadata.

(* ===================================================================== *)
(** ** Lifecycle: channels, goroutines, Start and Stop                    *)
(* ===================================================================== *)

(** [close(c)] against the set of channels closed so far; the two
    run-time panics of [close] are the [inr] results. *)
Definition close (c : chan) (cl : gset nat) : gset nat + string :=
  match c with
  | None => inr "close of nil channel"
  | Some id =>
      if decide (id ∈ cl) then inr "close of closed channel"
      else inl ({[id]} ∪ cl)
  end.

(** A receive [<-c] in a [select] can proceed exactly when [c] is a closed
    channel (nothing is ever sent on the manager's channels). *)
Definition recv_ready (c : chan) (cl : gset nat) : bool :=
  match c with
  | None => false
  | Some id => bool_decide (id ∈ cl)
  end.

(** Where the goroutine launched by [Start] stands. *)
Inductive init_pc :=
| I_load (env : Env)   (* about to call loadMetadata *)
| I_times              (* m.segmentsTimes = m.metadata.Video.PktPtsTime *)
| I_playlist           (* m.playlist = m.getPlaylist() *)
| I_segments           (* m.segments = map[int]bool{} *)
| I_loop (i : Z)       (* head of the loop over segment indexes *)
| I_publish.           (* the locked section that sets ready *)

(** The manager with its surroundings: the channels closed so far and
    the next channel to be made; how many [Start] calls have passed the
    test of [m.ready] and not yet taken the lock; the goroutines that are
    running, each under its own identifier; and whether a panic in a
    goroutine has ended the process. *)
Record World := {
  mgr : ManagerCtx;
  closed : gset nat;
  next_chan : nat;
  starting : nat;
  threads : gmap nat init_pc;
  next_tid : nat;
  crashed : bool;
}.

Definition with_mgr (m : ManagerCtx) (w : World) : World :=
  {| mgr := m; closed := closed w; next_chan := next_chan w;
     starting := starting w; threads := threads w;
     next_tid := next_tid w; crashed := crashed w |}.

Definition with_closed (cl : gset nat) (w : World) : World :=
  {| mgr := mgr w; closed := cl; next_chan := next_chan w;
     starting := starting w; threads := threads w;
     next_tid := next_tid w; crashed := crashed w |}.

Definition with_starting (n : nat) (w : World) : World :=
  {| mgr := mgr w; closed := closed w; next_chan := next_chan w;
     starting := n; threads := threads w;
     next_tid := next_tid w; crashed := crashed w |}.

Definition with_threads (ts : gmap nat init_pc) (w : World) : World :=
  {| mgr := mgr w; closed := closed w; next_chan := next_chan w;
     starting := starting w; threads := ts;
     next_tid := next_tid w; crashed := crashed w |}.

Definition with_crashed (w : World) : World :=
  {| mgr := mgr w; closed := closed w; next_chan := next_chan w;
     starting := starting w; threads := threads w;
     next_tid := next_tid w; crashed := true |}.

(** [go func() {...}()]: a new goroutine under a fresh identifier. *)
Definition spawn (pc : init_pc) (w : World) : World :=
  {| mgr := mgr w; closed := closed w; next_chan := next_chan w;
     starting := starting w;
     threads := <[next_tid w := pc]> (threads w);
     next_tid := S (next_tid w); crashed := crashed w |}.

(** [make(chan struct{})] twice, as in [Start]. *)
Definition make2 (w : World) : nat * nat * World :=
  (next_chan w, S (next_chan w),
   {| mgr := mgr w; closed := closed w; next_chan := S (S (next_chan w));
      starting := starting w; threads := threads w;
      next_tid := next_tid w; crashed := crashed w |}).

(** The world right after [New]. *)
Definition new_world (cfg : Config) : World :=
  {| mgr := New cfg; closed := ∅; next_chan := 0; starting := 0;
     threads := ∅; next_tid := 0; crashed := false |}.

(** [Start], first statement: the unlocked test of [m.ready]. [true]
    means the call goes on to the locked section. *)
Definition Start_check (w : World) : bool := negb (ready (mgr w)).

(** [Start], the locked section and the launch of the goroutine. *)
Definition Start_locked (env : Env) (w : World) : World :=
  let '(c_shutdown, c_ready, w) := make2 w in
  let m := set_shutdown (Some c_shutdown) (mgr w) in
  let m := set_ready false m in
  let m := set_onReadyChange (Some c_ready) m in
  spawn (I_load env) (with_mgr m w).

(** [Stop]: [cancel], then [close(m.shutdown)], then [ready = false]. A
    panic of [close] leaves [ready] as it was and is returned. *)
Definition Stop (w : World) : World * option string :=
  let m := set_cancelled true (mgr w) in
  match close (shutdown m) (closed w) with
  | inr msg => (with_mgr m w, Some msg)
  | inl cl => (with_closed cl (with_mgr (set_ready false m) w), None)
  end.

(** The text of the run-time panic of a nil pointer dereference. *)
Definition nil_dereference : string :=
  "runtime error: invalid memory address or nil pointer dereference".

(** What one step of the goroutine does. *)
Inductive init_result :=
| Goes (pc : init_pc) (w : World)
| Returns (err : error) (w : World)
| Fires (c : nat) (w : World)
| Crashes (msg : string) (w : World).

Definition init_step (pc : init_pc) (w : World)
  : init_result * list Event :=
  let m := mgr w in
  match pc with
  | I_load env =>
      let '(r, m', evs) := loadMetadata env m in
      match r with
      | Some err =>
          (Returns err (with_mgr m' w),
           evs ++ [LogPrintf (err_text err +:+ LF)])
      | None => (Goes I_times (with_mgr m' w), evs)
      end
  | I_times =>
      match metadata m ≫= Video with
      | None =>
          (Crashes nil_dereference w, [])
      | Some v =>
          (Goes I_playlist
             (with_mgr (set_segmentsTimes (elems (PktPtsTime v)) m) w), [])
      end
  | I_playlist =>
      (Goes I_segments (with_mgr (set_playlist (getPlaylist m) m) w), [])
  | I_segments =>
      (Goes (I_loop 1) (with_mgr (set_segments (Some ∅) m) w), [])
  | I_loop i =>
      if i <? Z.of_nat (length (segmentsTimes m)) then
        match segments m with
        | None => (Crashes "assignment to entry in nil map" w, [])
        | Some segs =>
            (Goes (I_loop (i + 1))
               (with_mgr (set_segments (Some (<[i := false]> segs)) m) w), [])
        end
      else (Goes I_publish w, [LogInfo "loaded metadata"])
  | I_publish =>
      let m := set_ready true m in
      match onReadyChange m, close (onReadyChange m) (closed w) with
      | Some c, inl cl => (Fires c (with_closed cl (with_mgr m w)), [])
      | _, inr msg => (Crashes msg (with_mgr m w), [])
      | None, inl _ => (Crashes "close of nil channel" (with_mgr m w), [])
      end
  end.

(** Observable transitions. *)
Inductive Label :=
| L_Start_rejected
| L_Start_admitted
| L_Start_spawn (g : nat)
| L_load (g : nat) (err : option error)
| L_init (g : nat)
| L_ready_fired (g : nat) (c : nat)
| L_crash (g : nat) (msg : string)
| L_Stop
| L_Stop_panic (msg : string).

(** The world and the label after goroutine [g] took a step from [pc]:
    the goroutine moves on, or ends (its function returned), or brings the
    process down. *)
Definition init_commit (g : nat) (res : init_result) : World :=
  match res with
  | Goes pc' w' => with_threads (<[g := pc']> (threads w')) w'
  | Returns _ w' | Fires _ w' => with_threads (delete g (threads w')) w'
  | Crashes _ w' => with_crashed w'
  end.

Definition init_label (g : nat) (pc : init_pc) (res : init_result) : Label :=
  match res with
  | Goes _ _ =>
      match pc with
      | I_load _ => L_load g None
      | _ => L_init g
      end
  | Returns err _ => L_load g (Some err)
  | Fires c _ => L_ready_fired g c
  | Crashes msg _ => L_crash g msg
  end.

Definition Stop_label (p : option string) : Label :=
  match p with
  | None => L_Stop
  | Some msg => L_Stop_panic msg
  end.

(** One atomic step of the system. Sections guarded by the manager's
    mutex are atomic. Outside them the goroutine takes a step per
    statement of its body and of [initialize], and per round of the loop
    that fills the table, so that goroutines and calls interleave between
    them. The calls [m.loadMetadata()] and [m.getPlaylist()] are a step
    each: what they read of the manager is read at once, although the
    source holds no lock there, so the machine does not show a playlist
    put together from segment times that another goroutine replaced half
    way. A panic inside the goroutine ends the process. *)
Inductive step : World -> Label -> World -> Prop :=
| step_Start_rejected w :
    crashed w = false -> Start_check w = false ->
    step w L_Start_rejected w
| step_Start_admitted w :
    crashed w = false -> Start_check w = true ->
    step w L_Start_admitted (with_starting (S (starting w)) w)
| step_Start_spawn w n env :
    crashed w = false -> starting w = S n ->
    step w (L_Start_spawn (next_tid w)) (Start_locked env (with_starting n w))
| step_goroutine w g pc res evs :
    crashed w = false -> threads w !! g = Some pc ->
    init_step pc w = (res, evs) ->
    step w (init_label g pc res) (init_commit g res)
| step_Stop w w' p :
    crashed w = false -> Stop w = (w', p) ->
    step w (Stop_label p) w'.

(** Executions: the labels are listed in the order of the steps. *)
Inductive exec : World -> list Label -> World -> Prop :=
| exec_nil w : exec w [] w
| exec_snoc w tr w1 l w2 :
    exec w tr w1 -> step w1 l w2 -> exec w (tr ++ [l]) w2.

Definition reachable (cfg : Config) (w : World) : Prop :=
  exists tr, exec (new_world cfg) tr w.

(** A call of [Start] that nothing interleaves with: the goroutine it
    launches is thread [next_tid w]. *)
Definition Start (env : Env) (w : World) : World * option string :=
  if Start_check w then (Start_locked env w, None)
  else (w, Some "already running").

(** Goroutine [g] running alone for at most [fuel] steps, until it ends. *)
Fixpoint run_goroutine (fuel : nat) (g : nat) (w : World) : World :=
  match fuel with
  | O => w
  | S fuel' =>
      match crashed w, threads w !! g with
      | false, Some pc =>
          run_goroutine fuel' g (init_commit g (fst (init_step pc w)))
      | _, _ => w
      end
  end.

(** The whole of a successful start-up in one go: [Start], then the
    goroutine until it has published readiness. *)
Definition started (env : Env) (cfg : Config) : World :=
  let w := fst (Start env (new_world cfg)) in
  run_goroutine (length (segmentsTimes (mgr (run_goroutine 2 0 w))) + 6) 0 w.

(* ===================================================================== *)
(** ** HTTP handlers                                                      *)
(* ===================================================================== *)

Record Request := {
  url_path : string;
}.

(** What a handler does to its [http.ResponseWriter]. *)
Inductive Response :=
| HttpError (msg : string) (code : Z)                   (* http.Error *)
| Written (header : list (string * string)) (body : string)
| ServedFile (header : list (string * string)) (req : Request)
    (path : string).                                    (* http.ServeFile *)

Definition StatusNotFound : Z := 404.
Definition StatusInternalServerError : Z := 500.
Definition StatusGatewayTimeout : Z := 504.


(** How the [select] of [ServePlaylist] was left: by the readiness event
    (with the manager as it is when [m.ready] is read again), by the
    shutdown signal, or by the timer of [readyTimeout]. Time is not
    modelled: the timer case can always be the one that is taken. *)
Inductive wake :=
| WakeReady (m1 : ManagerCtx)
| WakeShutdown
| WakeTimeout.

Definition readyTimeout_seconds : Z := 24.

(** The case of the [select] that [wk] stands for can be taken in a world
    [w1] by a handler that evaluated the channel operands in [m0]. *)
Definition wake_enabled (m0 : ManagerCtx) (wk : wake) (w1 : World) : Prop :=
  match wk with
  | WakeReady m1 =>
      recv_ready (onReadyChange m0) (closed w1) = true /\ m1 = mgr w1
  | WakeShutdown => recv_ready (shutdown m0) (closed w1) = true
  | WakeTimeout => True
  end.

(** [ServePlaylist]: [m0] is the manager when the handler first reads
    [m.ready], [wk] how it left the [select] (if it entered it), and [m2]
    the manager when the body is written. *)
Definition ServePlaylist (m0 : ManagerCtx) (wk : wake) (m2 : ManagerCtx)
  : Response * list Event :=
  let serve :=
    (Written [("Content-Type", "application/vnd.apple.mpegurl")]
       (playlist m2), []) in
  if negb (ready m0) then
    match wk with
    | WakeReady m1 =>
        if negb (ready m1) then
          (HttpError "504 playlist not available" StatusInternalServerError,
           [LogWarn "playlist load failed"])
        else serve
    | WakeShutdown =>
        (HttpError "500 playlist not available" StatusInternalServerError,
         [LogWarn "playlist load failed because of shutdown"])
    | WakeTimeout =>
        (HttpError "504 playlist timeout" StatusGatewayTimeout,
         [LogWarn "playlist load timeouted"])
    end
  else serve.

(** The file system as [ServeMedia] sees it: [path.Join] and whether
    [os.Stat] reports that the path does not exist. *)
Record FS := {
  path_Join : string -> string -> string;
  stat_IsNotExist : string -> bool;
}.

(** Lookup in a Go map that may be nil: a nil map has no entries. *)
Definition map_lookup (segs : option (gmap Z bool)) (k : Z) : option bool :=
  segs ≫= (fun s => s !! k).

Definition ServeMedia (fs : FS) (m : ManagerCtx) (r : Request)
  : Response * list Event :=
  let index := 0 in
  match map_lookup (segments m) index with
  | None =>
      (HttpError "404 index not found" StatusNotFound,
       [LogWarn "media index not found"])
  | Some available =>
      let evs :=
        if negb available then [LogWarn "media needs to be transcoded"]
        else [] in
      let segmentName := getSegmentName m index in
      let segmentPath := path_Join fs (TranscodeDir (config m)) segmentName in
      if stat_IsNotExist fs segmentPath then
        (HttpError "404 media not found" StatusNotFound,
         evs ++ [LogWarn "media file not found"])
      else
        (ServedFile
           [("Content-Type", "application/vnd.apple.mpegurl");
            ("Cache-Control", "no-cache")] r segmentPath,
         evs)
  end.

(* ===================================================================== *)
(** ** Reading a playlist back                                            *)
(* ===================================================================== *)

(** The two lines that [getPlaylist] appends for a segment. *)
Definition extinf_line (d : float64) : string :=
  "#EXTINF:" +:+ fmt_f 3 d +:+ ", no desc".

Definition segment_entry (m : ManagerCtx) (i : Z) : list string :=
  [ extinf_line (f64_sub (segmentsTimes m !!! Z.to_nat i)
                         (segmentsTimes m !!! Z.to_nat (i - 1)));
    getSegmentName m i ].

Definition lf_char : ascii := ascii_of_nat 10.

Fixpoint string_forall (P : ascii -> bool) (s : string) : bool :=
  match s with
  | EmptyString => true
  | String c rest => P c && string_forall P rest
  end.

Definition no_lf (s : string) : bool :=
  string_forall (fun c => negb (Ascii.eqb c lf_char)) s.

Definition is_digit (c : ascii) : bool :=
  match digit_of c with
  | Some _ => true
  | None => false
  end.

(** A check that the numbers [k], [k+1], ... ([fuel] of them) all print
    with at most [w] digits. *)
Fixpoint digits_upto (fuel : nat) (k : Z) (w : nat) : bool :=
  match fuel with
  | O => true
  | S fuel' =>
      (String.length (dec_string k) <=? w)%nat && digits_upto fuel' (k + 1) w
  end.

(** The characters of a printed finite number. *)
Definition numeral_char (c : ascii) : bool :=
  is_digit c || Ascii.eqb c "." || Ascii.eqb c "-".

(** The lines of a text, as [strings.Split(text, "\n")] gives them. *)
Fixpoint split_lines (s : string) : list string :=
  match s with
  | EmptyString => [EmptyString]
  | String c rest =>
      if Ascii.eqb c lf_char then EmptyString :: split_lines rest
      else
        match split_lines rest with
        | [] => [String c EmptyString]
        | l :: ls => String c l :: ls
        end
  end.

(** [strings.HasPrefix]. *)
Fixpoint has_prefix (p s : string) : bool :=
  match p with
  | EmptyString => true
  | String a p' =>
      match s with
      | EmptyString => false
      | String b s' => Ascii.eqb a b && has_prefix p' s'
      end
  end.

(** The [#EXTINF] entries of a playlist text, in order. *)
Definition is_extinf (line : string) : bool := has_prefix "#EXTINF:" line.

Definition extinf_lines (text : string) : list string :=
  List.filter is_extinf (split_lines text).

(** [s] up to the first [c], and what follows that [c] if there is one. *)
Fixpoint break_at (c : ascii) (s : string) : string * option string :=
  match s with
  | EmptyString => (EmptyString, None)
  | String a rest =>
      if Ascii.eqb a c then (EmptyString, Some rest)
      else
        let '(l, r) := break_at c rest in
        (String a l, r)
  end.

Fixpoint drop_chars (n : nat) (s : string) : string :=
  match n, s with
  | S n', String _ rest => drop_chars n' rest
  | _, _ => s
  end.

(** A non-empty string of decimal digits as a number. *)
Definition parse_nat (s : string) : option Z :=
  d ← NilZero.uint_of_string s; Some (Z.of_N (N.of_uint d)).

(** A decimal numeral [digits[.digits]] as a rational. *)
Definition parse_unsigned (s : string) : option Q :=
  let '(ip, fp) := break_at "." s in
  a ← parse_nat ip;
  match fp with
  | None => Some (inject_Z a)
  | Some f =>
      b ← parse_nat f;
      let scale := 10 ^ Z.of_nat (String.length f) in
      Some ((a * scale + b) # Z.to_pos scale)%Q
  end.

(** The same with an optional leading minus sign. *)
Definition parse_fixed (s : string) : option Q :=
  match s with
  | String c rest =>
      if Ascii.eqb c "-" then q ← parse_unsigned rest; Some (- q)%Q
      else parse_unsigned s
  | EmptyString => None
  end.

(** The signed number of thousandths that [%.3f] prints for a finite
    float. *)
Definition rounded_thousandths (x : float64) : Z :=
  match x with
  | S754_finite s m e =>
      let n := round_scaled 3 m e in
      if s then - n else n
  | _ => 0
  end.

(** The duration that an [#EXTINF] line declares: the numeral between the
    tag and the comma. *)
Definition extinf_duration (line : string) : option Q :=
  if is_extinf line then
    parse_fixed (fst (break_at "," (drop_chars 8 line)))
  else None.

Definition declared_durations (text : string) : list (option Q) :=
  map extinf_duration (extinf_lines text).

(** The manager after [initialize] on probe metadata with the keyframe
    timestamps [ts]. *)
Definition metadata_of (ts : list float64) : ProbeMediaData :=
  {| Video := Some {| PktPtsTime := Some ts |} |}.

Definition initialized (cfg : Config) (ts : list float64) : option ManagerCtx :=
  initialize (set_metadata (Some (metadata_of ts)) (New cfg)).

Fixpoint strictly_increasing (ts : list float64) : bool :=
  match ts with
  | [] => true
  | t :: rest =>
      match rest with
      | [] => true
      | t' :: _ => f64_ltb t t' && strictly_increasing rest
      end
  end.

(** The float64 differences [ts[i] - ts[i-1]] for [i = 1 .. len-1], as
    the loop of [getPlaylist] computes them. *)
Definition segment_durations (ts : list float64) : list float64 :=
  map (fun i => f64_sub (ts !!! Z.to_nat i) (ts !!! Z.to_nat (i - 1)))
      (seqZ 1 (Z.of_nat (length ts) - 1)).

(** Every subtraction of adjacent timestamps is exact in float64. *)
Fixpoint exact_differences (ts : list float64) : Prop :=
  match ts with
  | a :: rest =>
      match rest with
      | b :: _ =>
          (F2Q (f64_sub b a) == F2Q b - F2Q a)%Q /\ exact_differences rest
      | [] => True
      end
  | [] => True
  end.

Fixpoint Qsum (l : list Q) : Q :=
  match l with
  | [] => 0%Q
  | q :: rest => (q + Qsum rest)%Q
  end.

(** The reading of the playlist property that takes every declared
    duration to be the exact difference of its two timestamps: as many
    entries as segments, the [i]-th declaring [ts[i] - ts[i-1]], and the
    declared durations adding up to the last timestamp. *)
Definition declares_exact_durations (text : string) (ts : list float64)
  : Prop :=
  let ds := declared_durations text in
  length ds = (length ts - 1)%nat /\
  (forall i, (1 <= i < length ts)%nat ->
     exists q, ds !! (i - 1)%nat = Some (Some q) /\
               (q == F2Q (ts !!! i) - F2Q (ts !!! (i - 1)%nat))%Q) /\
  (exists qs, ds = map Some qs /\
              (Qsum qs == F2Q (List.last ts (S754_zero false)))%Q).

(** The segment URI without the hyphen of the suffix pattern and with
    exactly the padded index between prefix and extension. *)
Definition uri_prefix_index_ts (prefix : string) (index : Z) : string :=
  prefix +:+ lpad0 5 (dec_string index) +:+ ".ts".

(** The manager when [loadMetadata] gives up on the cache: the entry that
    was read did not decode ([json.Unmarshal] may have written to
    [m.metadata] all the same), or there was nothing to read. *)
Definition after_cache_attempt (env : Env) (m : ManagerCtx) : ManagerCtx :=
  match getCacheData env with
  | inl data => set_metadata (fst (json_Unmarshal env data (metadata m))) m
  | inr _ => m
  end.

Definition cache_entry_corrupted (env : Env) (m : ManagerCtx) : Prop :=
  exists data err,
    getCacheData env = inl data /\
    snd (json_Unmarshal env data (metadata m)) = Some err.

Definition cache_entry_not_found (env : Env) : Prop :=
  exists err, getCacheData env = inr err /\ err_not_exist err = true.

(** The cache write that [loadMetadata] chooses for [data]. *)
Definition cache_write_event (cfg : Config) (data : bytes) : Event :=
  if String.eqb (CacheDir cfg) EmptyString then CallSaveLocalCacheData data
  else CallSaveGlobalCacheData data.

Definition cache_write_result (env : Env) (cfg : Config) (data : bytes)
  : option error :=
  if String.eqb (CacheDir cfg) EmptyString then saveLocalCacheData env data
  else saveGlobalCacheData env data.

(** An environment whose cache holds bytes that do not decode, whose fast
    probe finds a video stream without keyframe times, and whose full
    scan supplies them. *)
Definition example_env : Env :=
  {| ProbeMedia := fun _ _ => inl {| Video := Some {| PktPtsTime := None |} |};
     ProbeVideo := fun _ _ =>
       inl {| PktPtsTime :=
                Some [ S754_zero false; f64_of_ratio 48 10;
                       f64_of_ratio 96 10; f64_of_ratio 144 10 ] |};
     getCacheData := inl [Byte.x7b];
     json_Unmarshal := fun _ old =>
       (old, Some {| err_text := "unexpected end of JSON input";
                     err_not_exist := false |});
     json_Marshal := fun _ => inl [Byte.x7b; Byte.x7d];
     saveGlobalCacheData := fun _ => None;
     saveLocalCacheData := fun _ => None |}.

(** An environment whose probe fails. *)
Definition failing_env : Env :=
  {| ProbeMedia := fun _ _ =>
       inr {| err_text := "exit status 1"; err_not_exist := false |};
     ProbeVideo := fun _ _ =>
       inr {| err_text := "exit status 1"; err_not_exist := false |};
     getCacheData :=
       inr {| err_text := "file does not exist"; err_not_exist := true |};
     json_Unmarshal := fun _ old => (old, None);
     json_Marshal := fun _ => inl [];
     saveGlobalCacheData := fun _ => None;
     saveLocalCacheData := fun _ => None |}.

(** The availability table and the loop counters of the goroutines only
    hold indexes from 1 on. *)
Definition segments_from_one (w : World) : Prop :=
  (forall segs k, segments (mgr w) = Some segs -> is_Some (segs !! k) -> 1 <= k) /\
  (forall g i, threads w !! g = Some (I_loop i) -> 1 <= i).

(** Every [loadMetadata] executed in the trace returned an error. *)
Definition all_loads_failed (tr : list Label) : Prop :=
  forall g, ~ In (L_load g None) tr.

(** No goroutine of the trace has published readiness. *)
Definition never_fired (tr : list Label) : Prop :=
  forall g c, ~ In (L_ready_fired g c) tr.

(** Goroutine [g] has ended in the trace: its [loadMetadata] failed, or it
    published readiness. *)
Definition ended (g : nat) (tr : list Label) : Prop :=
  (exists err, In (L_load g (Some err)) tr) \/
  (exists c, In (L_ready_fired g c) tr).

(** Identifiers are handed out once: running goroutines and ended ones
    have identifiers below [next_tid], an ended goroutine is not running,
    and none both failed to load and published readiness. *)
Definition threads_wf (w : World) (tr : list Label) : Prop :=
  (forall g, is_Some (threads w !! g) -> (g < next_tid w)%nat) /\
  (forall g, ended g tr -> (g < next_tid w)%nat /\ threads w !! g = None) /\
  (forall g err c, In (L_load g (Some err)) tr -> ~ In (L_ready_fired g c) tr).

(** While no [loadMetadata] has succeeded: the manager is not ready, every
    goroutine is still before its [loadMetadata], nothing was fired, and
    only shutdown channels (the even ones, [Start] making the shutdown
    channel first and the readiness channel second) have been closed. *)
Definition not_ready_yet (w : World) (tr : list Label) : Prop :=
  ready (mgr w) = false /\
  never_fired tr /\
  (forall g pc, threads w !! g = Some pc -> exists env, pc = I_load env) /\
  Nat.Even (next_chan w) /\
  (forall c, shutdown (mgr w) = Some c -> Nat.Even c) /\
  (forall c, onReadyChange (mgr w) = Some c -> Nat.Odd c) /\
  (forall c, c ∈ closed w -> Nat.Even c).

(** The goroutine of thread [g] set to [pc]. *)
Definition at_pc (g : nat) (pc : init_pc) (w : World) : World :=
  with_threads (<[g := pc]> (threads w)) w.

(** A configuration whose prefix smuggles a line into the playlist. *)
Definition multiline_config : Config :=
  {| MediaPath := "/media/a.mp4"; FFprobeBinary := "ffprobe";
     TranscodeDir := "/tmp/t";
     SegmentPrefix := "a" +:+ LF +:+ "#EXTINF:9.000, no desc" +:+ LF +:+ "b";
     Cache := true; CacheDir := EmptyString |}.

(** The constants that [New] fixes. *)
Definition constants_of (cfg : Config) (m : ManagerCtx) : Prop :=
  config m = cfg /\
  segmentDuration m = f64_of_ratio 475 100 /\
  segmentSuffix m = "-%05d.ts".

(** The response of [ServeMedia] when the index is not in the table. *)
Definition index_not_found : Response * list Event :=
  (HttpError "404 index not found" StatusNotFound,
   [LogWarn "media index not found"]).

(** The error with which [loadMetadata] returns when the probe fails. *)
Definition probe_failure : error :=
  {| err_text := "unable probe media for metadata: exit status 1";
     err_not_exist := false |}.

(** A configuration and timestamps to run the definitions on. *)
Definition example_config : Config :=
  {| MediaPath := "/media/a.mp4"; FFprobeBinary := "ffprobe";
     TranscodeDir := "/tmp/t"; SegmentPrefix := "seg"; Cache := true;
     CacheDir := EmptyString |}.

Definition example_times : list float64 :=
  [ S754_zero false; f64_of_ratio 48 10; f64_of_ratio 96 10;
    f64_of_ratio 144 10 ].

Definition example_fs : FS :=
  {| path_Join := fun dir name => dir +:+ "/" +:+ name;
     stat_IsNotExist := fun _ => false |}.

(** Keyframe times with microsecond digits, as a probe reports them. *)
Definition fine_times : list float64 :=
  [ S754_zero false; f64_of_ratio 2002333 1000000;
    f64_of_ratio 4004667 1000000 ].

(* ===================================================================== *)
(** ** Vocabulary for the remaining paths of the loader                   *)
(* ===================================================================== *)

(** The condition under which [fetchMetadata] runs the full scan: the
    fast probe reports a video stream and no keyframe times for it. *)
Definition needs_full_scan (md : ProbeMediaData) : bool :=
  match Video md with
  | Some {| PktPtsTime := None |} => true
  | _ => false
  end.

Definition is_cache_read (e : Event) : bool :=
  match e with
  | CallGetCacheData => true
  | _ => false
  end.

Definition is_cache_access (e : Event) : bool :=
  is_cache_read e || is_cache_write e.

(** The cache entry was read and decoded without error. *)
Definition cache_entry_usable (env : Env) (m : ManagerCtx) : bool :=
  match getCacheData env with
  | inl data =>
      match snd (json_Unmarshal env data (metadata m)) with
      | None => true
      | Some _ => false
      end
  | inr _ => false
  end.

(** What [loadMetadata] has done when it turns from the cache to a fresh
    probe: the read, and the error it logs unless the entry is missing. *)
Definition cache_attempt_events (env : Env) (m : ManagerCtx) : list Event :=
  [LogInfo "loading metadata"; CallGetCacheData] ++
  match getCacheData env with
  | inl data =>
      match snd (json_Unmarshal env data (metadata m)) with
      | Some err => [LogErr err "cache unmarhalling returned error, replacing"]
      | None => []
      end
  | inr err =>
      if err_not_exist err then []
      else [LogErr err "cache hit returned error, replacing"]
  end.

(** An environment with a usable cache entry that names no video stream,
    and probes that would find one. *)
Definition audio_cache_env : Env :=
  {| ProbeMedia := fun _ _ => inl {| Video := Some {| PktPtsTime := None |} |};
     ProbeVideo := fun _ _ =>
       inl {| PktPtsTime := Some [S754_zero false; f64_of_ratio 48 10] |};
     getCacheData := inl [Byte.x7b; Byte.x7d];
     json_Unmarshal := fun _ _ => (Some {| Video := None |}, None);
     json_Marshal := fun _ => inl [Byte.x7b; Byte.x7d];
     saveGlobalCacheData := fun _ => None;
     saveLocalCacheData := fun _ => None |}.

(** An environment with no cache entry, working probes, and a cache that
    cannot be written. *)
Definition readonly_cache_env : Env :=
  {| ProbeMedia := fun _ _ =>
       inl {| Video := Some {| PktPtsTime :=
                Some [S754_zero false; f64_of_ratio 48 10] |} |};
     ProbeVideo := fun _ _ =>
       inr {| err_text := "not called"; err_not_exist := false |};
     getCacheData :=
       inr {| err_text := "permission denied"; err_not_exist := false |};
     json_Unmarshal := fun _ old => (old, None);
     json_Marshal := fun _ => inl [Byte.x7b; Byte.x7d];
     saveGlobalCacheData := fun _ =>
       Some {| err_text := "read-only file system"; err_not_exist := false |};
     saveLocalCacheData := fun _ =>
       Some {| err_text := "read-only file system"; err_not_exist := false |} |}.

(** [example_config] with the cache switched off. *)
Definition uncached_config : Config :=
  {| MediaPath := MediaPath example_config;
     FFprobeBinary := FFprobeBinary example_config;
     TranscodeDir := TranscodeDir example_config;
     SegmentPrefix := SegmentPrefix example_config;
     Cache := false;
     CacheDir := EmptyString |}.

(** The manager that [initialize] makes of [example_times]. *)
Definition example_manager : ManagerCtx :=
  default (New example_config) (initialized example_config example_times).

(* --------------------------------------------------------------------- *)
(** Invariants of the lifecycle. *)

(** Channel identifiers are handed out once: every channel that was
    closed and both channels of the manager were made earlier, the two
    channels of the manager differ, and a goroutine only runs once the
    manager has a readiness channel. *)
Definition channels_fresh (w : World) : Prop :=
  (forall c, c ∈ closed w -> (c < next_chan w)%nat) /\
  (forall c, shutdown (mgr w) = Some c -> (c < next_chan w)%nat) /\
  (forall c, onReadyChange (mgr w) = Some c -> (c < next_chan w)%nat) /\
  (forall a b, shutdown (mgr w) = Some a -> onReadyChange (mgr w) = Some b ->
               a <> b) /\
  (forall g pc, threads w !! g = Some pc -> is_Some (onReadyChange (mgr w))).

(** The goroutine has made the availability table. *)
Definition past_table (pc : init_pc) : bool :=
  match pc with
  | I_loop _ | I_publish => true
  | _ => false
  end.

(** What [ready] stands for: the current readiness channel has been
    closed and the availability table exists, a goroutine making it
    before it comes to its last statement. *)
Definition publication_inv (w : World) : Prop :=
  (ready (mgr w) = true ->
   exists c, onReadyChange (mgr w) = Some c /\ c ∈ closed w) /\
  (ready (mgr w) = true -> segments (mgr w) <> None) /\
  (forall g pc, threads w !! g = Some pc -> past_table pc = true ->
                segments (mgr w) <> None).

(** Channel [c] was made, is not closed, and is no longer (or not yet)
    one of the manager's channels. *)
Definition stale (c : nat) (w : World) : Prop :=
  (c < next_chan w)%nat /\ (c ∉ closed w) /\
  shutdown (mgr w) <> Some c /\ onReadyChange (mgr w) <> Some c.

(** No [Start] of the trace has reached its locked section. *)
Definition never_started (tr : list Label) : Prop :=
  forall g, ~ In (L_Start_spawn g) tr.

(** The response of [ServePlaylist] when the timer fires. *)
Definition playlist_timeout : Response * list Event :=
  (HttpError "504 playlist timeout" StatusGatewayTimeout,
   [LogWarn "playlist load timeouted"]).

(** Two calls of [Start] before the first goroutine has run, then the
    first goroutine to its end and the second up to its last statement. *)
Definition overlapping_starts (env : Env) (cfg : Config) : World :=
  let w1 := fst (Start env (new_world cfg)) in
  let w2 := fst (Start env w1) in
  let w3 :=
    run_goroutine (length (segmentsTimes (mgr (run_goroutine 2 0 w2))) + 6)
      0 w2 in
  run_goroutine (4 + Nat.max 1 (length (segmentsTimes (mgr w3)))) 1 w3.

(** A start-up whose probe failed, followed by a second [Start] that has
    passed the test of [m.ready]. *)
Definition retry_world : World :=
  let wA := with_starting 1 (new_world example_config) in
  let wB := Start_locked failing_env (with_starting 0 wA) in
  let wC := init_commit 0 (fst (init_step (I_load failing_env) wB)) in
  with_starting 1 wC.

(** Some call of [Stop] has been made in the trace. *)
Definition stopped (tr : list Label) : Prop :=
  exists p, In (Stop_label p) tr.

(* --------------------------------------------------------------------- *)
(** The goroutine of one [Start], and where closed channels come from. *)








(* ===================================================================== *)
(** ** Properties of the playlist generator                               *)
(* ===================================================================== *)

Lemma playlist_loop_entries m fuel i acc :
  0 <= i ->
  Z.of_nat (length (segmentsTimes m)) - i <= Z.of_nat fuel ->
  playlist_loop m fuel i acc =
  acc ++ flat_map (segment_entry m)
           (seqZ i (Z.of_nat (length (segmentsTimes m)) - i)).
Proof.
  revert i acc. induction fuel as [|fuel IH]; intros i acc Hi Hfuel.
  - simpl. rewrite seqZ_nil by lia. simpl. by rewrite app_nil_r.
  - simpl. destruct (Z.ltb_spec i (Z.of_nat (length (segmentsTimes m)))) as [Hlt|Hge].
    + rewrite IH by lia.
      rewrite (seqZ_cons i) by lia. simpl.
      rewrite <- app_assoc. simpl.
      replace (Z.succ i) with (i + 1) by lia.
      replace (Z.pred (Z.of_nat (length (segmentsTimes m)) - i))
        with (Z.of_nat (length (segmentsTimes m)) - (i + 1)) by lia.
      reflexivity.
    + rewrite seqZ_nil by lia. simpl. by rewrite app_nil_r.
Qed.

Lemma getPlaylist_lines_entries m :
  getPlaylist_lines m =
  [ "#EXTM3U"; "#EXT-X-VERSION:4"; "#EXT-X-PLAYLIST-TYPE:VOD";
    "#EXT-X-MEDIA-SEQUENCE:0";
    "#EXT-X-TARGETDURATION:" +:+ fmt_f 2 (segmentDuration m) ]
  ++ flat_map (segment_entry m)
       (seqZ 1 (Z.of_nat (length (segmentsTimes m)) - 1))
  ++ [ "#EXT-X-ENDLIST" ].
Proof.
  unfold getPlaylist_lines.
  rewrite playlist_loop_entries by lia.
  by rewrite <- app_assoc.
Qed.

Lemma Sprintf_suffix (i : Z) :
  Sprintf_int "-%05d.ts" i = "-" +:+ fmt_d true 5 i +:+ ".ts".
Proof. reflexivity. Qed.

(** *** Strings: characters, lines *)

Lemma string_forall_app P s1 s2 :
  string_forall P (s1 +:+ s2) = string_forall P s1 && string_forall P s2.
Proof.
  induction s1 as [|c s1 IH]; simpl; [done|].
  by rewrite IH, andb_assoc.
Qed.

Lemma string_forall_impl (P Q : ascii -> bool) s :
  (forall c, P c = true -> Q c = true) ->
  string_forall P s = true -> string_forall Q s = true.
Proof.
  intros HPQ. induction s as [|c s IH]; simpl; [done|].
  rewrite !andb_true_iff. intros [Hc Hs]. split; auto.
Qed.

Lemma string_forall_zeros P n :
  P "0"%char = true -> string_forall P (zeros n) = true.
Proof. intros H0. induction n as [|n IH]; simpl; [done|]. by rewrite H0, IH. Qed.

Lemma digits_string_of_uint d :
  string_forall is_digit (NilEmpty.string_of_uint d) = true.
Proof. induction d; simpl; auto. Qed.

Lemma digits_dec_string n : string_forall is_digit (dec_string n) = true.
Proof.
  unfold dec_string, NilZero.string_of_uint.
  destruct (N.to_uint (Z.to_N n)); try apply (digits_string_of_uint (_ _)).
  reflexivity.
Qed.

Lemma digits_lpad0 w s :
  string_forall is_digit s = true -> string_forall is_digit (lpad0 w s) = true.
Proof.
  intros Hs. unfold lpad0. rewrite string_forall_app, Hs, andb_true_r.
  by apply string_forall_zeros.
Qed.

Lemma digit_no_lf c : is_digit c = true -> negb (Ascii.eqb c lf_char) = true.
Proof.
  intros Hc. destruct (Ascii.eqb_spec c lf_char) as [->|]; [|done].
  discriminate Hc.
Qed.

Lemma digits_no_lf s : string_forall is_digit s = true -> no_lf s = true.
Proof. apply string_forall_impl, digit_no_lf. Qed.

Lemma no_lf_app s1 s2 : no_lf (s1 +:+ s2) = no_lf s1 && no_lf s2.
Proof. apply string_forall_app. Qed.

Lemma no_lf_fixed_digits prec n : no_lf (fixed_digits prec n) = true.
Proof.
  unfold fixed_digits. rewrite no_lf_app, (digits_no_lf _ (digits_dec_string _)).
  destruct prec; [done|].
  rewrite no_lf_app. simpl.
  apply digits_no_lf, digits_lpad0, digits_dec_string.
Qed.

Lemma no_lf_fmt_f prec x : no_lf (fmt_f prec x) = true.
Proof.
  destruct x as [s|[|]| |s m e]; simpl; try done;
    rewrite no_lf_app, no_lf_fixed_digits; by destruct s.
Qed.

Lemma no_lf_fmt_d0 w v : no_lf (fmt_d true w v) = true.
Proof.
  unfold fmt_d. destruct (v <? 0).
  - rewrite no_lf_app. simpl.
    apply digits_no_lf, digits_lpad0, digits_dec_string.
  - apply digits_no_lf, digits_lpad0, digits_dec_string.
Qed.

Lemma no_lf_extinf_line d : no_lf (extinf_line d) = true.
Proof.
  unfold extinf_line. by rewrite !no_lf_app, no_lf_fmt_f.
Qed.

Lemma no_lf_String c s :
  no_lf (String c s) = negb (Ascii.eqb c lf_char) && no_lf s.
Proof. reflexivity. Qed.

Lemma split_lines_no_lf s : no_lf s = true -> split_lines s = [s].
Proof.
  induction s as [|c s IH]; [done|].
  rewrite no_lf_String, andb_true_iff, negb_true_iff. intros [Hc Hs].
  simpl. by rewrite Hc, (IH Hs).
Qed.

Lemma split_lines_cons s rest :
  no_lf s = true ->
  split_lines (s +:+ LF +:+ rest) = s :: split_lines rest.
Proof.
  induction s as [|c s IH]; [done|].
  rewrite no_lf_String, andb_true_iff, negb_true_iff. intros [Hc Hs].
  simpl. by rewrite Hc, (IH Hs).
Qed.

Lemma split_lines_Join l :
  l <> [] -> Forall (fun s => no_lf s = true) l ->
  split_lines (Join l LF) = l.
Proof.
  induction l as [|x l IH]; [done|]. intros _ Hall.
  apply Forall_cons in Hall as [Hx Hl].
  destruct l as [|y l].
  - simpl. by apply split_lines_no_lf.
  - change (Join (x :: y :: l) LF) with (x +:+ LF +:+ Join (y :: l) LF).
    rewrite split_lines_cons by done. f_equal. by apply IH.
Qed.

(** *** The [#EXTINF] entries of the generated text *)

Lemma is_extinf_extinf_line d : is_extinf (extinf_line d) = true.
Proof. reflexivity. Qed.

Lemma is_extinf_uri p rest :
  has_prefix "#" p = false -> is_extinf (p +:+ "-" +:+ rest) = false.
Proof.
  unfold is_extinf. destruct p as [|c p]; [done|].
  simpl. rewrite andb_true_r. by intros ->.
Qed.

Section PlaylistText.
Variable m : ManagerCtx.
Hypothesis Hsuffix : segmentSuffix m = "-%05d.ts".
Hypothesis Hprefix_lf : no_lf (SegmentPrefix (config m)) = true.
Hypothesis Hprefix_tag : has_prefix "#" (SegmentPrefix (config m)) = false.

Lemma getSegmentName_suffix i :
  getSegmentName m i =
  SegmentPrefix (config m) +:+ "-" +:+ fmt_d true 5 i +:+ ".ts".
Proof. unfold getSegmentName. by rewrite Hsuffix. Qed.

Lemma no_lf_getSegmentName i : no_lf (getSegmentName m i) = true.
Proof.
  rewrite getSegmentName_suffix.
  by rewrite !no_lf_app, Hprefix_lf, no_lf_fmt_d0.
Qed.

Lemma no_lf_entries l :
  Forall (fun s => no_lf s = true) (flat_map (segment_entry m) l).
Proof.
  induction l as [|i l IH]; simpl; [constructor|].
  constructor; [apply no_lf_extinf_line|].
  constructor; [apply no_lf_getSegmentName|done].
Qed.

Lemma no_lf_getPlaylist_lines :
  Forall (fun s => no_lf s = true) (getPlaylist_lines m).
Proof.
  rewrite getPlaylist_lines_entries.
  apply Forall_app. split.
  - repeat (constructor; [done|]).
    constructor; [|constructor].
    by rewrite no_lf_app, no_lf_fmt_f.
  - apply Forall_app. split; [apply no_lf_entries|].
    by constructor.
Qed.

Lemma filter_extinf_entries l :
  List.filter is_extinf (flat_map (segment_entry m) l) =
  map (fun i => extinf_line (f64_sub (segmentsTimes m !!! Z.to_nat i)
                                     (segmentsTimes m !!! Z.to_nat (i - 1))))
      l.
Proof.
  induction l as [|i l IH]; [done|].
  cbn [flat_map segment_entry app List.filter map].
  rewrite is_extinf_extinf_line.
  rewrite (getSegmentName_suffix i) at 1.
  rewrite is_extinf_uri by done.
  by rewrite IH.
Qed.

Lemma extinf_lines_getPlaylist :
  extinf_lines (getPlaylist m) =
  map (fun i => extinf_line (f64_sub (segmentsTimes m !!! Z.to_nat i)
                                     (segmentsTimes m !!! Z.to_nat (i - 1))))
      (seqZ 1 (Z.of_nat (length (segmentsTimes m)) - 1)).
Proof.
  unfold extinf_lines, getPlaylist.
  rewrite split_lines_Join.
  - rewrite getPlaylist_lines_entries.
    rewrite !List.filter_app, filter_extinf_entries.
    simpl. by rewrite app_nil_r.
  - rewrite getPlaylist_lines_entries. done.
  - apply no_lf_getPlaylist_lines.
Qed.
End PlaylistText.

(** *** Reading a printed duration back *)

Lemma break_at_app c s rest :
  string_forall (fun a => negb (Ascii.eqb a c)) s = true ->
  break_at c (s +:+ String c rest) = (s, Some rest).
Proof.
  induction s as [|a s IH]; simpl.
  - by rewrite Ascii.eqb_refl.
  - rewrite andb_true_iff, negb_true_iff. intros [-> Hs].
    by rewrite (IH Hs).
Qed.

Lemma dec_string_nonempty n : exists c rest, dec_string n = String c rest.
Proof.
  unfold dec_string. destruct (N.to_uint (Z.to_N n)); simpl; eauto.
Qed.

Lemma of_uint_D0 d : N.of_uint (Decimal.D0 d) = N.of_uint d.
Proof.
  reflexivity.
Qed.

Lemma uint_of_string_zeros k s d :
  NilEmpty.uint_of_string s = Some d ->
  exists d', NilEmpty.uint_of_string (zeros k +:+ s) = Some d' /\
             N.of_uint d' = N.of_uint d.
Proof.
  intros Hs. induction k as [|k [d' [Hd' Heq]]]; simpl; [eauto|].
  rewrite Hd'. simpl. exists (Decimal.D0 d'). split; [done|].
  by rewrite of_uint_D0.
Qed.

Lemma uint_of_dec_string n :
  0 <= n ->
  exists d, NilEmpty.uint_of_string (dec_string n) = Some d /\
            Z.of_N (N.of_uint d) = n.
Proof.
  intros Hn. unfold dec_string, NilZero.string_of_uint.
  pose proof (DecimalN.Unsigned.of_to (Z.to_N n)) as Hof.
  destruct (N.to_uint (Z.to_N n)) eqn:Hd;
    try (eexists; split; [apply (NilEmpty.usu (_ _))|by rewrite Hof, Z2N.id]).
  exists (Decimal.D0 Decimal.Nil). split; [done|].
  rewrite <- (Z2N.id n Hn), <- Hof. done.
Qed.

Lemma parse_nat_nonempty s :
  s <> EmptyString ->
  parse_nat s = d ← NilEmpty.uint_of_string s; Some (Z.of_N (N.of_uint d)).
Proof. by destruct s. Qed.

Lemma parse_nat_dec_string n : 0 <= n -> parse_nat (dec_string n) = Some n.
Proof.
  intros Hn. destruct (dec_string_nonempty n) as [c [rest Hc]].
  rewrite parse_nat_nonempty by (by rewrite Hc).
  destruct (uint_of_dec_string n Hn) as [d [-> Hd]]. simpl. by rewrite Hd.
Qed.

Lemma parse_nat_lpad0 w n : 0 <= n -> parse_nat (lpad0 w (dec_string n)) = Some n.
Proof.
  intros Hn. destruct (dec_string_nonempty n) as [c [rest Hc]].
  rewrite parse_nat_nonempty.
  - destruct (uint_of_dec_string n Hn) as [d [Hd Hval]].
    destruct (uint_of_string_zeros (w - String.length (dec_string n)) _ _ Hd)
      as [d' [Hd' Heq]].
    unfold lpad0. rewrite Hd'. simpl. by rewrite Heq, Hval.
  - unfold lpad0. rewrite Hc.
    destruct (w - String.length (String c rest))%nat; done.
Qed.

Lemma length_app_string s1 s2 :
  String.length (s1 +:+ s2) = (String.length s1 + String.length s2)%nat.
Proof. induction s1 as [|c s1 IH]; simpl; [done|]. by rewrite IH. Qed.

Lemma length_zeros n : String.length (zeros n) = n.
Proof. induction n as [|n IH]; simpl; [done|]. by rewrite IH. Qed.

Lemma length_dec_string_3 n :
  0 <= n < 1000 -> (String.length (dec_string n) <= 3)%nat.
Proof.
  intros Hn.
  assert (Hall : forallb (fun k => (String.length (dec_string k) <=? 3)%nat)
                   (seqZ 0 1000) = true) by (vm_compute; reflexivity).
  rewrite forallb_forall in Hall.
  apply Nat.leb_le, Hall, list_elem_of_In, elem_of_seqZ. lia.
Qed.

Lemma length_lpad0_3 n :
  0 <= n < 1000 -> String.length (lpad0 3 (dec_string n)) = 3%nat.
Proof.
  intros Hn. unfold lpad0.
  rewrite length_app_string, length_zeros.
  pose proof (length_dec_string_3 n Hn). lia.
Qed.

Lemma digit_not_char c c' :
  is_digit c' = false -> is_digit c = true -> negb (Ascii.eqb c c') = true.
Proof.
  intros Hc' Hc. destruct (Ascii.eqb_spec c c') as [->|]; [congruence|done].
Qed.

Lemma digits_without (c' : ascii) s :
  is_digit c' = false -> string_forall is_digit s = true ->
  string_forall (fun a => negb (Ascii.eqb a c')) s = true.
Proof. intros Hc'. apply string_forall_impl. intros c. by apply digit_not_char. Qed.

Lemma parse_unsigned_digits n :
  0 <= n ->
  exists q, parse_unsigned (fixed_digits 3 n) = Some q /\ (q == n # 1000)%Q.
Proof.
  intros Hn. unfold fixed_digits, parse_unsigned.
  change (10 ^ Z.of_nat 3) with 1000.
  change ("." +:+ lpad0 3 (dec_string (n mod 1000)))
    with (String "." (lpad0 3 (dec_string (n mod 1000)))).
  rewrite break_at_app
    by (apply digits_without; [done|apply digits_dec_string]).
  rewrite parse_nat_dec_string by (apply Z.div_pos; lia).
  cbn [mbind option_bind].
  rewrite parse_nat_lpad0 by (apply Z.mod_pos_bound; lia).
  cbn [mbind option_bind].
  rewrite length_lpad0_3 by (apply Z.mod_pos_bound; lia).
  eexists. split; [reflexivity|].
  change (10 ^ Z.of_nat 3) with 1000. unfold Qeq. simpl.
  pose proof (Z.div_mod n 1000). lia.
Qed.

Lemma parse_fixed_digit c rest :
  is_digit c = true -> parse_fixed (String c rest) = parse_unsigned (String c rest).
Proof.
  intros Hc. simpl. destruct (Ascii.eqb_spec c "-") as [->|]; [discriminate Hc|done].
Qed.

Lemma parse_fixed_fmt_f s m e :
  exists q, parse_fixed (fmt_f 3 (S754_finite s m e)) = Some q /\
            (q == rounded_thousandths (S754_finite s m e) # 1000)%Q.
Proof.
  assert (Hn : 0 <= round_scaled 3 m e).
  { unfold round_scaled. change (10 ^ Z.of_nat 3) with 1000.
    destruct (0 <=? e) eqn:He.
    - apply Z.leb_le in He. apply Z.mul_nonneg_nonneg; [lia|].
      by apply Z.pow_nonneg.
    - assert (0 <= Z.pos m * 1000 / 2 ^ (- e))
        by (apply Z.div_pos; [lia|apply Z.pow_pos_nonneg; lia]).
      destruct (2 * _ ?= _); [destruct (Z.even _)|..]; lia. }
  destruct (parse_unsigned_digits _ Hn) as [q [Hq Heq]].
  unfold fmt_f, rounded_thousandths. destruct s.
  - exists (- q)%Q. split.
    + change ("-" +:+ ?x) with (String "-" x). simpl. by rewrite Hq.
    + rewrite Heq. done.
  - exists q. split; [|done].
    change (EmptyString +:+ ?x) with x.
    destruct (fixed_digits 3 (round_scaled 3 m e)) as [|c rest] eqn:Hfd.
    + unfold fixed_digits in Hfd.
      destruct (dec_string_nonempty (round_scaled 3 m e / 10 ^ Z.of_nat 3))
        as [c [rest Hc]].
      rewrite Hc in Hfd. discriminate Hfd.
    + rewrite parse_fixed_digit; [done|].
      unfold fixed_digits in Hfd.
      destruct (dec_string_nonempty (round_scaled 3 m e / 10 ^ Z.of_nat 3))
        as [c' [rest' Hc]].
      pose proof (digits_dec_string (round_scaled 3 m e / 10 ^ Z.of_nat 3)) as Hd.
      rewrite Hc in Hfd, Hd. injection Hfd as -> _.
      simpl in Hd. by apply andb_true_iff in Hd as [-> _].
Qed.

Lemma numeral_fixed_digits prec n :
  string_forall numeral_char (fixed_digits prec n) = true.
Proof.
  assert (Hdig : forall s, string_forall is_digit s = true ->
                           string_forall numeral_char s = true).
  { intros s. apply string_forall_impl. intros c Hc.
    unfold numeral_char. by rewrite Hc. }
  unfold fixed_digits.
  rewrite string_forall_app, (Hdig _ (digits_dec_string _)).
  destruct prec; [done|].
  rewrite string_forall_app. simpl.
  apply Hdig, digits_lpad0, digits_dec_string.
Qed.

Lemma numeral_fmt_f s m e :
  string_forall numeral_char (fmt_f 3 (S754_finite s m e)) = true.
Proof.
  unfold fmt_f. rewrite string_forall_app, numeral_fixed_digits.
  by destruct s.
Qed.

Lemma extinf_duration_extinf_line s m e :
  exists q, extinf_duration (extinf_line (S754_finite s m e)) = Some q /\
            (q == rounded_thousandths (S754_finite s m e) # 1000)%Q.
Proof.
  destruct (parse_fixed_fmt_f s m e) as [q [Hq Heq]].
  exists q. split; [|done].
  unfold extinf_duration. rewrite is_extinf_extinf_line.
  unfold extinf_line.
  change (drop_chars 8 ("#EXTINF:" +:+ ?x)) with x.
  change (", no desc") with (String "," " no desc").
  rewrite break_at_app; [done|].
  eapply string_forall_impl; [|apply numeral_fmt_f].
  intros c Hc. destruct (Ascii.eqb_spec c ",") as [->|]; [discriminate Hc|done].
Qed.

Lemma round_scaled_neg_exp m e :
  e < 0 ->
  let D := 2 ^ (- e) in
  let N := round_scaled 3 m e in
  0 < D /\ - D <= 2 * (N * D - 1000 * Z.pos m) <= D.
Proof.
  intros He D N.
  assert (HD : 0 < D) by (apply Z.pow_pos_nonneg; lia).
  split; [done|].
  subst N. unfold round_scaled.
  change (10 ^ Z.of_nat 3) with 1000.
  destruct (Z.leb_spec 0 e) as [?|_]; [lia|].
  fold D.
  pose proof (Z.div_mod (Z.pos m * 1000) D ltac:(lia)) as Hdm.
  pose proof (Z.mod_pos_bound (Z.pos m * 1000) D HD) as Hr.
  set (q := Z.pos m * 1000 / D) in *.
  set (r := (Z.pos m * 1000) mod D) in *.
  destruct (Z.compare_spec (2 * r) D) as [Heq|Hlt|Hgt].
  - destruct (Z.even q); nia.
  - nia.
  - nia.
Qed.

Lemma rounded_thousandths_close d :
  is_finite d = true ->
  (- (1 # 2000) <= (rounded_thousandths d # 1000) - F2Q d <= 1 # 2000)%Q.
Proof.
  destruct d as [s| | |s m e]; try done; intros _.
  unfold rounded_thousandths, F2Q.
  destruct (Z.leb_spec 0 e) as [He|He].
  - unfold round_scaled. change (10 ^ Z.of_nat 3) with 1000.
    destruct (Z.leb_spec 0 e) as [_|?]; [|lia].
    assert (H2 : 0 < 2 ^ e) by (apply Z.pow_pos_nonneg; lia).
    destruct s; split; unfold Qle, Qminus, Qplus, Qopp, inject_Z;
      cbn [Qnum Qden]; nia.
  - destruct (round_scaled_neg_exp m e He) as [HD Hb].
    assert (Hden : Z.pos (2 ^ Z.to_pos (- e)) = 2 ^ (- e)).
    { rewrite Pos2Z.inj_pow, Z2Pos.id by lia. done. }
    destruct s; split; unfold Qle, Qminus, Qplus, Qopp;
      cbn [Qnum Qden]; rewrite ?Pos2Z.inj_mul, ?Hden; nia.
Qed.

(** *** Sums of declared durations *)

Lemma segment_durations_cons a b rest :
  segment_durations (a :: b :: rest) =
  f64_sub b a :: segment_durations (b :: rest).
Proof.
  unfold segment_durations.
  replace (Z.of_nat (length (a :: b :: rest)) - 1)
    with (Z.succ (Z.of_nat (length rest))) by (simpl; lia).
  rewrite seqZ_cons by lia.
  replace (Z.of_nat (length (b :: rest)) - 1)
    with (Z.of_nat (length rest)) by (simpl; lia).
  rewrite Z.pred_succ. cbn [map]. f_equal.
  change (Z.succ 1) with (1 + 1).
  rewrite <- fmap_add_seqZ.
  change (Z.add 1 <$> seqZ 1 (Z.of_nat (length rest)))
    with (map (Z.add 1) (seqZ 1 (Z.of_nat (length rest)))).
  rewrite map_map. apply map_ext_in.
  intros i Hi. apply list_elem_of_In, elem_of_seqZ in Hi.
  replace (Z.to_nat (1 + i)) with (S (Z.to_nat i)) by lia.
  replace (Z.to_nat (1 + i - 1)) with (S (Z.to_nat (i - 1))) by lia.
  reflexivity.
Qed.

Lemma length_segment_durations ts :
  length (segment_durations ts) = (length ts - 1)%nat.
Proof.
  unfold segment_durations. rewrite length_map, length_seqZ. lia.
Qed.

Lemma declared_sum_close ts qs :
  Forall2 (fun q d => (- (1 # 2000) <= q - F2Q d <= 1 # 2000)%Q)
    qs (segment_durations ts) ->
  exact_differences ts ->
  (- (inject_Z (Z.of_nat (length qs)) * (1 # 2000))
   <= Qsum qs - (F2Q (List.last ts (S754_zero false))
                 - F2Q (List.hd (S754_zero false) ts))
   <= inject_Z (Z.of_nat (length qs)) * (1 # 2000))%Q.
Proof.
  revert qs. induction ts as [|a ts IH]; intros qs Hqs Hex.
  - inversion Hqs; subst. simpl.
      change (inject_Z (Z.of_nat 0)) with 0%Q. split; lra.
  - destruct ts as [|b ts].
    + inversion Hqs; subst. simpl.
      change (inject_Z (Z.of_nat 0)) with 0%Q. split; lra.
    + rewrite segment_durations_cons in Hqs.
      inversion Hqs as [|q d qs' ds' Hq Hqs' Ha Hb]; subst.
      destruct Hex as [Hsub Hex].
      specialize (IH qs' Hqs' Hex).
      change (List.last (a :: b :: ts) (S754_zero false))
        with (List.last (b :: ts) (S754_zero false)).
      change (List.hd (S754_zero false) (a :: b :: ts)) with a.
      change (List.hd (S754_zero false) (b :: ts)) with b in IH.
      cbn [Qsum length].
      rewrite Nat2Z.inj_succ, <- Z.add_1_r, inject_Z_plus.
      change (inject_Z 1) with 1%Q.
      split; lra.
Qed.

Lemma extinf_duration_finite d :
  is_finite d = true ->
  exists q, extinf_duration (extinf_line d) = Some q /\
            (q == rounded_thousandths d # 1000)%Q.
Proof.
  destruct d as [[|]| | |s m e]; try done; intros _.
  - eexists. split; [vm_compute; reflexivity|done].
  - eexists. split; [vm_compute; reflexivity|done].
  - apply extinf_duration_extinf_line.
Qed.

Lemma declared_durations_rounded ds :
  Forall (fun d => is_finite d = true) ds ->
  exists qs,
    map extinf_duration (map extinf_line ds) = map Some qs /\
    Forall2 (fun q d =>
               (q == rounded_thousandths d # 1000)%Q /\
               (- (1 # 2000) <= q - F2Q d <= 1 # 2000)%Q) qs ds.
Proof.
  induction 1 as [|d ds Hd _ [qs [Hqs Hall]]].
  - exists []. split; [done|constructor].
  - destruct (extinf_duration_finite d Hd) as [q [Hq Heq]].
    exists (q :: qs). split.
    + cbn [map]. by rewrite Hq, Hqs.
    + constructor; [|done]. split; [done|].
      pose proof (rounded_thousandths_close d Hd). rewrite Heq. done.
Qed.

(** C1 (as amended). After [initialize] on metadata with keyframe
    timestamps [ts], the playlist text has exactly [len(ts) - 1] [#EXTINF]
    entries, and the [i]-th is the float64 difference [ts[i] - ts[i-1]]
    printed with three decimals. When the differences are finite each
    declared duration is that difference rounded to a whole number of
    thousandths, hence within 0.0005 of it; and when the subtractions are
    exact the declared durations add up to the last timestamp minus the
    first within 0.0005 per entry. *)
Theorem playlist_declares_rounded_durations (m : ManagerCtx)
    (md : ProbeMediaData) (v : ProbeVideoData) :
  segmentSuffix m = "-%05d.ts" ->
  no_lf (SegmentPrefix (config m)) = true ->
  has_prefix "#" (SegmentPrefix (config m)) = false ->
  metadata m = Some md -> Video md = Some v ->
  let ts := elems (PktPtsTime v) in
  exists m',
    initialize m = Some m' /\
    extinf_lines (playlist m') = map extinf_line (segment_durations ts) /\
    length (declared_durations (playlist m')) = (length ts - 1)%nat /\
    (Forall (fun d => is_finite d = true) (segment_durations ts) ->
     exists qs,
       declared_durations (playlist m') = map Some qs /\
       Forall2 (fun q d =>
                  (q == rounded_thousandths d # 1000)%Q /\
                  (- (1 # 2000) <= q - F2Q d <= 1 # 2000)%Q)
         qs (segment_durations ts) /\
       (exact_differences ts ->
        (- (inject_Z (Z.of_nat (length qs)) * (1 # 2000))
         <= Qsum qs - (F2Q (List.last ts (S754_zero false))
                       - F2Q (List.hd (S754_zero false) ts))
         <= inject_Z (Z.of_nat (length qs)) * (1 # 2000))%Q)).
Proof.
  intros Hsuffix Hlf Htag Hmd Hv ts.
  unfold initialize. rewrite Hmd. cbn [mbind option_bind]. rewrite Hv.
  cbn [mbind option_bind]. fold ts.
  eexists. split; [reflexivity|].
  cbn [playlist set_segments set_playlist].
  assert (Hlines :
    extinf_lines (getPlaylist (set_segmentsTimes ts m)) =
    map extinf_line (segment_durations ts)).
  { rewrite extinf_lines_getPlaylist by done.
    unfold segment_durations. by rewrite map_map. }
  split; [done|]. split.
  { unfold declared_durations.
    by rewrite Hlines, !length_map, length_segment_durations. }
  intros Hfin.
  destruct (declared_durations_rounded _ Hfin) as [qs [Hqs Hall]].
  exists qs. split; [|split; [done|]].
  { unfold declared_durations. by rewrite Hlines. }
  intros Hex. apply declared_sum_close; [|done].
  eapply Forall2_impl; [apply Hall|]. by intros q d [_ ?].
Qed.

Lemma playlist_declares_rounded_durations_witness :
  exists m' qs,
    initialize (set_metadata (Some (metadata_of example_times))
                  (New example_config)) = Some m' /\
    extinf_lines (playlist m') =
      [ "#EXTINF:4.800, no desc"; "#EXTINF:4.800, no desc";
        "#EXTINF:4.800, no desc" ] /\
    declared_durations (playlist m') = map Some qs /\
    (- (3 # 2000) <= Qsum qs - F2Q (f64_of_ratio 144 10) <= 3 # 2000)%Q.
Proof.
  destruct (playlist_declares_rounded_durations
              (set_metadata (Some (metadata_of example_times))
                 (New example_config))
              (metadata_of example_times)
              {| PktPtsTime := Some example_times |}
              eq_refl eq_refl eq_refl eq_refl eq_refl)
    as [m' [Hinit [Hlines [Hlen Hfin]]]].
  destruct Hfin as [qs [Hqs [Hall Hsum]]].
  { vm_compute. repeat constructor. }
  exists m', qs. split; [exact Hinit|]. split.
  { rewrite Hlines. vm_compute. reflexivity. }
  split; [exact Hqs|].
  assert (Hn : length qs = 3%nat).
  { apply Forall2_length in Hall. rewrite Hall. vm_compute. reflexivity. }
  rewrite Hn in Hsum.
  assert (Hex : exact_differences (elems (Some example_times))).
  { vm_compute. repeat split. }
  specialize (Hsum Hex).
  assert (Hsum' :
    (- (3 * (1 # 2000)) <= Qsum qs - (F2Q (f64_of_ratio 144 10) - 0)
     <= 3 * (1 # 2000))%Q) by exact Hsum.
  split; lra.
Defined.

(** C1 (counterexample). With the strictly increasing timestamps
    [0, 2.002333, 4.004667] the playlist declares 2.002 twice: neither
    entry equals the difference of its timestamps and the declared sum is
    4.004, not the last timestamp. *)
Lemma declared_durations_not_exact :
  strictly_increasing fine_times = true /\
  List.hd S754_nan fine_times = S754_zero false /\
  exists m',
    initialized example_config fine_times = Some m' /\
    extinf_lines (playlist m') =
      [ "#EXTINF:2.002, no desc"; "#EXTINF:2.002, no desc" ] /\
    ~ declares_exact_durations (playlist m') fine_times.
Proof.
  split; [vm_compute; reflexivity|]. split; [reflexivity|].
  eexists. split; [vm_compute; reflexivity|].
  split; [vm_compute; reflexivity|].
  intros [_ [Hi _]].
  destruct (Hi 1%nat) as [q [Hq Heq]]; [simpl; lia|].
  vm_compute in Hq. injection Hq as <-.
  vm_compute in Heq. discriminate Heq.
Qed.

(** The count of entries is a property of the text only for a prefix
    that keeps to its line: a prefix with a line feed adds lines of its
    own to the playlist. *)
Lemma extinf_count_multiline_prefix :
  exists m',
    initialized multiline_config example_times = Some m' /\
    length (extinf_lines (playlist m')) = 6%nat.
Proof. eexists. split; vm_compute; reflexivity. Qed.

(** *** Text format *)

Lemma fmt_d_nonneg w i : 0 <= i -> fmt_d true w i = lpad0 w (dec_string i).
Proof.
  intros Hi. unfold fmt_d.
  destruct (Z.ltb_spec i 0); [lia|]. by rewrite Z.abs_eq.
Qed.

Lemma flat_map_ext_elem {A B} (f g : A -> list B) l :
  (forall x, In x l -> f x = g x) -> flat_map f l = flat_map g l.
Proof.
  intros Hfg. rewrite !flat_map_concat_map. f_equal. by apply map_ext_in.
Qed.

Lemma digits_upto_spec fuel k w n :
  digits_upto fuel k w = true -> k <= n < k + Z.of_nat fuel ->
  (String.length (dec_string n) <= w)%nat.
Proof.
  revert k. induction fuel as [|fuel IH]; intros k Hall Hn; [lia|].
  cbn [digits_upto] in Hall. apply andb_true_iff in Hall as [Hk Hrest].
  destruct (Z.eq_dec n k) as [->|Hne]; [by apply Nat.leb_le|].
  apply (IH (k + 1)); [done|lia].
Qed.

Lemma length_dec_string_5 n :
  0 <= n < 100000 -> (String.length (dec_string n) <= 5)%nat.
Proof.
  intros Hn. apply (digits_upto_spec (Z.to_nat 100000) 0); [|lia].
  vm_compute. reflexivity.
Qed.

Lemma length_lpad0_ge w s : (w <= String.length (lpad0 w s))%nat.
Proof. unfold lpad0. rewrite length_app_string, length_zeros. lia. Qed.

(** C2 (as amended). The playlist text is the five header lines (the
    target duration being the nominal 4.75 printed with two decimals),
    then for each index [i = 1 .. len-1] in ascending order the line
    [#EXTINF:<ts[i]-ts[i-1] with 3 decimals>, no desc] followed by the
    segment URI, then [#EXT-X-ENDLIST], joined by line feeds; the URI is
    the configured prefix, a hyphen, the index zero-padded to at least
    five digits, and [.ts]. The padded index is made of digits, reads
    back as the index, and has exactly five digits below 100000. *)
Theorem playlist_text_format (m : ManagerCtx) :
  segmentSuffix m = "-%05d.ts" ->
  segmentDuration m = f64_of_ratio 475 100 ->
  let ts := segmentsTimes m in
  getPlaylist m =
  Join
    ([ "#EXTM3U";
       "#EXT-X-VERSION:4";
       "#EXT-X-PLAYLIST-TYPE:VOD";
       "#EXT-X-MEDIA-SEQUENCE:0";
       "#EXT-X-TARGETDURATION:4.75" ]
     ++ flat_map
          (fun i =>
             [ "#EXTINF:" +:+
                 fmt_f 3 (f64_sub (ts !!! Z.to_nat i) (ts !!! Z.to_nat (i - 1)))
                 +:+ ", no desc";
               SegmentPrefix (config m) +:+ "-" +:+
                 lpad0 5 (dec_string i) +:+ ".ts" ])
          (seqZ 1 (Z.of_nat (length ts) - 1))
     ++ [ "#EXT-X-ENDLIST" ])
    LF /\
  (forall i, 1 <= i ->
     getSegmentName m i =
       SegmentPrefix (config m) +:+ "-" +:+ lpad0 5 (dec_string i) +:+ ".ts" /\
     string_forall is_digit (lpad0 5 (dec_string i)) = true /\
     parse_nat (lpad0 5 (dec_string i)) = Some i /\
     (5 <= String.length (lpad0 5 (dec_string i)))%nat /\
     (i < 100000 -> String.length (lpad0 5 (dec_string i)) = 5%nat)).
Proof.
  intros Hsuffix Hdur ts. split.
  - unfold getPlaylist.
    rewrite getPlaylist_lines_entries, Hdur.
    change (fmt_f 2 (f64_of_ratio 475 100)) with "4.75".
    f_equal. f_equal. f_equal.
    apply flat_map_ext_elem. intros i Hi.
    apply list_elem_of_In, elem_of_seqZ in Hi.
    unfold segment_entry, extinf_line, getSegmentName.
    by rewrite Hsuffix, Sprintf_suffix, fmt_d_nonneg by lia.
  - intros i Hi. split; [|split; [|split; [|split]]].
    + unfold getSegmentName.
      by rewrite Hsuffix, Sprintf_suffix, fmt_d_nonneg by lia.
    + apply digits_lpad0, digits_dec_string.
    + apply parse_nat_lpad0. lia.
    + apply length_lpad0_ge.
    + intros Hlt. unfold lpad0.
      rewrite length_app_string, length_zeros.
      pose proof (length_dec_string_5 i ltac:(lia)). lia.
Qed.

Lemma playlist_text_format_witness :
  getPlaylist (set_segmentsTimes example_times (New example_config)) =
  Join
    [ "#EXTM3U"; "#EXT-X-VERSION:4"; "#EXT-X-PLAYLIST-TYPE:VOD";
      "#EXT-X-MEDIA-SEQUENCE:0"; "#EXT-X-TARGETDURATION:4.75";
      "#EXTINF:4.800, no desc"; "seg-00001.ts";
      "#EXTINF:4.800, no desc"; "seg-00002.ts";
      "#EXTINF:4.800, no desc"; "seg-00003.ts";
      "#EXT-X-ENDLIST" ]
    LF.
Proof.
  rewrite (proj1 (playlist_text_format
                    (set_segmentsTimes example_times (New example_config))
                    eq_refl eq_refl)).
  vm_compute. reflexivity.
Defined.

(** C2 (counterexample). The URI of segment 1 under the prefix [seg] is
    [seg-00001.ts]: the suffix pattern puts a hyphen between the prefix
    and the index, so the URI is not the prefix directly followed by the
    padded index and [.ts]; and from index 100000 on the index has more
    than five digits. *)
Lemma segment_uri_not_prefix_index :
  getSegmentName (New example_config) 1 = "seg-00001.ts" /\
  uri_prefix_index_ts (SegmentPrefix example_config) 1 = "seg00001.ts" /\
  getSegmentName (New example_config) 1 <>
    uri_prefix_index_ts (SegmentPrefix example_config) 1 /\
  getSegmentName (New example_config) 100000 = "seg-100000.ts".
Proof. repeat split; try (vm_compute; reflexivity). vm_compute. discriminate. Qed.

(** *** Determinism *)

(** C9. The playlist text is a function of the segment boundary times,
    the nominal duration, the suffix pattern and the configured prefix
    alone: two managers that agree on these (and differ in anything else:
    readiness, channels, the availability table, an earlier playlist)
    generate the same text; [initialize] on the same metadata stores the
    same playlist, and repeating it on its own result does not change the
    playlist. *)
Theorem getPlaylist_deterministic (m1 m2 : ManagerCtx) :
  segmentsTimes m1 = segmentsTimes m2 ->
  segmentDuration m1 = segmentDuration m2 ->
  segmentSuffix m1 = segmentSuffix m2 ->
  SegmentPrefix (config m1) = SegmentPrefix (config m2) ->
  getPlaylist m1 = getPlaylist m2 /\
  (metadata m1 = metadata m2 ->
   forall m1' m2',
     initialize m1 = Some m1' -> initialize m2 = Some m2' ->
     playlist m1' = playlist m2' /\
     exists m1'', initialize m1' = Some m1'' /\ playlist m1'' = playlist m1').
Proof.
  intros Hts Hdur Hsuf Hpre.
  assert (Hgen : forall a b,
            segmentsTimes a = segmentsTimes b ->
            segmentDuration a = segmentDuration b ->
            segmentSuffix a = segmentSuffix b ->
            SegmentPrefix (config a) = SegmentPrefix (config b) ->
            getPlaylist a = getPlaylist b).
  { intros a b Hts' Hdur' Hsuf' Hpre'. unfold getPlaylist.
    rewrite !getPlaylist_lines_entries, Hdur', Hts'.
    f_equal. f_equal. f_equal.
    apply flat_map_ext_elem. intros i _.
    unfold segment_entry, getSegmentName. by rewrite Hts', Hsuf', Hpre'. }
  split; [by apply Hgen|].
  intros Hmd m1' m2' H1 H2.
  unfold initialize in H1, H2. rewrite <- Hmd in H2.
  destruct (metadata m1) as [md|] eqn:Hmeta; [|discriminate H1].
  cbn [mbind option_bind] in H1, H2.
  destruct (Video md) as [v|] eqn:Hv; [|discriminate H1].
  cbn [mbind option_bind] in H1, H2.
  injection H1 as <-. injection H2 as <-.
  split.
  - cbn [playlist set_segments set_playlist]. by apply Hgen.
  - unfold initialize. cbn [metadata set_segments set_playlist set_segmentsTimes].
    rewrite Hmeta. cbn [mbind option_bind]. rewrite Hv.
    cbn [mbind option_bind].
    eexists. split; [reflexivity|].
    cbn [playlist set_segments set_playlist]. by apply Hgen.
Qed.

Lemma getPlaylist_deterministic_witness :
  getPlaylist (set_segmentsTimes example_times (New example_config)) =
  getPlaylist
    (set_ready true
       (set_playlist "stale"
          (set_segmentsTimes example_times (New example_config)))).
Proof.
  apply (getPlaylist_deterministic
           (set_segmentsTimes example_times (New example_config))
           (set_ready true
              (set_playlist "stale"
                 (set_segmentsTimes example_times (New example_config))))
           eq_refl eq_refl eq_refl eq_refl).
Defined.

(* ===================================================================== *)
(** ** Properties of the metadata loader                                  *)
(* ===================================================================== *)

Lemma fetchMetadata_config env m :
  config (state_of (fetchMetadata env m)) = config m.
Proof.
  unfold fetchMetadata, act_bind, emit, get, modify, act_ret, state_of.
  cbn. destruct (ProbeMedia env _ _) as [md|err]; [|done].
  destruct (Video md) as [[[ts|]]|]; try done.
  by destruct (ProbeVideo env _ _).
Qed.

Lemma fetchMetadata_no_cache_write env m :
  List.filter is_cache_write (events_of (fetchMetadata env m)) = [].
Proof.
  unfold fetchMetadata, act_bind, emit, get, modify, act_ret, events_of.
  cbn. destruct (ProbeMedia env _ _) as [md|err]; [|done].
  destruct (Video md) as [[[ts|]]|]; try done.
  by destruct (ProbeVideo env _ _).
Qed.

(** C7. With caching enabled, when the cache entry does not decode or
    there is none, [loadMetadata] probes afresh; if that probe succeeds
    and its result serializes to [data], the manager holds the freshly
    probed metadata, exactly one cache write is made, with [data], to the
    global backend when a cache directory is configured and to the local
    one otherwise, and [loadMetadata] returns what that write returns
    (nil when it succeeds). A missing entry is not logged as an error; a
    corrupted one is logged once and replaced. *)
Theorem loadMetadata_cache_fallback (env : Env) (m : ManagerCtx) (data : bytes) :
  Cache (config m) = true ->
  cache_entry_corrupted env m \/ cache_entry_not_found env ->
  let fresh := fetchMetadata env (after_cache_attempt env m) in
  result_of fresh = None ->
  json_Marshal env (metadata (state_of fresh)) = inl data ->
  let r := loadMetadata env m in
  metadata (state_of r) = metadata (state_of fresh) /\
  List.filter is_probe (events_of r) = List.filter is_probe (events_of fresh) /\
  List.filter is_cache_write (events_of r) = [cache_write_event (config m) data] /\
  result_of r = cache_write_result env (config m) data /\
  (cache_write_result env (config m) data = None -> result_of r = None) /\
  (cache_entry_not_found env -> List.filter is_error_log (events_of r)
                                = List.filter is_error_log (events_of fresh)) /\
  (cache_entry_corrupted env m ->
   exists err, List.filter is_error_log (events_of r)
               = LogErr err "cache unmarhalling returned error, replacing"
                 :: List.filter is_error_log (events_of fresh)).
Proof.
  intros Hcache Hcase fresh Hok Hdata r.
  pose proof (fetchMetadata_config env (after_cache_attempt env m)) as Hcfg.
  pose proof (fetchMetadata_no_cache_write env (after_cache_attempt env m)) as Hnw.
  assert (Hcfg0 : config (after_cache_attempt env m) = config m).
  { unfold after_cache_attempt. by destruct (getCacheData env). }
  assert (Hr : exists pre,
             r = (cache_write_result env (config m) data,
                  state_of fresh,
                  pre ++ events_of fresh ++ [cache_write_event (config m) data]) /\
             List.filter is_probe pre = [] /\
             List.filter is_cache_write pre = [] /\
             (cache_entry_not_found env -> List.filter is_error_log pre = []) /\
             (cache_entry_corrupted env m ->
              exists err, List.filter is_error_log pre =
                          [LogErr err "cache unmarhalling returned error, replacing"])).
  { subst r. unfold loadMetadata, act_bind, emit, get, modify, act_ret.
    rewrite Hcache. cbn [negb].
    unfold cache_write_event, cache_write_result.
    subst fresh. unfold after_cache_attempt in *.
    unfold cache_entry_corrupted, cache_entry_not_found.
    destruct Hcase as [(bytes0 & uerr & Hread & Hbad)|(err & Hread & Hmiss)];
      rewrite Hread in *.
    - destruct (json_Unmarshal env bytes0 (metadata m)) as [md' ue] eqn:Hun.
      cbn [fst snd] in *. rewrite Hbad.
      destruct (fetchMetadata env (set_metadata md' m)) as [[res m1] evs] eqn:Hf.
      unfold result_of, state_of, events_of in *. cbn [fst snd] in *.
      rewrite Hok, Hdata.
      exists [ LogInfo "loading metadata"; CallGetCacheData;
               LogErr uerr "cache unmarhalling returned error, replacing" ].
      split.
      + destruct (String.eqb (CacheDir (config m)) EmptyString); cbn [negb];
          cbn [app]; rewrite ?app_nil_r; reflexivity.
      + repeat split; try done.
        * by intros (e & He & _).
        * intros _. by eexists.
    - rewrite Hmiss. cbn [negb].
      destruct (fetchMetadata env m) as [[res m1] evs] eqn:Hf.
      unfold result_of, state_of, events_of in *. cbn [fst snd] in *.
      rewrite Hok, Hdata.
      exists [ LogInfo "loading metadata"; CallGetCacheData ].
      split.
      + destruct (String.eqb (CacheDir (config m)) EmptyString); cbn [negb];
          cbn [app]; rewrite ?app_nil_r; reflexivity.
      + repeat split; try done.
        by intros (d & e & He & _). }
  destruct Hr as (pre & -> & Hp1 & Hp2 & Hp3 & Hp4).
  fold fresh in Hnw.
  change (result_of (?a, ?b, ?c)) with a.
  change (state_of (?a, ?b, ?c)) with b.
  change (events_of (?a, ?b, ?c)) with c.
  rewrite !List.filter_app, Hp1, Hp2, Hnw.
  assert (Hwe : is_cache_write (cache_write_event (config m) data) = true
                /\ is_probe (cache_write_event (config m) data) = false
                /\ is_error_log (cache_write_event (config m) data) = false).
  { unfold cache_write_event. by destruct (String.eqb _ _). }
  destruct Hwe as (Hw1 & Hw2 & Hw3).
  cbn [List.filter app]. rewrite Hw1, Hw2, Hw3, !app_nil_r.
  repeat split; try done.
  - intros Hnf. by rewrite (Hp3 Hnf).
  - intros Hco. destruct (Hp4 Hco) as [e ->]. by exists e.
Qed.

Lemma fetchMetadata_probed env m :
  result_of (fetchMetadata env m) = None ->
  exists md0,
    ProbeMedia env (FFprobeBinary (config m)) (MediaPath (config m)) = inl md0 /\
    (metadata (state_of (fetchMetadata env m)) = Some md0 \/
     exists vd,
       Video md0 = Some {| PktPtsTime := None |} /\
       ProbeVideo env (FFprobeBinary (config m)) (MediaPath (config m)) = inl vd /\
       metadata (state_of (fetchMetadata env m))
       = Some (with_PktPtsTime md0 (PktPtsTime vd))).
Proof.
  unfold fetchMetadata, act_bind, emit, get, modify, act_ret, result_of,
    state_of.
  cbn. destruct (ProbeMedia env _ _) as [md|err]; [|done].
  intros Hres. exists md. split; [done|].
  destruct (Video md) as [[[ts|]]|] eqn:Hv; try (by left).
  destruct (ProbeVideo env _ _) as [vd|err]; [|done].
  right. by exists vd.
Qed.

Lemma loadMetadata_cache_fallback_witness :
  result_of (loadMetadata example_env (New example_config)) = None /\
  metadata (state_of (loadMetadata example_env (New example_config)))
  = Some (metadata_of example_times) /\
  List.filter is_cache_write
    (events_of (loadMetadata example_env (New example_config)))
  = [CallSaveLocalCacheData [Byte.x7b; Byte.x7d]].
Proof.
  destruct (loadMetadata_cache_fallback example_env (New example_config)
              [Byte.x7b; Byte.x7d] eq_refl
              (or_introl
                 (ex_intro _ [Byte.x7b]
                    (ex_intro _ {| err_text := "unexpected end of JSON input";
                                   err_not_exist := false |}
                       (conj eq_refl eq_refl))))
              eq_refl eq_refl)
    as (Hmd & _ & Hw & Hres & _).
  split; [rewrite Hres; reflexivity|].
  split; [rewrite Hmd; reflexivity|].
  rewrite Hw. reflexivity.
Defined.

(* ===================================================================== *)
(** ** Properties of the lifecycle                                        *)
(* ===================================================================== *)

Lemma fetchMetadata_frame env m :
  state_of (fetchMetadata env m)
  = set_metadata (metadata (state_of (fetchMetadata env m))) m.
Proof.
  unfold fetchMetadata, act_bind, emit, get, modify, act_ret, state_of.
  cbn. destruct (ProbeMedia env _ _) as [md|err]; [|by destruct m].
  destruct (Video md) as [[[ts|]]|]; try done.
  destruct (ProbeVideo env _ _); [done|by destruct m].
Qed.

Lemma set_metadata_twice a b m :
  set_metadata a (set_metadata b m) = set_metadata a m.
Proof. reflexivity. Qed.

(** [loadMetadata] writes no field of the manager but [metadata]. *)
Lemma loadMetadata_frame env m :
  state_of (loadMetadata env m)
  = set_metadata (metadata (state_of (loadMetadata env m))) m.
Proof.
  unfold loadMetadata, act_bind, emit, get, modify, act_ret.
  destruct (negb (Cache (config m))).
  { pose proof (fetchMetadata_frame env m) as Hf.
    destruct (fetchMetadata env m) as [[r m1] evs]. exact Hf. }
  destruct (getCacheData env) as [data|err].
  - destruct (json_Unmarshal env data (metadata m)) as [md' [uerr|]];
      [|by destruct m].
    pose proof (fetchMetadata_frame env (set_metadata md' m)) as Hf.
    destruct (fetchMetadata env (set_metadata md' m)) as [[r m1] evs].
    unfold state_of in *. cbn [fst snd] in *.
    rewrite set_metadata_twice in Hf.
    destruct r; [exact Hf|].
    destruct (json_Marshal env (metadata m1)); [|exact Hf].
    by destruct (negb _).
  - pose proof (fetchMetadata_frame env m) as Hf.
    unfold state_of in *.
    destruct (negb (err_not_exist err)); cbn [fst snd];
      destruct (fetchMetadata env m) as [[r m1] evs]; cbn [fst snd] in *;
      (destruct r; [exact Hf|]);
      (destruct (json_Marshal env (metadata m1)); [|exact Hf]);
      by destruct (negb _).
Qed.

Ltac step_cases H :=
  inversion H as
    [ ? Hrun Hchk
    | ? Hrun Hchk
    | ? n env Hrun Hn
    | ? g pc res evs Hrun Hg Hstep
    | ? ? p Hrun Hstop ];
  subst.

Lemma init_step_load env w :
  exists r m' evs,
    loadMetadata env (mgr w) = (r, m', evs) /\
    m' = set_metadata (metadata m') (mgr w) /\
    init_step (I_load env) w =
    match r with
    | Some err =>
        (Returns err (with_mgr m' w), evs ++ [LogPrintf (err_text err +:+ LF)])
    | None => (Goes I_times (with_mgr m' w), evs)
    end.
Proof.
  pose proof (loadMetadata_frame env (mgr w)) as Hfr.
  unfold init_step.
  destruct (loadMetadata env (mgr w)) as [[r m'] evs].
  exists r, m', evs. by destruct r.
Qed.

Lemma Stop_cases w w' p :
  Stop w = (w', p) ->
  threads w' = threads w /\ next_tid w' = next_tid w /\
  starting w' = starting w /\
  next_chan w' = next_chan w /\ crashed w' = crashed w /\
  segments (mgr w') = segments (mgr w) /\
  config (mgr w') = config (mgr w) /\
  segmentDuration (mgr w') = segmentDuration (mgr w) /\
  segmentSuffix (mgr w') = segmentSuffix (mgr w) /\
  onReadyChange (mgr w') = onReadyChange (mgr w) /\
  shutdown (mgr w') = shutdown (mgr w) /\
  (p = None -> ready (mgr w') = false) /\
  (p <> None -> ready (mgr w') = ready (mgr w) /\ closed w' = closed w).
Proof.
  unfold Stop. destruct (close _ _); intros [= <- <-]; repeat split; done.
Qed.

Lemma step_segments_from_one w l w' :
  step w l w' -> segments_from_one w -> segments_from_one w'.
Proof.
  intros Hs [Hseg Hloop]. unfold segments_from_one. step_cases Hs.
  - done.
  - done.
  - split; [done|]. intros g i. cbn.
    rewrite lookup_insert. case_decide; [done|]. apply Hloop.
  - destruct pc as [env| | | |i|].
    + destruct (init_step_load env w) as (r & m' & evs' & _ & Hm' & Hst).
      rewrite Hst in Hstep.
      assert (Hs' : segments m' = segments (mgr w)) by (by rewrite Hm').
      destruct r; injection Hstep as <- <-; cbn; rewrite Hs';
        (split; [done|]); intros g' i.
      * rewrite lookup_delete. case_decide; [done|]. apply Hloop.
      * rewrite lookup_insert. case_decide; [done|]. apply Hloop.
    + cbn in Hstep. destruct (metadata (mgr w) ≫= Video);
        injection Hstep as <- <-; cbn; [|done].
      split; [done|]. intros g' i.
      rewrite lookup_insert. case_decide; [done|]. apply Hloop.
    + injection Hstep as <- <-. cbn. split; [done|]. intros g' i.
      rewrite lookup_insert. case_decide; [done|]. apply Hloop.
    + injection Hstep as <- <-. cbn. split.
      * intros segs k [= <-]. rewrite lookup_empty. by intros [? ?].
      * intros g' i. rewrite lookup_insert.
        case_decide; [intros [= <-]; lia|]. apply Hloop.
    + cbn in Hstep.
      destruct (i <? Z.of_nat (length (segmentsTimes (mgr w)))).
      * destruct (segments (mgr w)) as [segs|] eqn:Hsegs;
          injection Hstep as <- <-; cbn; [|by rewrite Hsegs].
        pose proof (Hloop g i Hg) as Hi. split.
        -- intros segs' k [= <-]. rewrite lookup_insert.
           case_decide; [lia|]. by apply Hseg.
        -- intros g' i'. rewrite lookup_insert.
           case_decide; [intros [= <-]; lia|]. apply Hloop.
      * injection Hstep as <- <-. cbn. split; [done|]. intros g' i'.
        rewrite lookup_insert. case_decide; [done|]. apply Hloop.
    + cbn in Hstep.
      destruct (onReadyChange (mgr w)) as [c|]; cbn in Hstep.
      * destruct (decide (c ∈ closed w)); injection Hstep as <- <-; cbn;
          [done|].
        split; [done|]. intros g' i.
        rewrite lookup_delete. case_decide; [done|]. apply Hloop.
      * injection Hstep as <- <-. done.
  - destruct (Stop_cases _ _ _ Hstop) as (Ht & _ & _ & _ & _ & Hsg & _).
    split; [rewrite Hsg|rewrite Ht]; done.
Qed.

Lemma exec_invariant (P : World -> Prop) w0 tr w :
  (forall w l w', step w l w' -> P w -> P w') ->
  exec w0 tr w -> P w0 -> P w.
Proof. intros Hstep. induction 1; eauto. Qed.

Lemma reachable_segments_from_one cfg w :
  reachable cfg w -> segments_from_one w.
Proof.
  intros [tr Hexec].
  apply (exec_invariant _ _ _ _ step_segments_from_one Hexec).
  split; [done|]. intros g i. cbn. by rewrite lookup_empty.
Qed.

Lemma exec_app w0 tr1 w1 tr2 w2 :
  exec w0 tr1 w1 -> exec w1 tr2 w2 -> exec w0 (tr1 ++ tr2) w2.
Proof.
  intros H1 H2. induction H2 as [|w1 tr2 w2 l w3 _ IH Hs].
  - by rewrite app_nil_r.
  - rewrite app_assoc. eapply exec_snoc; eauto.
Qed.

Lemma exec_one w l w' : step w l w' -> exec w [l] w'.
Proof. intros Hs. apply (exec_snoc w [] w l w'); [constructor|done]. Qed.

Lemma run_goroutine_exec fuel g w :
  exists tr, exec w tr (run_goroutine fuel g w).
Proof.
  revert w. induction fuel as [|fuel IH]; intros w; simpl.
  - exists []. constructor.
  - destruct (crashed w) eqn:Hc; [exists []; constructor|].
    destruct (threads w !! g) as [pc|] eqn:Hg; [|exists []; constructor].
    destruct (IH (init_commit g (fst (init_step pc w)))) as [tr Htr].
    eexists. eapply exec_app; [|exact Htr].
    apply exec_one. eapply step_goroutine; eauto using surjective_pairing.
Qed.

Lemma Start_exec env w :
  crashed w = false ->
  exists tr, exec w tr (fst (Start env w)).
Proof.
  intros Hc. unfold Start. destruct (Start_check w) eqn:Hchk.
  - exists [L_Start_admitted; L_Start_spawn (next_tid w)].
    eapply (exec_app _ [_] _ [_]).
    + apply exec_one. by apply step_Start_admitted.
    + apply exec_one.
      apply (step_Start_spawn (with_starting (S (starting w)) w)
               (starting w) env); done.
  - exists []. constructor.
Qed.

Lemma reachable_started env cfg : reachable cfg (started env cfg).
Proof.
  unfold reachable, started.
  destruct (Start_exec env (new_world cfg) eq_refl) as [tr1 H1].
  destruct (run_goroutine_exec
              (length (segmentsTimes
                 (mgr (run_goroutine 2 0 (fst (Start env (new_world cfg)))))) + 6)
              0 (fst (Start env (new_world cfg)))) as [tr2 H2].
  exists (tr1 ++ tr2). eapply exec_app; eauto.
Qed.

Lemma segments_loop_lookup m n fuel i segs k :
  Z.of_nat (length (segmentsTimes m)) = n ->
  0 <= i -> n - i <= Z.of_nat fuel ->
  is_Some (segments_loop m fuel i segs !! k) <->
  is_Some (segs !! k) \/ i <= k < n.
Proof.
  intros <-.
  revert i segs. induction fuel as [|fuel IH]; intros i segs Hi Hfuel; simpl.
  - split; [by left|]. intros [?|?]; [done|lia].
  - destruct (Z.ltb_spec i (Z.of_nat (length (segmentsTimes m)))) as [Hlt|Hge].
    + rewrite IH by lia. rewrite lookup_insert. case_decide.
      * subst. split; [intros _; right; lia|]. intros _. by left.
      * split; (intros [?|?]; [by left|right; lia]).
    + split; [by left|]. intros [?|?]; [done|lia].
Qed.

Lemma initialize_segments m m' :
  initialize m = Some m' ->
  exists segs, segments m' = Some segs /\
    forall k, is_Some (segs !! k) <->
              1 <= k < Z.of_nat (length (segmentsTimes m')).
Proof.
  unfold initialize.
  destruct (metadata m) as [md|]; [|done]. cbn [mbind option_bind].
  destruct (Video md) as [v|]; [|done]. cbn [mbind option_bind].
  intros [= <-]. eexists. split; [reflexivity|]. intros k.
  rewrite (segments_loop_lookup _ (Z.of_nat (length (elems (PktPtsTime v)))))
    by (done || lia).
  rewrite lookup_empty. cbn [segmentsTimes set_segments set_playlist
    set_segmentsTimes].
  split; [intros [[? ?]|?]; done|by right].
Qed.

Lemma reachable_index_not_found cfg w fs r :
  reachable cfg w -> ServeMedia fs (mgr w) r = index_not_found.
Proof.
  intros Hreach.
  destruct (reachable_segments_from_one cfg w Hreach) as [Hseg _].
  unfold ServeMedia, map_lookup.
  destruct (segments (mgr w)) as [segs|] eqn:Hsegs; [|done].
  cbn. destruct (segs !! 0) as [b|] eqn:H0; [|done].
  assert (1 <= 0) by (eapply Hseg; eauto). lia.
Qed.

(** C3. In every state that the manager can reach from [New], whatever
    the interleaving of [Start], [Stop] and the initialization
    goroutines, [ServeMedia] answers every request with 404 [index not
    found]: it looks up index 0, and the availability table never holds
    an index below 1. After a whole [initialize] the table holds exactly
    the indexes [1 .. len-1]. *)
Theorem ServeMedia_index_not_found (cfg : Config) (w : World) :
  reachable cfg w ->
  (forall fs r, ServeMedia fs (mgr w) r = index_not_found) /\
  (forall m', initialize (mgr w) = Some m' ->
     (forall fs r, ServeMedia fs m' r = index_not_found) /\
     exists segs, segments m' = Some segs /\
       forall k, is_Some (segs !! k) <->
                 1 <= k < Z.of_nat (length (segmentsTimes m'))).
Proof.
  intros Hreach. split.
  - intros fs r. by apply (reachable_index_not_found cfg).
  - intros m' Hinit.
    destruct (initialize_segments _ _ Hinit) as (segs & Hsegs & Hk).
    split; [|by exists segs].
    intros fs r. unfold ServeMedia, map_lookup. rewrite Hsegs. cbn.
    destruct (segs !! 0) as [b|] eqn:H0; [|done].
    assert (1 <= 0 < Z.of_nat (length (segmentsTimes m'))) by (apply Hk; eauto).
    lia.
Qed.

Lemma ServeMedia_index_not_found_witness :
  ServeMedia example_fs (mgr (started example_env example_config))
    {| url_path := "/seg-00001.ts" |}
  = index_not_found.
Proof.
  exact (proj1 (ServeMedia_index_not_found example_config
                  (started example_env example_config)
                  (reachable_started example_env example_config))
           example_fs {| url_path := "/seg-00001.ts" |}).
Defined.

(** *** Failed initialization *)

Lemma exec_trace_invariant (P : World -> list Label -> Prop) w0 :
  P w0 [] ->
  (forall tr w l w', P w tr -> step w l w' -> P w' (tr ++ [l])) ->
  forall tr w, exec w0 tr w -> P w tr.
Proof. intros H0 Hstep tr w. induction 1; eauto. Qed.

Lemma in_snoc {A} (x l : A) (tr : list A) :
  In x (tr ++ [l]) <-> In x tr \/ x = l.
Proof.
  rewrite in_app_iff. simpl. split.
  - intros [?|[?|[]]]; [by left|by right].
  - intros [?|?]; [by left|right; by left].
Qed.

Lemma ended_snoc g tr l :
  ended g (tr ++ [l]) <->
  ended g tr \/ (exists err, l = L_load g (Some err)) \/
  (exists c, l = L_ready_fired g c).
Proof.
  unfold ended. split.
  - intros [[err [?|?]%in_snoc]|[c [?|?]%in_snoc]]; eauto 6.
  - intros [[[err ?]|[c ?]]|[[err ->]|[c ->]]].
    + left. exists err. apply in_snoc. by left.
    + right. exists c. apply in_snoc. by left.
    + left. exists err. apply in_snoc. by right.
    + right. exists c. apply in_snoc. by right.
Qed.

Lemma step_threads_wf tr w l w' :
  threads_wf w tr -> step w l w' -> threads_wf w' (tr ++ [l]).
Proof.
  intros (Hlt & Hend & Hex) Hs.
  assert (Hquiet :
    (forall g err, l <> L_load g (Some err)) ->
    (forall g c, l <> L_ready_fired g c) ->
    next_tid w' = next_tid w \/ next_tid w' = S (next_tid w) ->
    (forall g, is_Some (threads w' !! g) -> (g < next_tid w')%nat) ->
    (forall g, threads w !! g = None -> (g < next_tid w)%nat ->
               threads w' !! g = None) ->
    threads_wf w' (tr ++ [l])).
  { intros Hl1 Hl2 Hnt Hlt' Hnone. split; [done|]. split.
    - intros g [He|[[err ->]|[c ->]]]%ended_snoc;
        [|by destruct (Hl1 g err)|by destruct (Hl2 g c)].
      destruct (Hend g He) as [Hg Hn]. split; [lia|by apply Hnone].
    - intros g err c [Hin|Heq]%in_snoc [Hin'|Heq']%in_snoc;
        try (by destruct (Hl1 g err)); try (by destruct (Hl2 g c)).
      by apply (Hex g err c). }
  step_cases Hs.
  - apply Hquiet; try done. by left.
  - apply Hquiet; try done. by left.
  - apply Hquiet; try done.
    + by right.
    + intros g. cbn. rewrite lookup_insert. case_decide; [lia|].
      intros Hg. apply Hlt in Hg. lia.
    + intros g Hnone Hg. cbn. rewrite lookup_insert. case_decide; [lia|done].
  - assert (Hgl : (g < next_tid w)%nat) by (apply Hlt; eauto).
    assert (Hnt : forall res', next_tid (init_commit g res') =
                               match res' with
                               | Goes _ w1 | Returns _ w1 | Fires _ w1
                               | Crashes _ w1 => next_tid w1
                               end) by (by intros []).
    assert (Hw1 :
      match res with
      | Goes _ w1 | Returns _ w1 | Fires _ w1 | Crashes _ w1 =>
          next_tid w1 = next_tid w /\ threads w1 = threads w
      end).
    { destruct pc as [env| | | |i|].
      - destruct (init_step_load env w) as (r & m' & evs' & _ & _ & Hst).
        rewrite Hst in Hstep. by destruct r; injection Hstep as <- <-.
      - cbn in Hstep. by destruct (metadata (mgr w) ≫= Video);
          injection Hstep as <- <-.
      - by injection Hstep as <- <-.
      - by injection Hstep as <- <-.
      - cbn in Hstep.
        destruct (i <? Z.of_nat (length (segmentsTimes (mgr w))));
          [destruct (segments (mgr w))|]; by injection Hstep as <- <-.
      - cbn in Hstep. destruct (onReadyChange (mgr w)) as [c|]; cbn in Hstep;
          [destruct (decide (c ∈ closed w))|]; by injection Hstep as <- <-. }
    destruct res as [pc' w1|err w1|c w1|msg w1]; destruct Hw1 as [Hn1 Ht1].
    + apply Hquiet.
      * intros g' err. cbn. by destruct pc.
      * intros g' c. cbn. by destruct pc.
      * left. cbn. done.
      * intros g'. cbn. rewrite Ht1, Hn1, lookup_insert.
        case_decide; [by subst|]. apply Hlt.
      * intros g' Hnone _. cbn. rewrite Ht1, lookup_insert.
        case_decide; [subst; by rewrite Hg in Hnone|done].
    + unfold threads_wf. cbn. split; [|split].
      * intros g'. rewrite Ht1, Hn1, lookup_delete.
        case_decide; [by intros [? ?]|]. apply Hlt.
      * intros g' [He|[[err' [= <- <-]]|[c [=]]]]%ended_snoc.
        -- destruct (Hend g' He) as [Hg' Hnone].
           rewrite Ht1, Hn1, lookup_delete. by case_decide.
        -- rewrite Ht1, Hn1, lookup_delete. split; [done|]. by case_decide.
      * intros g' err' c [Hin|[= -> ->]]%in_snoc [Hin'|[=]]%in_snoc.
        -- by apply (Hex g' err' c).
        -- destruct (Hend g) as [_ Hnone]; [right; eauto|].
           by rewrite Hg in Hnone.
    + unfold threads_wf. cbn. split; [|split].
      * intros g'. rewrite Ht1, Hn1, lookup_delete.
        case_decide; [by intros [? ?]|]. apply Hlt.
      * intros g' [He|[[err' [=]]|[c' [= <- <-]]]]%ended_snoc.
        -- destruct (Hend g' He) as [Hg' Hnone].
           rewrite Ht1, Hn1, lookup_delete. by case_decide.
        -- rewrite Ht1, Hn1, lookup_delete. split; [done|]. by case_decide.
      * intros g' err' c' [Hin|[=]]%in_snoc [Hin'|[= -> ->]]%in_snoc.
        -- by apply (Hex g' err' c').
        -- destruct (Hend g) as [_ Hnone]; [left; eauto|].
           by rewrite Hg in Hnone.
    + apply Hquiet; try done.
      * left. cbn. done.
      * intros g'. cbn. rewrite Ht1, Hn1. apply Hlt.
      * intros g' Hnone _. cbn. by rewrite Ht1.
  - destruct (Stop_cases _ _ _ Hstop) as (Ht & Hn & _).
    apply Hquiet.
    + by destruct p.
    + by destruct p.
    + by left.
    + intros g. rewrite Ht, Hn. apply Hlt.
    + intros g Hnone _. by rewrite Ht.
Qed.

Lemma step_not_ready_yet tr w l w' :
  not_ready_yet w tr -> step w l w' -> all_loads_failed (tr ++ [l]) ->
  not_ready_yet w' (tr ++ [l]).
Proof.
  intros (Hrdy & Hnf & Hpc & Hnext & Hsh & Hrc & Hcl) Hs Hall.
  assert (Hfired : (forall g c, l <> L_ready_fired g c) ->
                   never_fired (tr ++ [l])).
  { intros Hl g c [Hin|Heq]%in_snoc; [by apply (Hnf g c)|].
    by destruct (Hl g c). }
  unfold not_ready_yet. step_cases Hs.
  - repeat split; try done. by apply Hfired.
  - repeat split; try done. by apply Hfired.
  - cbn. repeat split; try done.
    + by apply Hfired.
    + intros g pc. rewrite lookup_insert. case_decide; [|apply Hpc].
      intros [= <-]. by eexists.
    + destruct Hnext as [k Hk]. exists (S k). lia.
    + by intros c [= <-].
    + intros c [= <-]. destruct Hnext as [k Hk]. exists k. lia.
  - destruct (Hpc g pc Hg) as [env ->].
    destruct (init_step_load env w) as (r & m' & evs' & _ & Hm' & Hst).
    rewrite Hst in Hstep. destruct r as [err|]; injection Hstep as <- <-.
    + cbn. rewrite Hm'. cbn. repeat split; try done.
      * by apply Hfired.
      * intros g' pc'. rewrite lookup_delete. case_decide; [done|apply Hpc].
    + destruct (Hall g). apply in_snoc. by right.
  - destruct (Stop_cases _ _ _ Hstop)
      as (Ht & _ & _ & Hnc & _ & _ & _ & _ & _ & Hrc' & Hsh' & Hp1 & Hp2).
    rewrite Ht, Hnc, Hrc', Hsh'. repeat split; try done.
    + destruct p as [msg|]; [|by apply Hp1].
      destruct Hp2 as [-> _]; done.
    + apply Hfired. by destruct p.
    + intros c Hc. destruct p as [msg|].
      * destruct Hp2 as [_ Hcl']; [done|]. rewrite Hcl' in Hc. by apply Hcl.
      * unfold Stop in Hstop. unfold close in Hstop. cbn in Hstop.
        destruct (shutdown (mgr w)) as [c0|] eqn:Hc0; [|done].
        destruct (decide (c0 ∈ closed w)); [done|].
        injection Hstop as <-. cbn in Hc.
        apply elem_of_union in Hc as [->%elem_of_singleton|Hc];
          [by apply Hsh|by apply Hcl].
Qed.

Lemma exec_threads_wf cfg tr w :
  exec (new_world cfg) tr w -> threads_wf w tr.
Proof.
  apply exec_trace_invariant; [|apply step_threads_wf].
  split; [|split].
  - intros g. cbn. rewrite lookup_empty. by intros [? ?].
  - by intros g [[? []]|[? []]].
  - by intros g err c [].
Qed.

Lemma all_loads_failed_snoc tr l :
  all_loads_failed (tr ++ [l]) -> all_loads_failed tr.
Proof. intros Hall g Hin. apply (Hall g), in_snoc. by left. Qed.

Lemma exec_not_ready_yet cfg tr w :
  exec (new_world cfg) tr w -> all_loads_failed tr -> not_ready_yet w tr.
Proof.
  revert tr w.
  apply (exec_trace_invariant
           (fun w tr => all_loads_failed tr -> not_ready_yet w tr)).
  - intros _. repeat split; try done.
    + by intros g c [].
    + by exists 0%nat.
  - intros tr w l w' IH Hs Hall.
    apply (step_not_ready_yet tr w l w'); [|done..].
    apply IH. by eapply all_loads_failed_snoc.
Qed.

(** The other way an attempt can fail is a panic of [initialize] (no video
    stream in the metadata): the process ends, and the step neither sets
    [ready] nor closes a channel. *)
Lemma initialize_panic_not_ready w g0 msg w' :
  step w (L_crash g0 msg) w' ->
  threads w !! g0 <> Some I_publish ->
  crashed w' = true /\ ready (mgr w') = ready (mgr w) /\ closed w' = closed w.
Proof.
  intros Hs Hpc. remember (L_crash g0 msg) as l eqn:Hlab.
  destruct Hs as [w|w|w n env|w g pc res evs Hrun Hg Hstep|w w' p Hrun Hstop];
    try done.
  - destruct res as [pc' w2|err w2|c w2|msg' w2];
      try (by destruct pc); try done.
    injection Hlab as -> ->.
    destruct pc as [env| | | |i|]; [| | | | |done].
    + destruct (init_step_load env w) as (r & m' & evs' & _ & _ & Hst).
      rewrite Hst in Hstep. destruct r; discriminate Hstep.
    + cbn in Hstep.
      destruct (metadata (mgr w) ≫= Video); [discriminate Hstep|].
      by injection Hstep as <- <- <-.
    + discriminate Hstep.
    + discriminate Hstep.
    + cbn in Hstep.
      destruct (i <? Z.of_nat (length (segmentsTimes (mgr w))));
        [|discriminate Hstep].
      destruct (segments (mgr w)); [discriminate Hstep|].
      by injection Hstep as <- <- <-.
  - by destruct p.
Qed.

(** A playlist request that arrives while every initialization attempt
    fails cannot leave its wait through the readiness event: only the
    shutdown signal and the timeout remain. *)
Lemma failed_initialization_wait cfg tr0 w0 tr1 w1 m1 :
  exec (new_world cfg) tr0 w0 -> exec w0 tr1 w1 ->
  all_loads_failed (tr0 ++ tr1) ->
  ~ wake_enabled (mgr w0) (WakeReady m1) w1.
Proof.
  intros H0 H1 Hall [Hrecv _].
  assert (Hall0 : all_loads_failed tr0).
  { intros g Hin. apply (Hall g), in_app_iff. by left. }
  destruct (exec_not_ready_yet cfg tr0 w0 H0 Hall0)
    as (_ & _ & _ & _ & _ & Hodd & _).
  destruct (exec_not_ready_yet cfg _ w1 (exec_app _ _ _ _ _ H0 H1) Hall)
    as (_ & _ & _ & _ & _ & _ & Heven).
  unfold recv_ready in Hrecv.
  destruct (onReadyChange (mgr w0)) as [c|] eqn:Hc; [|done].
  apply bool_decide_eq_true in Hrecv.
  destruct (Hodd c eq_refl) as [a Ha], (Heven c Hrecv) as [b Hb]. lia.
Qed.

(** *** Stop *)

Lemma Stop_after_Stop w w' :
  Stop w = (w', None) -> snd (Stop w') = Some "close of closed channel".
Proof.
  unfold Stop, close. cbn.
  destruct (shutdown (mgr w)) as [c|] eqn:Hsd; [|done].
  destruct (decide (c ∈ closed w)); [done|].
  intros [= <-]. cbn. rewrite Hsd.
  rewrite decide_True by (apply elem_of_union_l, elem_of_singleton; done).
  done.
Qed.

(** C4 (the code on the failing input). On a started manager the first
    [Stop] returns and the second one panics in [close(m.shutdown)] with
    [close of closed channel]: [Stop] has no already-stopped check. The
    same holds after start-up has completed, and the two calls are steps
    of the lifecycle machine. *)
Theorem Stop_twice_panics (cfg : Config) (env : Env) :
  let w1 := fst (Start env (new_world cfg)) in
  let w2 := fst (Stop w1) in
  snd (Stop w1) = None /\
  snd (Stop w2) = Some "close of closed channel" /\
  snd (Stop (fst (Stop (started example_env example_config))))
  = Some "close of closed channel" /\
  exec (new_world cfg)
    [ L_Start_admitted; L_Start_spawn 0; L_Stop;
      L_Stop_panic "close of closed channel" ]
    (fst (Stop w2)).
Proof.
  intros w1 w2.
  assert (H1 : Stop w1 = (w2, None)) by reflexivity.
  pose proof (Stop_after_Stop _ _ H1) as H2.
  split; [done|]. split; [done|]. split; [by vm_compute|].
  apply (exec_app _ [L_Start_admitted; L_Start_spawn 0] w1
           [L_Stop; L_Stop_panic "close of closed channel"]).
  - apply (exec_app _ [L_Start_admitted] (with_starting 1 (new_world cfg))
             [L_Start_spawn 0] w1).
    + apply exec_one. by apply step_Start_admitted.
    + apply exec_one.
      by apply (step_Start_spawn (with_starting 1 (new_world cfg)) 0 env).
  - apply (exec_app _ [L_Stop] w2 [L_Stop_panic "close of closed channel"]).
    + apply exec_one. by apply (step_Stop w1 w2 None).
    + apply exec_one.
      apply (step_Stop w2 (fst (Stop w2)) (Some "close of closed channel"));
        [done|].
      rewrite <- H2. apply surjective_pairing.
Qed.

(* ===================================================================== *)
(** ** Properties of the handlers                                         *)
(* ===================================================================== *)

(** While the manager is not ready the playlist handler answers without
    reading the playlist: unless it is woken by the readiness event and
    finds [ready] set, its response does not depend on the state at the
    time of writing. *)
Lemma ServePlaylist_waits m0 wk m2 m2' :
  ready m0 = false ->
  (forall m1, wk = WakeReady m1 -> ready m1 = false) ->
  ServePlaylist m0 wk m2 = ServePlaylist m0 wk m2'.
Proof.
  intros H0 Hwk. unfold ServePlaylist. rewrite H0. cbn.
  destruct wk as [m1| |]; try done. by rewrite (Hwk m1 eq_refl).
Qed.

(** C5 (the code on the failing input). [ServeMedia] has no readiness
    gate: on a manager that was started and is not ready it answers at
    once from the availability table; its answer is the same whatever
    [ready] and the two channels are, and it is computed from the table
    (were index 0 in the table of a manager that is not ready, the file
    would be served). *)
Theorem ServeMedia_no_readiness_gate (cfg : Config) (env : Env) (fs : FS)
    (r : Request) :
  let w := fst (Start env (new_world cfg)) in
  ready (mgr w) = false /\
  ServeMedia fs (mgr w) r = index_not_found /\
  (forall m b c1 c2,
     ServeMedia fs (set_ready b (set_onReadyChange c1 (set_shutdown c2 m))) r
     = ServeMedia fs m r) /\
  (stat_IsNotExist fs
     (path_Join fs (TranscodeDir cfg) (getSegmentName (New cfg) 0)) = false ->
   exists m, ready m = false /\
     fst (ServeMedia fs m r) =
     ServedFile [("Content-Type", "application/vnd.apple.mpegurl");
                 ("Cache-Control", "no-cache")] r
       (path_Join fs (TranscodeDir cfg) (getSegmentName (New cfg) 0))).
Proof.
  intros w. split; [done|]. split; [done|]. split; [done|].
  intros Hfs. exists (set_segments (Some {[0 := true]}) (New cfg)).
  split; [done|].
  unfold ServeMedia, map_lookup. cbn.
  rewrite lookup_singleton_eq.
  change (getSegmentName (set_segments _ (New cfg)) 0)
    with (getSegmentName (New cfg) 0).
  by rewrite Hfs.
Qed.

(** C10 (the code on the failing input). [ServeMedia] never invokes the
    transcode executor, whatever the manager and the request; on the
    manager that has finished start-up with segments 1 to 3, any number
    of requests for segment 1 are each answered 404 [index not found]. *)
Theorem ServeMedia_never_transcodes (fs : FS) (m : ManagerCtx) (r : Request)
    (n : nat) :
  List.filter is_transcode (snd (ServeMedia fs m r)) = [] /\
  let m3 := mgr (started example_env example_config) in
  let req := {| url_path := "/seg-00001.ts" |} in
  ready m3 = true /\
  map_lookup (segments m3) 1 = Some false /\
  map (ServeMedia fs m3) (repeat req n) = repeat index_not_found n.
Proof.
  split.
  - unfold ServeMedia. destruct (map_lookup _ _) as [[|]|]; cbn;
      try done; by destruct (stat_IsNotExist _ _).
  - intros m3 req. split; [by vm_compute|]. split; [by vm_compute|].
    assert (H1 : ServeMedia fs m3 req = index_not_found).
    { apply (reachable_index_not_found example_config).
      apply reachable_started. }
    induction n as [|n IH]; [done|]. cbn [repeat map]. by rewrite H1, IH.
Qed.

(* ===================================================================== *)
(** ** The two models of initialization agree                             *)
(* ===================================================================== *)

(** Every reachable manager still has the configuration it was made
    with, the nominal duration and the suffix pattern of [New]: the
    hypotheses of the playlist theorems hold in every reachable state. *)
Lemma step_constants cfg w l w' :
  step w l w' -> constants_of cfg (mgr w) -> constants_of cfg (mgr w').
Proof.
  intros Hs Hc. step_cases Hs; try done.
  - destruct pc as [env| | | |i|].
    + destruct (init_step_load env w) as (r & m' & evs' & _ & Hm' & Hst).
      rewrite Hst in Hstep.
      destruct r; injection Hstep as <- <-; cbn; by rewrite Hm'.
    + cbn in Hstep. by destruct (metadata (mgr w) ≫= Video);
        injection Hstep as <- <-.
    + by injection Hstep as <- <-.
    + by injection Hstep as <- <-.
    + cbn in Hstep.
      destruct (i <? Z.of_nat (length (segmentsTimes (mgr w))));
        [destruct (segments (mgr w))|]; by injection Hstep as <- <-.
    + cbn in Hstep. destruct (onReadyChange (mgr w)) as [c|]; cbn in Hstep;
        [destruct (decide (c ∈ closed w))|]; by injection Hstep as <- <-.
  - destruct (Stop_cases _ _ _ Hstop)
      as (_ & _ & _ & _ & _ & _ & H1 & H2 & H3 & _).
    destruct Hc as (? & ? & ?). unfold constants_of. by rewrite H1, H2, H3.
Qed.

Lemma reachable_constants cfg w :
  reachable cfg w -> constants_of cfg (mgr w).
Proof.
  intros [tr Hexec].
  by apply (exec_invariant _ _ _ _ (step_constants cfg) Hexec).
Qed.

Lemma run_goroutine_add a b g w :
  run_goroutine (a + b) g w = run_goroutine b g (run_goroutine a g w).
Proof.
  revert w. induction a as [|a IH]; intros w; [done|].
  cbn [Nat.add run_goroutine].
  destruct (crashed w) eqn:Hc.
  - destruct b; [done|]. cbn [run_goroutine]. by rewrite Hc.
  - destruct (threads w !! g) as [pc|] eqn:Hg; [apply IH|].
    destruct b; [done|]. cbn [run_goroutine]. by rewrite Hc, Hg.
Qed.

Lemma segments_loop_length m1 m2 fuel i segs :
  length (segmentsTimes m1) = length (segmentsTimes m2) ->
  segments_loop m1 fuel i segs = segments_loop m2 fuel i segs.
Proof.
  intros Hlen. revert i segs.
  induction fuel as [|fuel IH]; intros i segs; [done|].
  cbn [segments_loop]. rewrite Hlen. by rewrite IH.
Qed.

Lemma at_pc_twice g pc1 pc2 m w :
  at_pc g pc2 (with_mgr m (at_pc g pc1 w)) = at_pc g pc2 (with_mgr m w).
Proof. unfold at_pc, with_mgr, with_threads. cbn. by rewrite insert_insert_eq. Qed.

Lemma segments_loop_fuel m fuel i segs :
  Z.of_nat (length (segmentsTimes m)) - i <= Z.of_nat fuel ->
  segments_loop m (S fuel) i segs = segments_loop m fuel i segs.
Proof.
  revert i segs. induction fuel as [|fuel IH]; intros i segs Hfuel.
  - cbn [segments_loop].
    by destruct (Z.ltb_spec i (Z.of_nat (length (segmentsTimes m)))); [lia|].
  - change (segments_loop m (S (S fuel)) i segs)
      with (if i <? Z.of_nat (length (segmentsTimes m))
            then segments_loop m (S fuel) (i + 1) (<[i := false]> segs)
            else segs).
    cbn [segments_loop].
    destruct (Z.ltb_spec i (Z.of_nat (length (segmentsTimes m)))); [|done].
    apply IH. lia.
Qed.

Lemma segments_loop_enough m fuel extra i segs :
  Z.of_nat (length (segmentsTimes m)) - i <= Z.of_nat fuel ->
  segments_loop m (extra + fuel) i segs = segments_loop m fuel i segs.
Proof.
  intros Hfuel. induction extra as [|extra IH]; [done|].
  cbn [Nat.add]. rewrite segments_loop_fuel by lia. done.
Qed.

Lemma set_segments_same m segs :
  segments m = Some segs -> set_segments (Some segs) m = m.
Proof. destruct m. cbn. by intros ->. Qed.

Lemma with_mgr_same w : with_mgr (mgr w) w = w.
Proof. by destruct w. Qed.

Lemma run_goroutine_step fuel g pc w :
  crashed w = false ->
  run_goroutine (S fuel) g (at_pc g pc w) =
  run_goroutine fuel g (init_commit g (fst (init_step pc (at_pc g pc w)))).
Proof.
  intros Hc. cbn [run_goroutine].
  change (crashed (at_pc g pc w)) with (crashed w). rewrite Hc.
  change (threads (at_pc g pc w)) with (<[g := pc]> (threads w)).
  by rewrite lookup_insert_eq.
Qed.

(** The loop of the goroutine, step by step, is [segments_loop]. *)
Lemma run_goroutine_loop k g w i segs :
  crashed w = false ->
  segments (mgr w) = Some segs ->
  k = Z.to_nat (Z.of_nat (length (segmentsTimes (mgr w))) - i) ->
  run_goroutine (S k) g (at_pc g (I_loop i) w) =
  at_pc g I_publish
    (with_mgr (set_segments (Some (segments_loop (mgr w) k i segs)) (mgr w)) w).
Proof.
  revert w i segs. induction k as [|k IH]; intros w i segs Hc Hsegs Hk.
  - rewrite run_goroutine_step by done. cbn [run_goroutine].
    unfold init_step.
    change (mgr (at_pc g (I_loop i) w)) with (mgr w).
    destruct (Z.ltb_spec i (Z.of_nat (length (segmentsTimes (mgr w)))));
      [lia|].
    cbn [fst init_commit segments_loop].
    rewrite set_segments_same, with_mgr_same by done.
    unfold at_pc, with_threads. cbn. by rewrite insert_insert_eq.
  - rewrite run_goroutine_step by done.
    unfold init_step.
    change (mgr (at_pc g (I_loop i) w)) with (mgr w).
    destruct (Z.ltb_spec i (Z.of_nat (length (segmentsTimes (mgr w)))));
      [|lia].
    rewrite Hsegs. cbn [fst init_commit].
    set (m1 := set_segments (Some (<[i := false]> segs)) (mgr w)).
    replace (with_threads _ _) with (at_pc g (I_loop (i + 1)) (with_mgr m1 w)).
    2:{ unfold at_pc, with_threads, with_mgr. cbn. by rewrite insert_insert_eq. }
    rewrite (IH (with_mgr m1 w) (i + 1) (<[i := false]> segs)); try done.
    2:{ cbn. lia. }
    change (mgr (with_mgr m1 w)) with m1.
    cbn [segments_loop].
    destruct (Z.ltb_spec i (Z.of_nat (length (segmentsTimes (mgr w)))));
      [|lia].
    by rewrite (segments_loop_length m1 (mgr w)).
Qed.

(** The goroutine after [loadMetadata], running alone, reaches its locked
    section with exactly the manager that [initialize] computes; and it
    brings the process down exactly when [initialize] panics. *)
Lemma run_goroutine_initialize g w :
  crashed w = false ->
  match initialize (mgr w) with
  | Some m' =>
      exists n, run_goroutine n g (at_pc g I_times w)
                = at_pc g I_publish (with_mgr m' w)
  | None => crashed (run_goroutine 1 g (at_pc g I_times w)) = true
  end.
Proof.
  intros Hc. unfold initialize.
  destruct (metadata (mgr w)) as [md|] eqn:Hmd; cbn [mbind option_bind].
  2:{ rewrite run_goroutine_step by done. cbn [run_goroutine].
      unfold init_step. change (mgr (at_pc g I_times w)) with (mgr w).
      by rewrite Hmd. }
  destruct (Video md) as [v|] eqn:Hv; cbn [mbind option_bind].
  2:{ rewrite run_goroutine_step by done. cbn [run_goroutine].
      unfold init_step. change (mgr (at_pc g I_times w)) with (mgr w).
      rewrite Hmd. cbn. by rewrite Hv. }
  set (ts := elems (PktPtsTime v)).
  set (m1 := set_segmentsTimes ts (mgr w)).
  set (m2 := set_playlist (getPlaylist m1) m1).
  set (m3 := set_segments (Some ∅) m2).
  set (k := Z.to_nat (Z.of_nat (length ts) - 1)).
  exists (3 + S k)%nat.
  rewrite run_goroutine_add.
  assert (H3 : run_goroutine 3 g (at_pc g I_times w)
               = at_pc g (I_loop 1) (with_mgr m3 w)).
  { rewrite run_goroutine_step by done.
    unfold init_step at 1. change (mgr (at_pc g I_times w)) with (mgr w).
    rewrite Hmd. cbn [mbind option_bind]. rewrite Hv. cbn [fst init_commit].
    fold ts. fold m1.
    replace (with_threads _ _) with (at_pc g I_playlist (with_mgr m1 w)).
    2:{ unfold at_pc, with_threads, with_mgr. cbn. by rewrite insert_insert_eq. }
    rewrite run_goroutine_step by done.
    unfold init_step at 1. cbn [fst init_commit].
    change (mgr (at_pc g I_playlist (with_mgr m1 w))) with m1. fold m2.
    replace (with_threads _ _) with (at_pc g I_segments (with_mgr m2 w)).
    2:{ unfold at_pc, with_threads, with_mgr. cbn. by rewrite insert_insert_eq. }
    rewrite run_goroutine_step by done.
    unfold init_step at 1. cbn [fst init_commit run_goroutine].
    change (mgr (at_pc g I_segments (with_mgr m2 w))) with m2. fold m3.
    unfold at_pc, with_threads, with_mgr. cbn. by rewrite insert_insert_eq. }
  rewrite H3.
  rewrite (run_goroutine_loop k g (with_mgr m3 w) 1 ∅); try done.
  change (mgr (with_mgr m3 w)) with m3.
  f_equal. unfold with_mgr. cbn. f_equal.
  change (set_segments ?x m3) with (set_segments x m2). f_equal. f_equal.
  rewrite <- (segments_loop_enough m3 k (length ts - k)) by (cbn; lia).
  f_equal. subst k. lia.
Qed.

(* ===================================================================== *)
(** ** The metadata loader, path by path                                  *)
(* ===================================================================== *)

(** [fetchMetadata] unfolded into its four runs. *)
Lemma fetchMetadata_run env m :
  let b := FFprobeBinary (config m) in
  let p := MediaPath (config m) in
  fetchMetadata env m =
  match ProbeMedia env b p with
  | inr err =>
      (Some (Errorf "unable probe media for metadata: " err), m,
       [LogInfo "fetching metadata"; CallProbeMedia b p])
  | inl md =>
      if needs_full_scan md then
        match ProbeVideo env b p with
        | inr err =>
            (Some (Errorf "unable probe video for keyframes: " err), m,
             [LogInfo "fetching metadata"; CallProbeMedia b p;
              CallProbeVideo b p])
        | inl vd =>
            (None, set_metadata (Some (with_PktPtsTime md (PktPtsTime vd))) m,
             [LogInfo "fetching metadata"; CallProbeMedia b p;
              CallProbeVideo b p; LogInfo "fetched metadata"])
        end
      else
        (None, set_metadata (Some md) m,
         [LogInfo "fetching metadata"; CallProbeMedia b p;
          LogInfo "fetched metadata"])
  end.
Proof.
  unfold fetchMetadata, act_bind, emit, get, modify, act_ret, needs_full_scan.
  cbn. destruct (ProbeMedia env _ _) as [md|err]; [|done].
  destruct (Video md) as [[[ts|]]|]; try done.
  by destruct (ProbeVideo env _ _).
Qed.

(** [loadMetadata] once the cache has not given a usable entry. *)
Lemma loadMetadata_refetch env m :
  Cache (config m) = true ->
  cache_entry_usable env m = false ->
  let fresh := fetchMetadata env (after_cache_attempt env m) in
  loadMetadata env m =
  match result_of fresh with
  | Some err =>
      (Some err, state_of fresh, cache_attempt_events env m ++ events_of fresh)
  | None =>
      match json_Marshal env (metadata (state_of fresh)) with
      | inr err =>
          (Some err, state_of fresh,
           cache_attempt_events env m ++ events_of fresh)
      | inl data =>
          (cache_write_result env (config m) data, state_of fresh,
           cache_attempt_events env m ++ events_of fresh
           ++ [cache_write_event (config m) data])
      end
  end.
Proof.
  intros Hcache Hbad fresh.
  pose proof (fetchMetadata_config env (after_cache_attempt env m)) as Hcfg.
  assert (Hcfg0 : config (after_cache_attempt env m) = config m).
  { unfold after_cache_attempt. by destruct (getCacheData env). }
  subst fresh. revert Hbad Hcfg Hcfg0.
  unfold loadMetadata, act_bind, emit, get, modify, act_ret,
    cache_entry_usable, cache_attempt_events, after_cache_attempt,
    cache_write_event, cache_write_result, result_of, state_of, events_of.
  rewrite Hcache. cbn [negb].
  destruct (getCacheData env) as [data|rerr].
  - destruct (json_Unmarshal env data (metadata m)) as [md' [ue|]];
      cbn [fst snd]; [|done].
    intros _ Hcfg Hcfg0.
    destruct (fetchMetadata env (set_metadata md' m)) as [[[e|] m1] evs];
      cbn [fst snd] in *.
    + by rewrite app_nil_r.
    + destruct (json_Marshal env (metadata m1)) as [out|e].
      * destruct (String.eqb (CacheDir (config m)) EmptyString); cbn [negb];
          cbn [app]; rewrite ?app_nil_r; reflexivity.
      * by rewrite !app_nil_r.
  - intros _ Hcfg Hcfg0.
    destruct (err_not_exist rerr); cbn [negb app];
      (destruct (fetchMetadata env m) as [[[e|] m1] evs]; cbn [fst snd] in *;
       [ by rewrite ?app_nil_r
       | destruct (json_Marshal env (metadata m1)) as [out|e];
         [ destruct (String.eqb (CacheDir (config m)) EmptyString);
           cbn [negb app]; rewrite ?app_nil_r; reflexivity
         | by rewrite ?app_nil_r ] ]).
Qed.

Lemma cache_attempt_events_no_probe env m :
  List.filter is_probe (cache_attempt_events env m) = [] /\
  List.filter is_cache_write (cache_attempt_events env m) = [] /\
  List.filter is_cache_read (cache_attempt_events env m) = [CallGetCacheData].
Proof.
  unfold cache_attempt_events.
  destruct (getCacheData env) as [data|rerr].
  - by destruct (snd (json_Unmarshal env data (metadata m))).
  - by destruct (err_not_exist rerr).
Qed.

Lemma fetchMetadata_no_cache_read env m :
  List.filter is_cache_read (events_of (fetchMetadata env m)) = [].
Proof.
  rewrite fetchMetadata_run. cbv zeta.
  destruct (ProbeMedia env _ _) as [md|err]; [|done].
  destruct (needs_full_scan md); [|done].
  by destruct (ProbeVideo env _ _).
Qed.

(** X1. When [fetchMetadata] returns an error, the manager is exactly as
    it was before the call; the error is a fresh one that is not a
    not-exist error, and it is either the failure of the fast probe under
    the text "unable probe media for metadata: ", or, after a fast probe
    that found video without keyframe times, the failure of the full scan
    under "unable probe video for keyframes: ". *)
Theorem fetchMetadata_failure_changes_nothing (env : Env) (m : ManagerCtx)
    (err : error) :
  result_of (fetchMetadata env m) = Some err ->
  let b := FFprobeBinary (config m) in
  let p := MediaPath (config m) in
  state_of (fetchMetadata env m) = m /\
  err_not_exist err = false /\
  ((exists cause,
      ProbeMedia env b p = inr cause /\
      err = Errorf "unable probe media for metadata: " cause /\
      List.filter is_probe (events_of (fetchMetadata env m))
      = [CallProbeMedia b p]) \/
   (exists md cause,
      ProbeMedia env b p = inl md /\ needs_full_scan md = true /\
      ProbeVideo env b p = inr cause /\
      err = Errorf "unable probe video for keyframes: " cause /\
      List.filter is_probe (events_of (fetchMetadata env m))
      = [CallProbeMedia b p; CallProbeVideo b p])).
Proof.
  intros Hres b p. revert Hres. rewrite fetchMetadata_run. cbv zeta.
  fold b p. unfold result_of, state_of, events_of.
  destruct (ProbeMedia env b p) as [md|cause] eqn:Hpm; cbn [fst snd].
  - destruct (needs_full_scan md) eqn:Hscan; [|done].
    destruct (ProbeVideo env b p) as [vd|cause] eqn:Hpv; cbn [fst snd];
      [done|].
    intros [= <-]. repeat split; [].
    right. by exists md, cause.
  - intros [= <-]. repeat split; [].
    left. by exists cause.
Qed.

Lemma fetchMetadata_failure_changes_nothing_witness :
  state_of (fetchMetadata failing_env (New example_config))
  = New example_config.
Proof.
  exact (proj1 (fetchMetadata_failure_changes_nothing failing_env
                  (New example_config)
                  (Errorf "unable probe media for metadata: "
                     {| err_text := "exit status 1";
                        err_not_exist := false |})
                  eq_refl)).
Defined.

(** X2. When [fetchMetadata] returns nil, the fast probe succeeded and
    the manager differs from before only in [metadata], which is now
    non-nil. If the fast probe found no video stream, or found one with
    keyframe times, the stored metadata is the fast probe's result and
    the full scan is not run; otherwise the full scan ran exactly once,
    succeeded, and the stored metadata carries its keyframe times. *)
Theorem fetchMetadata_success (env : Env) (m : ManagerCtx) :
  result_of (fetchMetadata env m) = None ->
  let b := FFprobeBinary (config m) in
  let p := MediaPath (config m) in
  let r := fetchMetadata env m in
  exists md stored,
    ProbeMedia env b p = inl md /\
    state_of r = set_metadata (Some stored) m /\
    (needs_full_scan md = false ->
     stored = md /\
     List.filter is_probe (events_of r) = [CallProbeMedia b p]) /\
    (needs_full_scan md = true ->
     exists vd,
       ProbeVideo env b p = inl vd /\
       stored = with_PktPtsTime md (PktPtsTime vd) /\
       List.filter is_probe (events_of r)
       = [CallProbeMedia b p; CallProbeVideo b p]).
Proof.
  intros Hres b p r. subst r. revert Hres. rewrite fetchMetadata_run.
  cbv zeta. fold b p. unfold result_of, state_of, events_of.
  destruct (ProbeMedia env b p) as [md|cause] eqn:Hpm; cbn [fst snd];
    [|done].
  destruct (needs_full_scan md) eqn:Hscan.
  - destruct (ProbeVideo env b p) as [vd|cause] eqn:Hpv; cbn [fst snd];
      [|done].
    intros _. exists md, (with_PktPtsTime md (PktPtsTime vd)).
    split; [done|]. split; [done|]. split; [congruence|].
    intros _. by exists vd.
  - intros _. exists md, md.
    split; [done|]. split; [done|]. split; [done|congruence].
Qed.

Lemma fetchMetadata_success_witness :
  exists md stored,
    ProbeMedia example_env "ffprobe" "/media/a.mp4" = inl md /\
    state_of (fetchMetadata example_env (New example_config))
    = set_metadata (Some stored) (New example_config) /\
    needs_full_scan md = true /\
    stored = metadata_of example_times.
Proof.
  destruct (fetchMetadata_success example_env (New example_config) eq_refl)
    as (md & stored & Hpm & Hst & _ & Hfull).
  exists md, stored. split; [exact Hpm|]. split; [exact Hst|].
  injection Hpm as <-. split; [reflexivity|].
  destruct (Hfull eq_refl) as (vd & Hpv & -> & _).
  injection Hpv as <-. reflexivity.
Defined.

(** X3. With caching disabled, [loadMetadata] is [fetchMetadata] behind
    one log line: same result, same manager, and the cache is neither
    read nor written. *)
Theorem loadMetadata_cache_bypass (env : Env) (m : ManagerCtx) :
  Cache (config m) = false ->
  let f := fetchMetadata env m in
  loadMetadata env m
  = (result_of f, state_of f, LogInfo "loading metadata" :: events_of f) /\
  List.filter is_cache_access (events_of (loadMetadata env m)) = [].
Proof.
  intros Hcache f.
  assert (Hrun : loadMetadata env m
                 = (result_of f, state_of f,
                    LogInfo "loading metadata" :: events_of f)).
  { subst f. unfold loadMetadata, act_bind, emit, get, modify, act_ret.
    rewrite Hcache. cbn [negb].
    by destruct (fetchMetadata env m) as [[res m1] evs]. }
  split; [exact Hrun|]. rewrite Hrun.
  change (events_of (?a, ?b, ?c)) with c. cbn [List.filter is_cache_access
    is_cache_read is_cache_write orb].
  subst f. rewrite fetchMetadata_run. cbv zeta.
  destruct (ProbeMedia env _ _) as [md|err]; [|done].
  destruct (needs_full_scan md); [|done].
  by destruct (ProbeVideo env _ _).
Qed.

Lemma loadMetadata_cache_bypass_witness :
  result_of (loadMetadata example_env (New uncached_config)) = None /\
  List.filter is_cache_access
    (events_of (loadMetadata example_env (New uncached_config))) = [].
Proof.
  destruct (loadMetadata_cache_bypass example_env (New uncached_config)
              eq_refl) as [Hrun Hno].
  split; [rewrite Hrun; reflexivity|exact Hno].
Defined.

(** X4. With caching enabled and a cache entry that decodes,
    [loadMetadata] returns nil with the decoded value as the manager's
    metadata, whatever that value is; it runs no probe, writes nothing to
    the cache and logs no error. *)
Theorem loadMetadata_cache_hit (env : Env) (m : ManagerCtx) :
  Cache (config m) = true ->
  cache_entry_usable env m = true ->
  loadMetadata env m
  = (None, after_cache_attempt env m,
     [LogInfo "loading metadata"; CallGetCacheData]).
Proof.
  intros Hcache. unfold cache_entry_usable, after_cache_attempt,
    loadMetadata, act_bind, emit, get, modify, act_ret.
  rewrite Hcache. cbn [negb].
  destruct (getCacheData env) as [data|rerr]; [|done].
  by destruct (json_Unmarshal env data (metadata m)) as [md' [ue|]].
Qed.

Lemma loadMetadata_cache_hit_witness :
  loadMetadata audio_cache_env (New example_config)
  = (None, set_metadata (Some {| Video := None |}) (New example_config),
     [LogInfo "loading metadata"; CallGetCacheData]).
Proof.
  exact (loadMetadata_cache_hit audio_cache_env (New example_config)
           eq_refl eq_refl).
Defined.

Lemma fetchMetadata_no_error_log env m :
  List.filter is_error_log (events_of (fetchMetadata env m)) = [].
Proof.
  rewrite fetchMetadata_run. cbv zeta.
  destruct (ProbeMedia env _ _) as [md|err]; [|done].
  destruct (needs_full_scan md); [|done].
  by destruct (ProbeVideo env _ _).
Qed.

Lemma cache_write_event_kind cfg data :
  is_cache_write (cache_write_event cfg data) = true /\
  is_probe (cache_write_event cfg data) = false /\
  is_error_log (cache_write_event cfg data) = false /\
  is_cache_read (cache_write_event cfg data) = false.
Proof. unfold cache_write_event. by destruct (String.eqb _ _). Qed.

(** The cache writes of any run of [loadMetadata]. *)
Lemma loadMetadata_cache_writes env m :
  let fresh := fetchMetadata env (after_cache_attempt env m) in
  List.filter is_cache_write (events_of (loadMetadata env m)) =
  if Cache (config m) && negb (cache_entry_usable env m) then
    match result_of fresh with
    | Some _ => []
    | None =>
        match json_Marshal env (metadata (state_of fresh)) with
        | inl data => [cache_write_event (config m) data]
        | inr _ => []
        end
    end
  else [].
Proof.
  intros fresh.
  destruct (Cache (config m)) eqn:Hcache; cbn [andb].
  - destruct (cache_entry_usable env m) eqn:Huse; cbn [negb].
    + revert Huse. unfold cache_entry_usable, loadMetadata, act_bind, emit,
        get, modify, act_ret.
      rewrite Hcache. cbn [negb].
      destruct (getCacheData env) as [data|rerr]; [|done].
      by destruct (json_Unmarshal env data (metadata m)) as [md' [ue|]].
    + rewrite (loadMetadata_refetch env m Hcache Huse). fold fresh.
      destruct (cache_attempt_events_no_probe env m) as (_ & Hpre & _).
      pose proof (fetchMetadata_no_cache_write env (after_cache_attempt env m))
        as Hnw. fold fresh in Hnw.
      destruct (result_of fresh) as [e|].
      * change (events_of (?a, ?b, ?c)) with c.
        by rewrite List.filter_app, Hpre, Hnw.
      * destruct (json_Marshal env (metadata (state_of fresh))) as [data|e];
          change (events_of (?a, ?b, ?c)) with c;
          rewrite !List.filter_app, Hpre, Hnw; [|done].
        cbn [List.filter app].
        by rewrite (proj1 (cache_write_event_kind (config m) data)).
  - unfold loadMetadata, act_bind, emit, get, modify, act_ret.
    rewrite Hcache. cbn [negb].
    pose proof (fetchMetadata_no_cache_write env m) as Hnw.
    destruct (fetchMetadata env m) as [[res m1] evs]. exact Hnw.
Qed.

(** X5. With caching enabled, a cache read that fails with an error
    other than not-exist is logged once, as "cache hit returned error,
    replacing", and then treated like a missing entry: after a successful
    probe whose result serializes to [data], the manager is as the probe
    left it, one cache write is made, with [data], and [loadMetadata]
    returns what that write returns. *)
Theorem loadMetadata_read_error_replaced (env : Env) (m : ManagerCtx)
    (rerr : error) (data : bytes) :
  Cache (config m) = true ->
  getCacheData env = inr rerr ->
  err_not_exist rerr = false ->
  let fresh := fetchMetadata env m in
  result_of fresh = None ->
  json_Marshal env (metadata (state_of fresh)) = inl data ->
  let r := loadMetadata env m in
  state_of r = state_of fresh /\
  result_of r = cache_write_result env (config m) data /\
  List.filter is_error_log (events_of r)
  = [LogErr rerr "cache hit returned error, replacing"] /\
  List.filter is_cache_write (events_of r)
  = [cache_write_event (config m) data] /\
  List.filter is_probe (events_of r) = List.filter is_probe (events_of fresh).
Proof.
  intros Hcache Hread Hkind fresh Hok Hdata r.
  assert (Huse : cache_entry_usable env m = false).
  { unfold cache_entry_usable. by rewrite Hread. }
  assert (Hm : after_cache_attempt env m = m).
  { unfold after_cache_attempt. by rewrite Hread. }
  pose proof (loadMetadata_refetch env m Hcache Huse) as Hrun.
  cbv zeta in Hrun. rewrite Hm in Hrun. fold fresh in Hrun.
  rewrite Hok, Hdata in Hrun. subst r. rewrite Hrun.
  change (result_of (?a, ?b, ?c)) with a.
  change (state_of (?a, ?b, ?c)) with b.
  change (events_of (?a, ?b, ?c)) with c.
  destruct (cache_attempt_events_no_probe env m) as (Hp1 & Hp2 & _).
  destruct (cache_write_event_kind (config m) data) as (Hw1 & Hw2 & Hw3 & _).
  pose proof (fetchMetadata_no_cache_write env m) as Hnw.
  pose proof (fetchMetadata_no_error_log env m) as Hne.
  fold fresh in Hnw, Hne.
  rewrite !List.filter_app, Hp1, Hp2, Hnw, Hne.
  cbn [List.filter app]. rewrite Hw1, Hw2, Hw3, !app_nil_r.
  repeat split; [].
  unfold cache_attempt_events. by rewrite Hread, Hkind.
Qed.

Lemma loadMetadata_read_error_replaced_witness :
  result_of (loadMetadata readonly_cache_env (New example_config))
  = Some {| err_text := "read-only file system"; err_not_exist := false |} /\
  List.filter is_error_log
    (events_of (loadMetadata readonly_cache_env (New example_config)))
  = [LogErr {| err_text := "permission denied"; err_not_exist := false |}
       "cache hit returned error, replacing"].
Proof.
  destruct (loadMetadata_read_error_replaced readonly_cache_env
              (New example_config)
              {| err_text := "permission denied"; err_not_exist := false |}
              [Byte.x7b; Byte.x7d] eq_refl eq_refl eq_refl eq_refl eq_refl)
    as (_ & Hres & Hlog & _).
  split; [rewrite Hres; reflexivity|exact Hlog].
Defined.

(** X6. With caching enabled and no usable cache entry, a failing probe
    makes [loadMetadata] return the probe's error as it is; nothing is
    written to the cache, and the manager is left as the cache attempt
    left it, that is, with whatever the failed decoding stored in
    [metadata]. *)
Theorem loadMetadata_probe_failure (env : Env) (m : ManagerCtx) (err : error) :
  Cache (config m) = true ->
  cache_entry_usable env m = false ->
  result_of (fetchMetadata env (after_cache_attempt env m)) = Some err ->
  let r := loadMetadata env m in
  result_of r = Some err /\
  state_of r = after_cache_attempt env m /\
  List.filter is_cache_write (events_of r) = [] /\
  err_not_exist err = false.
Proof.
  intros Hcache Huse Hfail r.
  pose proof (loadMetadata_cache_writes env m) as Hw. cbv zeta in Hw.
  rewrite Hcache, Huse, Hfail in Hw. cbn [andb negb] in Hw.
  pose proof (loadMetadata_refetch env m Hcache Huse) as Hrun.
  cbv zeta in Hrun. rewrite Hfail in Hrun.
  split; [subst r; by rewrite Hrun|].
  split; [|split; [exact Hw|]].
  - subst r. rewrite Hrun. change (state_of (?a, ?b, ?c)) with b.
    revert Hfail. rewrite fetchMetadata_run. cbv zeta.
    destruct (ProbeMedia env _ _) as [md|cause]; [|done].
    destruct (needs_full_scan md); [|done].
    by destruct (ProbeVideo env _ _).
  - revert Hfail. rewrite fetchMetadata_run. cbv zeta.
    unfold result_of.
    destruct (ProbeMedia env _ _) as [md|cause]; cbn [fst];
      [|by intros [= <-]].
    destruct (needs_full_scan md); [|done].
    destruct (ProbeVideo env _ _); cbn [fst]; [done|by intros [= <-]].
Qed.

Lemma loadMetadata_probe_failure_witness :
  state_of (loadMetadata failing_env (New example_config))
  = New example_config /\
  List.filter is_cache_write
    (events_of (loadMetadata failing_env (New example_config))) = [].
Proof.
  destruct (loadMetadata_probe_failure failing_env (New example_config)
              (Errorf "unable probe media for metadata: "
                 {| err_text := "exit status 1"; err_not_exist := false |})
              eq_refl eq_refl eq_refl) as (_ & Hst & Hw & _).
  split; [exact Hst|exact Hw].
Defined.

(** X7. With caching enabled and no usable cache entry, a successful
    probe followed by a failure to serialize the metadata or to write the
    cache makes [loadMetadata] return that failure, although the manager
    already holds the freshly probed, non-nil metadata; the goroutine of
    [Start] then returns at once, without initializing and without
    setting [ready]. *)
Theorem loadMetadata_cache_write_failure (env : Env) (m : ManagerCtx)
    (e : error) :
  Cache (config m) = true ->
  cache_entry_usable env m = false ->
  let fresh := fetchMetadata env (after_cache_attempt env m) in
  result_of fresh = None ->
  (json_Marshal env (metadata (state_of fresh)) = inr e \/
   exists data,
     json_Marshal env (metadata (state_of fresh)) = inl data /\
     cache_write_result env (config m) data = Some e) ->
  let r := loadMetadata env m in
  result_of r = Some e /\
  state_of r = state_of fresh /\
  metadata (state_of r) <> None /\
  forall w, mgr w = m ->
    fst (init_step (I_load env) w) = Returns e (with_mgr (state_of fresh) w) /\
    ready (mgr (init_commit 0 (fst (init_step (I_load env) w)))) = ready m.
Proof.
  intros Hcache Huse fresh Hok Hlate r.
  pose proof (loadMetadata_refetch env m Hcache Huse) as Hrun.
  cbv zeta in Hrun. fold fresh in Hrun. rewrite Hok in Hrun.
  assert (Hr : exists evs, r = (Some e, state_of fresh, evs)).
  { subst r. rewrite Hrun.
    destruct Hlate as [Hm|(data & Hm & Hw)]; rewrite Hm.
    - by eexists.
    - rewrite Hw. by eexists. }
  destruct Hr as (evs & Hr).
  assert (Hmd : metadata (state_of fresh) <> None).
  { revert Hok. subst fresh. rewrite fetchMetadata_run. cbv zeta.
    unfold result_of, state_of.
    destruct (ProbeMedia env _ _) as [md|cause]; [|done].
    destruct (needs_full_scan md); [|done].
    by destruct (ProbeVideo env _ _). }
  rewrite Hr. split; [done|]. split; [done|]. split; [done|].
  intros w Hw.
  assert (Hstep : fst (init_step (I_load env) w)
                  = Returns e (with_mgr (state_of fresh) w)).
  { unfold init_step. rewrite Hw. fold r. by rewrite Hr. }
  split; [exact Hstep|]. rewrite Hstep.
  change (ready (state_of fresh) = ready m).
  pose proof (fetchMetadata_frame env (after_cache_attempt env m)) as Hf.
  fold fresh in Hf. rewrite Hf.
  unfold after_cache_attempt. by destruct (getCacheData env).
Qed.

Lemma loadMetadata_cache_write_failure_witness :
  result_of (loadMetadata readonly_cache_env (New example_config))
  = Some {| err_text := "read-only file system"; err_not_exist := false |} /\
  metadata (state_of (loadMetadata readonly_cache_env (New example_config)))
  <> None.
Proof.
  destruct (loadMetadata_cache_write_failure readonly_cache_env
              (New example_config)
              {| err_text := "read-only file system"; err_not_exist := false |}
              eq_refl eq_refl eq_refl
              (or_intror
                 (ex_intro _ [Byte.x7b; Byte.x7d] (conj eq_refl eq_refl))))
    as (Hres & _ & Hmd & _).
  split; [exact Hres|exact Hmd].
Defined.

(** X8. [loadMetadata] writes no field of the manager but [metadata]:
    whatever the probes, the codec and the cache do, the configuration,
    the readiness flag, both channels, the playlist, the availability
    table and the segment times are after the call what they were
    before. *)
Theorem loadMetadata_touches_only_metadata (env : Env) (m : ManagerCtx) :
  let m' := state_of (loadMetadata env m) in
  config m' = config m /\
  segmentDuration m' = segmentDuration m /\
  segmentSuffix m' = segmentSuffix m /\
  ready m' = ready m /\
  onReadyChange m' = onReadyChange m /\
  shutdown m' = shutdown m /\
  cancelled m' = cancelled m /\
  playlist m' = playlist m /\
  segments m' = segments m /\
  segmentsTimes m' = segmentsTimes m.
Proof.
  intros m'. subst m'. rewrite loadMetadata_frame.
  repeat split; reflexivity.
Qed.

(** X9. Whatever [loadMetadata] writes to the cache is the serialized
    form of the metadata the manager holds when it returns: a cache
    write happens only with caching enabled, after the cache gave no
    usable entry and the probe succeeded; it is the only write of the
    call, and it goes to the global backend exactly when a cache
    directory is configured. *)
Theorem loadMetadata_writes_what_it_holds (env : Env) (m : ManagerCtx)
    (e : Event) :
  In e (events_of (loadMetadata env m)) ->
  is_cache_write e = true ->
  let r := loadMetadata env m in
  Cache (config m) = true /\
  cache_entry_usable env m = false /\
  result_of (fetchMetadata env (after_cache_attempt env m)) = None /\
  List.filter is_cache_write (events_of r) = [e] /\
  exists data,
    json_Marshal env (metadata (state_of r)) = inl data /\
    e = (if String.eqb (CacheDir (config m)) EmptyString
         then CallSaveLocalCacheData data
         else CallSaveGlobalCacheData data).
Proof.
  intros Hin He r.
  assert (Hf : In e (List.filter is_cache_write (events_of r))).
  { apply List.filter_In. by split. }
  pose proof (loadMetadata_cache_writes env m) as Hw. cbv zeta in Hw.
  fold r in Hw. rewrite Hw in Hf.
  destruct (Cache (config m)) eqn:Hcache; cbn [andb] in *; [|done].
  destruct (cache_entry_usable env m) eqn:Huse; cbn [negb] in *; [done|].
  pose proof (loadMetadata_refetch env m Hcache Huse) as Hrun.
  cbv zeta in Hrun. fold r in Hrun.
  destruct (result_of (fetchMetadata env (after_cache_attempt env m)))
    as [err|] eqn:Hres; [done|].
  destruct (json_Marshal env
              (metadata (state_of (fetchMetadata env
                                     (after_cache_attempt env m)))))
    as [data|err] eqn:Hdata; [|done].
  destruct Hf as [<-|[]].
  repeat split; try done.
  exists data. split; [|done].
  rewrite Hrun. exact Hdata.
Qed.

Lemma loadMetadata_writes_what_it_holds_witness :
  json_Marshal example_env
    (metadata (state_of (loadMetadata example_env (New example_config))))
  = inl [Byte.x7b; Byte.x7d].
Proof.
  destruct (loadMetadata_writes_what_it_holds example_env
              (New example_config)
              (CallSaveLocalCacheData [Byte.x7b; Byte.x7d]))
    as (_ & _ & _ & _ & data & Hdata & Hev).
  - vm_compute. do 7 right. left. reflexivity.
  - reflexivity.
  - injection Hev as <-. exact Hdata.
Defined.

(* ===================================================================== *)
(** ** The result of [initialize]                                         *)
(* ===================================================================== *)

Lemma getPlaylist_ext a b :
  segmentsTimes a = segmentsTimes b ->
  segmentDuration a = segmentDuration b ->
  segmentSuffix a = segmentSuffix b ->
  SegmentPrefix (config a) = SegmentPrefix (config b) ->
  getPlaylist a = getPlaylist b.
Proof.
  intros Hts Hdur Hsuf Hpre. unfold getPlaylist.
  rewrite !getPlaylist_lines_entries, Hdur, Hts.
  f_equal. f_equal. f_equal.
  apply flat_map_ext_elem. intros i _.
  unfold segment_entry, getSegmentName. by rewrite Hts, Hsuf, Hpre.
Qed.

Lemma segments_loop_ext a b fuel i segs :
  segmentsTimes a = segmentsTimes b ->
  segments_loop a fuel i segs = segments_loop b fuel i segs.
Proof.
  intros Hts. revert i segs.
  induction fuel as [|fuel IH]; intros i segs; cbn [segments_loop]; [done|].
  rewrite Hts. destruct (i <? _); [apply IH|done].
Qed.

Lemma segments_loop_values m fuel i segs k :
  0 <= i ->
  Z.of_nat (length (segmentsTimes m)) - i <= Z.of_nat fuel ->
  segments_loop m fuel i segs !! k =
  if bool_decide (i <= k < Z.of_nat (length (segmentsTimes m)))
  then Some false else segs !! k.
Proof.
  revert i segs. induction fuel as [|fuel IH]; intros i segs Hi Hfuel;
    cbn [segments_loop].
  - rewrite bool_decide_eq_false_2; [done|lia].
  - destruct (Z.ltb_spec i (Z.of_nat (length (segmentsTimes m)))) as [Hlt|Hge].
    + rewrite IH by lia. destruct (decide (k = i)) as [->|Hne].
      * rewrite bool_decide_eq_false_2 by lia.
        rewrite bool_decide_eq_true_2 by lia. by rewrite lookup_insert_eq.
      * rewrite lookup_insert_ne by done.
        destruct (decide (i + 1 <= k < Z.of_nat (length (segmentsTimes m)))).
        -- rewrite !bool_decide_eq_true_2 by lia. done.
        -- rewrite !bool_decide_eq_false_2 by lia. done.
    + rewrite bool_decide_eq_false_2; [done|lia].
Qed.

Lemma ManagerCtx_eq (a b : ManagerCtx) :
  config a = config b -> segmentDuration a = segmentDuration b ->
  segmentSuffix a = segmentSuffix b -> ready a = ready b ->
  onReadyChange a = onReadyChange b -> metadata a = metadata b ->
  playlist a = playlist b -> segments a = segments b ->
  segmentsTimes a = segmentsTimes b -> shutdown a = shutdown b ->
  cancelled a = cancelled b -> a = b.
Proof. destruct a, b. cbn. intros. congruence. Qed.

(** [initialize] in terms of the video descriptor it reads. *)
Lemma initialize_unfold m m' :
  initialize m = Some m' ->
  exists md v,
    metadata m = Some md /\ Video md = Some v /\
    let m1 := set_segmentsTimes (elems (PktPtsTime v)) m in
    let m2 := set_segments (Some ∅) (set_playlist (getPlaylist m1) m1) in
    m' = set_segments
           (Some (segments_loop m2 (length (segmentsTimes m2)) 1 ∅)) m2.
Proof.
  unfold initialize.
  destruct (metadata m) as [md|] eqn:Hmd; [|done]. cbn [mbind option_bind].
  destruct (Video md) as [v|] eqn:Hv; [|done]. cbn [mbind option_bind].
  intros [= <-]. by exists md, v.
Qed.

(** X10. What [initialize] leaves behind is consistent and stable: the
    stored playlist is the one [getPlaylist] generates from the manager
    as it now is, the segment times are the keyframe times of the
    metadata, the availability table has exactly the indexes from 1 to
    one less than the number of segment times, each marked as not
    transcoded, nothing else of the manager has changed, and running
    [initialize] again changes nothing at all. *)
Theorem initialize_result (m m' : ManagerCtx) :
  initialize m = Some m' ->
  initialize m' = Some m' /\
  playlist m' = getPlaylist m' /\
  (exists v, metadata m ≫= Video = Some v /\
             segmentsTimes m' = elems (PktPtsTime v)) /\
  (exists segs,
     segments m' = Some segs /\
     forall k, segs !! k =
               if bool_decide (1 <= k < Z.of_nat (length (segmentsTimes m')))
               then Some false else None) /\
  metadata m' = metadata m /\ config m' = config m /\
  segmentDuration m' = segmentDuration m /\
  segmentSuffix m' = segmentSuffix m /\
  ready m' = ready m /\ onReadyChange m' = onReadyChange m /\
  shutdown m' = shutdown m /\ cancelled m' = cancelled m.
Proof.
  intros Hinit.
  destruct (initialize_unfold m m' Hinit) as (md & v & Hmd & Hv & Hm').
  cbv zeta in Hm'. subst m'.
  split; [|split; [|split; [|split]]].
  - unfold initialize. cbn [metadata set_segments set_playlist
      set_segmentsTimes]. rewrite Hmd. cbn [mbind option_bind].
    rewrite Hv. cbn [mbind option_bind]. f_equal.
    apply ManagerCtx_eq; try reflexivity.
    + cbn [playlist set_segments set_playlist]. by apply getPlaylist_ext.
    + cbn [segments set_segments segmentsTimes set_playlist
           set_segmentsTimes].
      f_equal. by apply segments_loop_ext.
  - cbn [playlist set_segments set_playlist]. by apply getPlaylist_ext.
  - exists v. split; [by rewrite Hmd|done].
  - eexists. split; [reflexivity|]. intros k.
    rewrite segments_loop_values by (done || lia).
    rewrite lookup_empty. done.
  - repeat split; reflexivity.
Qed.

Lemma initialize_result_witness :
  initialize example_manager = Some example_manager /\
  playlist example_manager = getPlaylist example_manager.
Proof.
  destruct (initialize_result
              (set_metadata (Some (metadata_of example_times))
                 (New example_config)) example_manager eq_refl)
    as (Hfix & Hpl & _).
  split; [exact Hfix|exact Hpl].
Defined.

(** X11. [loadMetadata] does not validate what it accepts: when it
    returns nil and the metadata it leaves in the manager is nil or has
    no video descriptor (a cache entry that decodes to such a value, or a
    probe of media without a video stream), the goroutine of [Start] goes
    on to [initialize], which panics on the nil pointer with Go's
    "runtime error: invalid memory address or nil pointer dereference";
    the process ends without the manager ever becoming ready by this
    start. *)
Theorem missing_video_crashes (env : Env) (w : World) (g : nat) :
  crashed w = false ->
  threads w !! g = Some (I_load env) ->
  result_of (loadMetadata env (mgr w)) = None ->
  metadata (state_of (loadMetadata env (mgr w))) ≫= Video = None ->
  exists w',
    exec w [L_load g None; L_crash g nil_dereference] w' /\
    crashed w' = true /\
    initialize (mgr w') = None /\
    ready (mgr w') = ready (mgr w) /\
    closed w' = closed w.
Proof.
  intros Hrun Hg Hres Hvid.
  destruct (init_step_load env w) as (r & m' & evs & Hload & Hframe & Hstep).
  rewrite Hload in Hres, Hvid. unfold result_of, state_of in Hres, Hvid.
  cbn [fst snd] in Hres, Hvid. subst r.
  pose proof (step_goroutine w g (I_load env) _ _ Hrun Hg Hstep) as Hs1.
  cbn [init_label init_commit] in Hs1.
  set (w1 := with_threads (<[g:=I_times]> (threads (with_mgr m' w)))
               (with_mgr m' w)) in *.
  assert (Hstep2 : init_step I_times w1
                   = (Crashes nil_dereference w1, [])).
  { unfold init_step. change (mgr w1) with m'. by rewrite Hvid. }
  assert (Hg1 : threads w1 !! g = Some I_times).
  { subst w1. cbn. by rewrite lookup_insert_eq. }
  pose proof (step_goroutine w1 g I_times _ _ Hrun Hg1 Hstep2) as Hs2.
  cbn [init_label init_commit] in Hs2.
  exists (with_crashed w1). split.
  { apply (exec_app _ [_] w1 [_]); by apply exec_one. }
  split; [done|]. split.
  { change (mgr (with_crashed w1)) with m'. unfold initialize.
    destruct (metadata m') as [md|]; [|done]. cbn [mbind option_bind] in *.
    by rewrite Hvid. }
  split; [|done].
  change (ready m' = ready (mgr w)). by rewrite Hframe.
Qed.

Lemma missing_video_crashes_witness :
  exists w',
    exec (fst (Start audio_cache_env (new_world example_config)))
      [L_load 0%nat None;
       L_crash 0%nat nil_dereference] w' /\
    crashed w' = true.
Proof.
  destruct (missing_video_crashes audio_cache_env
              (fst (Start audio_cache_env (new_world example_config))) 0%nat
              eq_refl eq_refl eq_refl eq_refl)
    as (w' & Hexec & Hcr & _).
  exists w'. split; [exact Hexec|exact Hcr].
Defined.

(** X12. Metadata with a video descriptor but fewer than two keyframe
    times (none at all, a nil list, or a single one) still initializes:
    the playlist is the five header lines and the end tag with no
    segment between them, and the availability table is empty. *)
Theorem initialize_without_segments (m : ManagerCtx) (md : ProbeMediaData)
    (v : ProbeVideoData) :
  metadata m = Some md -> Video md = Some v ->
  (length (elems (PktPtsTime v)) <= 1)%nat ->
  exists m',
    initialize m = Some m' /\
    segments m' = Some ∅ /\
    playlist m' =
    Join [ "#EXTM3U"; "#EXT-X-VERSION:4"; "#EXT-X-PLAYLIST-TYPE:VOD";
           "#EXT-X-MEDIA-SEQUENCE:0";
           "#EXT-X-TARGETDURATION:" +:+ fmt_f 2 (segmentDuration m);
           "#EXT-X-ENDLIST" ] LF.
Proof.
  intros Hmd Hv Hlen. unfold initialize. rewrite Hmd.
  cbn [mbind option_bind]. rewrite Hv. cbn [mbind option_bind].
  eexists. split; [reflexivity|].
  cbn [segments playlist set_segments set_playlist segmentsTimes
       set_segmentsTimes].
  split.
  - f_equal. destruct (elems (PktPtsTime v)) as [|t [|t' ts]];
      [done|done|cbn in Hlen; lia].
  - unfold getPlaylist. rewrite getPlaylist_lines_entries.
    cbn [segmentsTimes set_segmentsTimes segmentDuration].
    destruct (elems (PktPtsTime v)) as [|t [|t' ts]];
      [done|done|cbn in Hlen; lia].
Qed.

Lemma initialize_without_segments_witness :
  exists m',
    initialize (set_metadata (Some (with_PktPtsTime {| Video := None |} None))
                  (New example_config)) = Some m' /\
    segments m' = Some ∅.
Proof.
  destruct (initialize_without_segments
              (set_metadata (Some (with_PktPtsTime {| Video := None |} None))
                 (New example_config))
              (with_PktPtsTime {| Video := None |} None)
              {| PktPtsTime := None |} eq_refl eq_refl)
    as (m' & Hinit & Hsegs & _).
  - cbn. lia.
  - exists m'. split; [exact Hinit|exact Hsegs].
Defined.

Lemma flat_map_pair_lookup {A B} (a b : A -> B) (l : list A) (j : nat) :
  flat_map (fun x => [a x; b x]) l !! (2 * j + 1)%nat = b <$> l !! j.
Proof.
  revert j. induction l as [|x l IH]; intros j; [done|].
  destruct j as [|j]; [done|].
  replace (2 * S j + 1)%nat with (S (S (2 * j + 1))) by lia.
  cbn [flat_map app lookup list_lookup]. apply IH.
Qed.

Lemma flat_map_pair_length {A B} (a b : A -> B) (l : list A) :
  length (flat_map (fun x => [a x; b x]) l) = (2 * length l)%nat.
Proof. induction l as [|x l IH]; [done|]. cbn [flat_map app length]. lia. Qed.

(** X13. The playlist and the availability table that [initialize]
    stores describe the same segments: the playlist has two lines per
    table entry besides its six fixed lines, and for every index from 1
    on, the index is in the table exactly when the line at position
    [2 * index + 4] of the generated playlist is that index's segment
    name. *)
Theorem playlist_matches_table (m m' : ManagerCtx) (k : Z) :
  initialize m = Some m' ->
  1 <= k ->
  let lines := getPlaylist_lines m' in
  playlist m' = Join lines LF /\
  length lines = (6 + 2 * (length (segmentsTimes m') - 1))%nat /\
  (is_Some (map_lookup (segments m') k) <->
   lines !! Z.to_nat (2 * k + 4) = Some (getSegmentName m' k)).
Proof.
  intros Hinit Hk lines.
  destruct (initialize_segments m m' Hinit) as (segs & Hsegs & Hkeys).
  destruct (initialize_unfold m m' Hinit) as (md & v & Hmd & Hv & Hm').
  set (n := length (segmentsTimes m')) in *.
  assert (Hlines : lines =
            [ "#EXTM3U"; "#EXT-X-VERSION:4"; "#EXT-X-PLAYLIST-TYPE:VOD";
              "#EXT-X-MEDIA-SEQUENCE:0";
              "#EXT-X-TARGETDURATION:" +:+ fmt_f 2 (segmentDuration m') ]
            ++ flat_map (segment_entry m') (seqZ 1 (Z.of_nat n - 1))
            ++ [ "#EXT-X-ENDLIST" ]).
  { subst lines. apply getPlaylist_lines_entries. }
  assert (Hlen : length (flat_map (segment_entry m')
                           (seqZ 1 (Z.of_nat n - 1))) = (2 * (n - 1))%nat).
  { unfold segment_entry. rewrite flat_map_pair_length, length_seqZ. lia. }
  split; [|split].
  - cbv zeta in Hm'. subst m'. cbn [playlist set_segments set_playlist].
    by apply getPlaylist_ext.
  - rewrite Hlines, !length_app, Hlen. cbn [length]. lia.
  - unfold map_lookup. rewrite Hsegs. cbn [mbind option_bind].
    rewrite Hkeys. fold n. rewrite Hlines.
    replace (Z.to_nat (2 * k + 4))
      with (5 + (2 * Z.to_nat (k - 1) + 1))%nat by lia.
    rewrite (lookup_app_r _ _ (5 + _)%nat) by (cbn [length]; lia).
    cbn [length].
    replace (5 + (2 * Z.to_nat (k - 1) + 1) - 5)%nat
      with (2 * Z.to_nat (k - 1) + 1)%nat by lia.
    split.
    + intros Hrange.
      rewrite lookup_app_l by (rewrite Hlen; lia).
      unfold segment_entry. rewrite flat_map_pair_lookup.
      rewrite lookup_seqZ_lt by lia. cbn [fmap option_fmap option_map].
      do 2 f_equal. lia.
    + intros Hlook. split; [lia|].
      apply lookup_lt_Some in Hlook.
      rewrite length_app, Hlen in Hlook. cbn [length] in Hlook. lia.
Qed.

Lemma playlist_matches_table_witness :
  is_Some (map_lookup (segments example_manager) 3) <->
  getPlaylist_lines example_manager !! 10%nat = Some "seg-00003.ts".
Proof.
  apply (playlist_matches_table
           (set_metadata (Some (metadata_of example_times))
              (New example_config)) example_manager 3 eq_refl).
  lia.
Defined.

(* ===================================================================== *)
(** ** Segment names                                                      *)
(* ===================================================================== *)

Lemma string_app_inv_head s a b : s +:+ a = s +:+ b -> a = b.
Proof.
  induction s as [|c s IH]; [done|].
  change (String c s +:+ ?x) with (String c (s +:+ x)).
  intros [= H]. by apply IH.
Qed.

Lemma string_app_inv_tail a b t : a +:+ t = b +:+ t -> a = b.
Proof.
  revert b. induction a as [|c a IH]; intros [|d b].
  - done.
  - change (EmptyString +:+ t) with t.
    intros H. apply (f_equal String.length) in H.
    rewrite length_app_string in H. cbn [String.length] in H. lia.
  - change (EmptyString +:+ t) with t.
    intros H. apply (f_equal String.length) in H.
    rewrite length_app_string in H. cbn [String.length] in H. lia.
  - change (String ?x ?s +:+ t) with (String x (s +:+ t)).
    intros [= -> H]. f_equal. by apply IH.
Qed.

(** X14. With the suffix pattern that [New] sets, different non-negative
    indexes get different segment names, also beyond the five digits of
    the pattern: no two segments share a file. *)
Theorem getSegmentName_injective (m : ManagerCtx) (i j : Z) :
  segmentSuffix m = "-%05d.ts" ->
  0 <= i -> 0 <= j -> i <> j ->
  getSegmentName m i <> getSegmentName m j.
Proof.
  intros Hsuf Hi Hj Hne Heq. apply Hne.
  unfold getSegmentName in Heq.
  rewrite Hsuf, !Sprintf_suffix, !fmt_d_nonneg in Heq by done.
  apply string_app_inv_head in Heq.
  change ("-" +:+ ?x) with (String "-" x) in Heq.
  injection Heq as Heq. apply string_app_inv_tail in Heq.
  pose proof (parse_nat_lpad0 5 i Hi) as Pi.
  pose proof (parse_nat_lpad0 5 j Hj) as Pj.
  rewrite Heq in Pi. congruence.
Qed.

Lemma getSegmentName_injective_witness :
  getSegmentName (New example_config) 7 <>
  getSegmentName (New example_config) 100007.
Proof.
  apply getSegmentName_injective; [reflexivity|lia|lia|lia].
Defined.

(* ===================================================================== *)
(** ** Channels and readiness over all executions                         *)
(* ===================================================================== *)

Lemma Stop_unfold w w' p :
  Stop w = (w', p) ->
  (p = Some "close of nil channel" /\ shutdown (mgr w) = None /\
   w' = with_mgr (set_cancelled true (mgr w)) w) \/
  (exists c, p = Some "close of closed channel" /\
             shutdown (mgr w) = Some c /\ c ∈ closed w /\
             w' = with_mgr (set_cancelled true (mgr w)) w) \/
  (exists c, p = None /\ shutdown (mgr w) = Some c /\ (c ∉ closed w) /\
             w' = with_closed ({[c]} ∪ closed w)
                    (with_mgr (set_ready false (set_cancelled true (mgr w)))
                       w)).
Proof.
  unfold Stop, close. cbn [shutdown set_cancelled].
  destruct (shutdown (mgr w)) as [c|].
  - destruct (decide (c ∈ closed w)); intros [= <- <-].
    + right. left. by exists c.
    + right. right. by exists c.
  - intros [= <- <-]. by left.
Qed.

Lemma step_channels_fresh w l w' :
  step w l w' -> channels_fresh w -> channels_fresh w'.
Proof.
  intros Hs (Hcl & Hsh & Hrc & Hne & Hth). unfold channels_fresh.
  step_cases Hs.
  - done.
  - done.
  - cbn. repeat split.
    + intros c Hc. apply Hcl in Hc. lia.
    + intros c [= <-]. lia.
    + intros c [= <-]. lia.
    + intros a b [= <-] [= <-]. lia.
    + intros g pc _. by eexists.
  - assert (Hkeep : forall m',
              onReadyChange m' = onReadyChange (mgr w) ->
              shutdown m' = shutdown (mgr w) ->
              forall ts,
                (forall g' pc', ts !! g' = Some pc' ->
                                g' = g \/ is_Some (threads w !! g')) ->
                channels_fresh (with_threads ts (with_mgr m' w))).
    { intros m' H1 H2 ts Hts. unfold channels_fresh. cbn. rewrite H1, H2.
      repeat split; try done.
      intros g' pc' Hg'. by apply (Hth g pc). }
    assert (Hins : forall pc' g' pc'',
              <[g:=pc']> (threads w) !! g' = Some pc'' ->
              g' = g \/ is_Some (threads w !! g')).
    { intros pc' g' pc''. rewrite lookup_insert. case_decide; [by left|].
      intros ->. right. by eexists. }
    assert (Hdel : forall g' pc'',
              delete g (threads w) !! g' = Some pc'' ->
              g' = g \/ is_Some (threads w !! g')).
    { intros g' pc''. rewrite lookup_delete. case_decide; [done|].
      intros ->. right. by eexists. }
    destruct pc as [env| | | |i|].
    + destruct (init_step_load env w) as (r & m' & evs' & _ & Hm' & Hst).
      rewrite Hst in Hstep.
      destruct r; injection Hstep as <- <-; cbn [init_commit];
        (apply Hkeep; [by rewrite Hm'|by rewrite Hm'|]).
      * apply Hdel.
      * apply Hins.
    + cbn in Hstep. destruct (metadata (mgr w) ≫= Video);
        injection Hstep as <- <-; cbn [init_commit]; [|done].
      apply Hkeep; [done|done|apply Hins].
    + injection Hstep as <- <-. cbn [init_commit].
      apply Hkeep; [done|done|apply Hins].
    + injection Hstep as <- <-. cbn [init_commit].
      apply Hkeep; [done|done|apply Hins].
    + cbn in Hstep.
      destruct (i <? Z.of_nat (length (segmentsTimes (mgr w)))).
      * destruct (segments (mgr w)) as [segs|];
          injection Hstep as <- <-; cbn [init_commit]; [|done].
        apply Hkeep; [done|done|apply Hins].
      * injection Hstep as <- <-. cbn [init_commit].
        replace (with_threads (<[g:=I_publish]> (threads w)) w)
          with (with_threads (<[g:=I_publish]> (threads w))
                  (with_mgr (mgr w) w)) by (by rewrite with_mgr_same).
        apply Hkeep; [done|done|apply Hins].
    + cbn in Hstep.
      destruct (onReadyChange (mgr w)) as [c|] eqn:Hc; cbn in Hstep.
      * destruct (decide (c ∈ closed w)); injection Hstep as <- <-; cbn.
        -- rewrite Hc. repeat split; done.
        -- rewrite Hc. repeat split; try done.
           intros c' Hc'. apply elem_of_union in Hc' as [Hc'|Hc'].
           ++ apply elem_of_singleton in Hc'. subst. by apply Hrc.
           ++ by apply Hcl.
      * destruct (Hth g I_publish Hg) as [c Hc']. congruence.
  - destruct (Stop_unfold _ _ _ Hstop)
      as [(-> & Hnil & ->)|[(c & -> & Hc & Hin & ->)|(c & -> & Hc & Hin & ->)]];
      cbn; repeat split; try done.
    intros c' Hc'. apply elem_of_union in Hc' as [Hc'|Hc'].
    + apply elem_of_singleton in Hc'. subst. by apply Hsh.
    + by apply Hcl.
Qed.

Lemma new_world_channels_fresh cfg : channels_fresh (new_world cfg).
Proof.
  unfold channels_fresh. cbn. repeat split; done.
Qed.

Lemma reachable_channels_fresh cfg w : reachable cfg w -> channels_fresh w.
Proof.
  intros [tr Hexec].
  apply (exec_invariant _ _ _ _ step_channels_fresh Hexec).
  apply new_world_channels_fresh.
Qed.

Lemma step_publication_inv w l w' :
  step w l w' -> channels_fresh w ->
  publication_inv w -> publication_inv w'.
Proof.
  intros Hs Hfresh (P1 & P2 & P5).
  unfold publication_inv. step_cases Hs.
  - done.
  - done.
  - cbn. repeat split; try done.
    intros g pc. rewrite lookup_insert.
    case_decide; [by intros [= <-]|]. apply P5.
  - assert (Hins : forall pc' g' pc'',
              <[g:=pc']> (threads w) !! g' = Some pc'' ->
              (g' = g /\ pc'' = pc') \/ threads w !! g' = Some pc'').
    { intros pc' g' pc''. rewrite lookup_insert. case_decide.
      - intros [= <-]. by left.
      - by right. }
    assert (Hdel : forall g' pc'',
              delete g (threads w) !! g' = Some pc'' ->
              threads w !! g' = Some pc'').
    { intros g' pc''. rewrite lookup_delete. by case_decide. }
    destruct pc as [env| | | |i|].
    + destruct (init_step_load env w) as (r & m' & evs' & _ & Hm' & Hst).
      rewrite Hst in Hstep.
      assert (E1 : ready m' = ready (mgr w)) by (by rewrite Hm').
      assert (E2 : onReadyChange m' = onReadyChange (mgr w)) by (by rewrite Hm').
      assert (E3 : segments m' = segments (mgr w)) by (by rewrite Hm').
      destruct r; injection Hstep as <- <-; cbn; rewrite E1, E2, E3;
        repeat split; try done.
      * intros g' pc' Hg'. apply Hdel in Hg'. by apply (P5 g').
      * intros g' pc' Hg'. apply Hins in Hg' as [[_ ->]|Hg']; [done|].
        by apply (P5 g').
    + cbn in Hstep. destruct (metadata (mgr w) ≫= Video);
        injection Hstep as <- <-; cbn; [|done].
      repeat split; try done.
      intros g' pc' Hg'. apply Hins in Hg' as [[_ ->]|Hg']; [done|].
      by apply (P5 g').
    + injection Hstep as <- <-. cbn.
      repeat split; try done.
      intros g' pc' Hg'. apply Hins in Hg' as [[_ ->]|Hg']; [done|].
      by apply (P5 g').
    + injection Hstep as <- <-. cbn.
      repeat split; done.
    + cbn in Hstep.
      destruct (i <? Z.of_nat (length (segmentsTimes (mgr w)))).
      * destruct (segments (mgr w)) as [segs|] eqn:Hsegs;
          injection Hstep as <- <-; cbn;
          [|by destruct (P5 g (I_loop i) Hg eq_refl)].
        repeat split; done.
      * injection Hstep as <- <-. cbn.
        repeat split; try done.
        intros g' pc' Hg' _. by apply (P5 g (I_loop i)).
    + cbn in Hstep.
      destruct (onReadyChange (mgr w)) as [c|] eqn:Hc; cbn in Hstep.
      * destruct (decide (c ∈ closed w)); injection Hstep as <- <-; cbn;
          rewrite ?Hc; repeat split; try done.
        -- intros _. by exists c.
        -- intros _. by apply (P5 g I_publish).
        -- intros _. exists c. split; [done|].
           apply elem_of_union_l. by apply elem_of_singleton.
        -- intros _. by apply (P5 g I_publish).
        -- intros g' pc' Hg'. apply Hdel in Hg'. by apply (P5 g').
      * destruct Hfresh as (_ & _ & _ & _ & Hth).
        destruct (Hth g I_publish Hg) as [c Hc']. congruence.
  - destruct (Stop_unfold _ _ _ Hstop)
      as [(-> & Hnil & ->)|[(c & -> & Hc & Hin & ->)|(c & -> & Hc & Hin & ->)]];
      cbn; repeat split; try done.
Qed.

Lemma reachable_publication_inv cfg w :
  reachable cfg w -> publication_inv w.
Proof.
  intros [tr Hexec].
  assert (H : channels_fresh w /\ publication_inv w); [|tauto].
  refine (exec_invariant
            (fun w => channels_fresh w /\ publication_inv w)
            _ _ _ _ Hexec _).
  - intros w1 l w2 Hs (Hf & Hp). split.
    + by apply (step_channels_fresh w1 l).
    + by apply (step_publication_inv w1 l).
  - split; [apply new_world_channels_fresh|].
    unfold publication_inv. cbn. repeat split; done.
Qed.

(** X15. In every state the system can reach, [ready] being set means
    that initialization has been published: the manager's current
    readiness channel is closed, so that nobody waits on it, and the
    availability table exists. *)
Theorem ready_means_published (cfg : Config) (w : World) :
  reachable cfg w ->
  ready (mgr w) = true ->
  (exists c, onReadyChange (mgr w) = Some c /\ c ∈ closed w) /\
  (exists segs, segments (mgr w) = Some segs).
Proof.
  intros Hreach Hready.
  destruct (reachable_publication_inv cfg w Hreach) as (P1 & P2 & _).
  split; [by apply P1|].
  pose proof (P2 Hready) as Hsegs.
  destruct (segments (mgr w)) as [segs|]; [by exists segs|done].
Qed.

Lemma ready_means_published_witness :
  exists c, onReadyChange (mgr (started example_env example_config)) = Some c /\
            c ∈ closed (started example_env example_config).
Proof.
  exact (proj1 (ready_means_published example_config
                  (started example_env example_config)
                  (reachable_started example_env example_config) eq_refl)).
Defined.

(** X16. Only one goroutine can publish per readiness channel: in a
    reachable state where the manager is ready and another goroutine, left
    over from an overlapping [Start], has come to the end of its
    initialization, that goroutine's step is the panic "close of closed
    channel", which ends the process. *)
Theorem second_publication_crashes (cfg : Config) (w : World) (g : nat) :
  reachable cfg w ->
  crashed w = false ->
  ready (mgr w) = true ->
  threads w !! g = Some I_publish ->
  exists w',
    step w (L_crash g "close of closed channel") w' /\ crashed w' = true.
Proof.
  intros Hreach Hrun Hready Hg.
  destruct (reachable_publication_inv cfg w Hreach) as (P1 & _).
  destruct (P1 Hready) as (c & Hc & Hin).
  assert (Hstep : init_step I_publish w
                  = (Crashes "close of closed channel"
                       (with_mgr (set_ready true (mgr w)) w), [])).
  { unfold init_step, close. cbn [onReadyChange set_ready]. rewrite Hc.
    by rewrite decide_True. }
  eexists. split.
  - exact (step_goroutine w g I_publish _ _ Hrun Hg Hstep).
  - done.
Qed.

Lemma reachable_overlapping_starts env cfg :
  reachable cfg (overlapping_starts env cfg).
Proof.
  unfold overlapping_starts, reachable.
  set (w1 := fst (Start env (new_world cfg))).
  set (w2 := fst (Start env w1)).
  destruct (Start_exec env (new_world cfg) eq_refl) as [tr1 H1].
  assert (Hc1 : crashed w1 = false).
  { subst w1. unfold Start. by destruct (Start_check _). }
  destruct (Start_exec env w1 Hc1) as [tr2 H2].
  fold w1 in H1. fold w2 in H2.
  set (w3 := run_goroutine _ 0 w2).
  destruct (run_goroutine_exec
              (length (segmentsTimes (mgr (run_goroutine 2 0 w2))) + 6)
              0 w2) as [tr3 H3].
  fold w3 in H3.
  destruct (run_goroutine_exec
              (4 + Nat.max 1 (length (segmentsTimes (mgr w3)))) 1 w3)
    as [tr4 H4].
  exists (((tr1 ++ tr2) ++ tr3) ++ tr4).
  eapply exec_app; [|exact H4].
  eapply exec_app; [|exact H3].
  eapply exec_app; [exact H1|exact H2].
Qed.

Lemma second_publication_crashes_witness :
  exists w',
    step (overlapping_starts example_env example_config)
      (L_crash 1 "close of closed channel") w' /\ crashed w' = true.
Proof.
  apply (second_publication_crashes example_config
           (overlapping_starts example_env example_config) 1%nat
           (reachable_overlapping_starts example_env example_config)).
  - vm_compute. reflexivity.
  - vm_compute. reflexivity.
  - vm_compute. reflexivity.
Defined.

Lemma ServePlaylist_nil_channels m0 wk w1 m2 :
  ready m0 = false ->
  recv_ready (onReadyChange m0) (closed w1) = false ->
  recv_ready (shutdown m0) (closed w1) = false ->
  wake_enabled m0 wk w1 ->
  wk = WakeTimeout /\ ServePlaylist m0 wk m2 = playlist_timeout.
Proof.
  intros Hready Hr Hs Hwake.
  destruct wk as [m1| |]; cbn in Hwake.
  - destruct Hwake as [Hwake _]. congruence.
  - congruence.
  - split; [done|]. unfold ServePlaylist. by rewrite Hready.
Qed.

(** X17. Before any [Start] has reached its locked section the manager
    has no channels: [Stop] panics with "close of nil channel", and a
    playlist request that begins to wait then can only leave its [select]
    by the timer, answering "504 playlist timeout", whatever happens to
    the manager while it waits, a successful start-up included. *)
Theorem never_started_manager (cfg : Config) (tr : list Label) (w : World) :
  exec (new_world cfg) tr w ->
  never_started tr ->
  snd (Stop w) = Some "close of nil channel" /\
  ready (mgr w) = false /\
  forall tr' w1 wk m2,
    exec w tr' w1 -> wake_enabled (mgr w) wk w1 ->
    wk = WakeTimeout /\ ServePlaylist (mgr w) wk m2 = playlist_timeout.
Proof.
  intros Hexec Hnever.
  assert (Hinv : never_started tr ->
                 shutdown (mgr w) = None /\ onReadyChange (mgr w) = None /\
                 ready (mgr w) = false /\ threads w = ∅).
  { refine (exec_trace_invariant
              (fun w tr => never_started tr ->
                           shutdown (mgr w) = None /\
                           onReadyChange (mgr w) = None /\
                           ready (mgr w) = false /\ threads w = ∅)
              _ _ _ tr w Hexec).
    - done.
    - intros tr1 w1 l w2 IH Hs Hnv.
      assert (Hnv1 : never_started tr1).
      { intros g0 Hin. apply (Hnv g0). apply in_or_app. by left. }
      destruct (IH Hnv1) as (I1 & I2 & I3 & I4).
      step_cases Hs.
      + done.
      + done.
      + exfalso. apply (Hnv (next_tid w1)). apply in_or_app. right. by left.
      + rewrite I4 in Hg. by rewrite lookup_empty in Hg.
      + destruct (Stop_unfold _ _ _ Hstop)
          as [(-> & Hnil & ->)|[(c & -> & Hc & Hin & ->)|(c & -> & Hc & Hin & ->)]];
          [done|congruence|congruence]. }
  destruct (Hinv Hnever) as (I1 & I2 & I3 & I4).
  split; [|split; [done|]].
  - unfold Stop, close. cbn [shutdown set_cancelled]. by rewrite I1.
  - intros tr' w1 wk m2 _ Hwake.
    apply (ServePlaylist_nil_channels (mgr w) wk w1 m2); try done.
    + by rewrite I2.
    + by rewrite I1.
Qed.

Lemma never_started_manager_witness :
  snd (Stop (with_starting 1 (new_world example_config)))
  = Some "close of nil channel".
Proof.
  refine (proj1 (never_started_manager example_config [L_Start_admitted]
                   (with_starting 1 (new_world example_config)) _ _)).
  - apply exec_one. by apply step_Start_admitted.
  - intros g [Hin|[]]. discriminate Hin.
Defined.

(** X18. A [Stop] that follows a [Start] never panics: in every
    reachable state in which [Start] is admitted, the shutdown channel
    the call makes is new, so that [Stop] closes it, leaves [ready]
    false and the context cancelled; the goroutine that [Start] launched
    is not stopped by it. *)
Theorem Stop_after_Start_succeeds (cfg : Config) (env : Env) (w : World) :
  reachable cfg w ->
  ready (mgr w) = false ->
  let w1 := fst (Start env w) in
  exists w2,
    Stop w1 = (w2, None) /\
    ready (mgr w2) = false /\
    cancelled (mgr w2) = true /\
    recv_ready (shutdown (mgr w2)) (closed w2) = true /\
    threads w2 = threads w1 /\
    threads w1 !! next_tid w = Some (I_load env).
Proof.
  intros Hreach Hready w1.
  destruct (reachable_channels_fresh cfg w Hreach) as (Hcl & _).
  assert (Hw1 : w1 = Start_locked env w).
  { subst w1. unfold Start, Start_check. by rewrite Hready. }
  assert (Hnew : next_chan w ∉ closed w).
  { intros Hin. apply Hcl in Hin. lia. }
  rewrite Hw1. unfold Stop, close, Start_locked. cbn.
  rewrite decide_False by done.
  eexists. split; [reflexivity|]. cbn.
  repeat split; try done.
  - apply bool_decide_eq_true_2. set_solver.
  - by rewrite lookup_insert_eq.
Qed.

Lemma Stop_after_Start_succeeds_witness :
  exists w2,
    Stop (fst (Start example_env (new_world example_config))) = (w2, None).
Proof.
  destruct (Stop_after_Start_succeeds example_config example_env
              (new_world example_config)
              (ex_intro _ [] (exec_nil _)) eq_refl) as (w2 & Hstop & _).
  by exists w2.
Defined.

Lemma step_stale c w l w' : step w l w' -> stale c w -> stale c w'.
Proof.
  intros Hs (Hlt & Hopen & Hsh & Hrc). unfold stale. step_cases Hs.
  - done.
  - done.
  - cbn. repeat split; try done; try lia.
    + intros [= <-]. lia.
    + intros [= <-]. lia.
  - destruct pc as [env| | | |i|].
    + destruct (init_step_load env w) as (r & m' & evs' & _ & Hm' & Hst).
      rewrite Hst in Hstep.
      destruct r; injection Hstep as <- <-; cbn; by rewrite Hm'.
    + cbn in Hstep. by destruct (metadata (mgr w) ≫= Video);
        injection Hstep as <- <-.
    + by injection Hstep as <- <-.
    + by injection Hstep as <- <-.
    + cbn in Hstep.
      destruct (i <? Z.of_nat (length (segmentsTimes (mgr w))));
        [destruct (segments (mgr w))|]; by injection Hstep as <- <-.
    + cbn in Hstep. destruct (onReadyChange (mgr w)) as [c'|] eqn:Hc';
        cbn in Hstep;
        [destruct (decide (c' ∈ closed w))|]; injection Hstep as <- <-; cbn;
        rewrite ?Hc'; repeat split; try done.
      intros Hin. apply elem_of_union in Hin as [Hin|Hin]; [|done].
      apply elem_of_singleton in Hin. congruence.
  - destruct (Stop_unfold _ _ _ Hstop)
      as [(-> & Hnil & ->)|[(c' & -> & Hc' & Hin & ->)|(c' & -> & Hc' & Hin & ->)]];
      cbn; repeat split; try done.
    intros Hin'. apply elem_of_union in Hin' as [Hin'|Hin']; [|done].
    apply elem_of_singleton in Hin'. congruence.
Qed.

Lemma exec_stale c w tr w' : exec w tr w' -> stale c w -> stale c w'.
Proof.
  intros Hexec. refine (exec_invariant (stale c) _ _ _ _ Hexec).
  intros w1 l w2. apply step_stale.
Qed.

(** X19. A playlist request that begins to wait while the manager is
    not ready and its channels are open, and is then overtaken by the
    locked section of a [Start], is waiting on channels that nothing
    closes any more: the new start-up publishes on its own channels, so
    the request can only leave its [select] by the timer and answers
    "504 playlist timeout", even if the manager becomes ready meanwhile. *)
Theorem overtaken_waiter_times_out (cfg : Config) (w0 w1 w2 : World)
    (g : nat) (tr : list Label) (wk : wake) (m2 : ManagerCtx) :
  reachable cfg w0 ->
  ready (mgr w0) = false ->
  recv_ready (onReadyChange (mgr w0)) (closed w0) = false ->
  recv_ready (shutdown (mgr w0)) (closed w0) = false ->
  step w0 (L_Start_spawn g) w1 ->
  exec w1 tr w2 ->
  wake_enabled (mgr w0) wk w2 ->
  wk = WakeTimeout /\ ServePlaylist (mgr w0) wk m2 = playlist_timeout.
Proof.
  intros Hreach Hready Hr Hs Hspawn Hexec Hwake.
  destruct (reachable_channels_fresh cfg w0 Hreach) as (_ & Hsh & Hrc & _).
  assert (Hstale : forall c,
            (c < next_chan w0)%nat -> c ∉ closed w0 -> c ∉ closed w2).
  { intros c Hlt Hopen.
    assert (H1 : stale c w1).
    { remember (L_Start_spawn g) as l eqn:Hl.
      destruct Hspawn as [ | |w n env Hc Hn|w g' pc res evs Hc Hg Hst
                          |w w' p Hc Hst]; try discriminate Hl.
      - unfold stale. cbn. repeat split; try done; try lia.
        + intros [= <-]. lia.
        + intros [= <-]. lia.
      - destruct res, pc; discriminate Hl.
      - destruct p; discriminate Hl. }
    by destruct (exec_stale c w1 tr w2 Hexec H1) as (_ & ? & _). }
  apply (ServePlaylist_nil_channels (mgr w0) wk w2 m2); try done.
  - destruct (onReadyChange (mgr w0)) as [c|] eqn:Hc; [|done].
    cbn in *. apply bool_decide_eq_false in Hr.
    apply bool_decide_eq_false. apply Hstale; [by apply Hrc|done].
  - destruct (shutdown (mgr w0)) as [c|] eqn:Hc; [|done].
    cbn in *. apply bool_decide_eq_false in Hs.
    apply bool_decide_eq_false. apply Hstale; [by apply Hsh|done].
Qed.

Lemma reachable_retry_world : reachable example_config retry_world.
Proof.
  set (w0 := new_world example_config).
  set (wA := with_starting 1 w0).
  set (wB := Start_locked failing_env (with_starting 0 wA)).
  set (wC := init_commit 0 (fst (init_step (I_load failing_env) wB))).
  exists [L_Start_admitted; L_Start_spawn 0; L_load 0 (Some probe_failure);
          L_Start_admitted].
  apply (exec_snoc w0 [L_Start_admitted; L_Start_spawn 0;
                       L_load 0 (Some probe_failure)] wC).
  - apply (exec_snoc w0 [L_Start_admitted; L_Start_spawn 0] wB).
    + apply (exec_snoc w0 [L_Start_admitted] wA).
      * apply exec_one. by apply step_Start_admitted.
      * by apply (step_Start_spawn wA 0 failing_env).
    + apply (step_goroutine wB 0 (I_load failing_env)
               (fst (init_step (I_load failing_env) wB))
               (snd (init_step (I_load failing_env) wB))); done.
  - by apply (step_Start_admitted wC).
Qed.

Lemma overtaken_waiter_times_out_witness :
  ServePlaylist (mgr retry_world) WakeTimeout
    (mgr (Start_locked example_env (with_starting 0 retry_world)))
  = playlist_timeout.
Proof.
  refine (proj2 (overtaken_waiter_times_out example_config retry_world
                   (Start_locked example_env (with_starting 0 retry_world))
                   _ 1%nat [] WakeTimeout _
                   reachable_retry_world eq_refl eq_refl eq_refl _
                   (exec_nil _) I)).
  exact (step_Start_spawn retry_world 0 example_env eq_refl eq_refl).
Defined.

Lemma run_goroutine_done fuel g w :
  threads w !! g = None -> run_goroutine fuel g w = w.
Proof.
  destruct fuel; cbn [run_goroutine]; [done|].
  intros ->. by destruct (crashed w).
Qed.

(** The goroutine of [Start] from its first statement to its last. *)
Lemma goroutine_run env w g c m' :
  crashed w = false ->
  threads w !! g = Some (I_load env) ->
  result_of (loadMetadata env (mgr w)) = None ->
  initialize (state_of (loadMetadata env (mgr w))) = Some m' ->
  onReadyChange (mgr w) = Some c ->
  c ∉ closed w ->
  exists n, forall fuel, (n <= fuel)%nat ->
    run_goroutine fuel g w =
    with_threads (delete g (threads w))
      (with_closed ({[c]} ∪ closed w) (with_mgr (set_ready true m') w)).
Proof.
  intros Hrun Hg Hres Hinit Hc Hopen.
  destruct (init_step_load env w) as (r & m1 & evs & Hload & Hframe & Hstep).
  rewrite Hload in Hres, Hinit. unfold result_of, state_of in Hres, Hinit.
  cbn [fst snd] in Hres, Hinit. subst r.
  assert (S1 : run_goroutine 1 g w = at_pc g I_times (with_mgr m1 w)).
  { cbn [run_goroutine]. by rewrite Hrun, Hg, Hstep. }
  pose proof (run_goroutine_initialize g (with_mgr m1 w) Hrun) as S2.
  change (mgr (with_mgr m1 w)) with m1 in S2. rewrite Hinit in S2.
  destruct S2 as [n S2].
  destruct (initialize_unfold m1 m' Hinit) as (md & v & _ & _ & Hm').
  assert (Hc' : onReadyChange m' = Some c).
  { cbv zeta in Hm'. rewrite Hm'. cbn. rewrite Hframe. exact Hc. }
  set (final := with_threads (delete g (threads w))
                  (with_closed ({[c]} ∪ closed w)
                     (with_mgr (set_ready true m') w))).
  assert (S3 : run_goroutine 1 g
                 (at_pc g I_publish (with_mgr m' (with_mgr m1 w))) = final).
  { rewrite run_goroutine_step by done. cbn [run_goroutine].
    unfold init_step, close. cbn [onReadyChange set_ready mgr at_pc
      with_threads with_mgr closed]. rewrite Hc'.
    rewrite decide_False by done. cbn [fst init_commit].
    subst final. unfold with_threads, with_closed, with_mgr, at_pc. cbn.
    by rewrite delete_insert_eq. }
  exists (1 + (n + 1))%nat. intros fuel Hfuel.
  replace fuel with (1 + (n + 1) + (fuel - (1 + (n + 1))))%nat by lia.
  rewrite (run_goroutine_add (1 + (n + 1))), (run_goroutine_add 1),
    (run_goroutine_add n), S1, S2, S3.
  apply run_goroutine_done. subst final. cbn. by rewrite lookup_delete_eq.
Qed.

(** X20. The goroutine that [Start] launches runs to completion when
    [loadMetadata] returns nil with metadata that [initialize] accepts and
    the readiness channel is still open: with enough steps, and however
    many more, it ends in the state where the manager is what
    [initialize] made of the loaded metadata with [ready] set, the
    readiness channel is closed, the goroutine is gone and nothing has
    panicked; a playlist request then gets the stored playlist at once. *)
Theorem goroutine_completes (env : Env) (w : World) (g c : nat)
    (m' : ManagerCtx) :
  crashed w = false ->
  threads w !! g = Some (I_load env) ->
  result_of (loadMetadata env (mgr w)) = None ->
  initialize (state_of (loadMetadata env (mgr w))) = Some m' ->
  onReadyChange (mgr w) = Some c ->
  c ∉ closed w ->
  exists n w',
    (forall fuel, (n <= fuel)%nat -> run_goroutine fuel g w = w') /\
    (exists tr, exec w tr w') /\
    mgr w' = set_ready true m' /\
    closed w' = {[c]} ∪ closed w /\
    threads w' = delete g (threads w) /\
    crashed w' = false /\
    forall wk,
      ServePlaylist (mgr w') wk (mgr w')
      = (Written [("Content-Type", "application/vnd.apple.mpegurl")]
           (getPlaylist m'), []).
Proof.
  intros Hrun Hg Hres Hinit Hc Hopen.
  destruct (goroutine_run env w g c m' Hrun Hg Hres Hinit Hc Hopen)
    as [n Hn].
  exists n. eexists. split; [exact Hn|].
  split.
  { rewrite <- (Hn n) by lia. apply run_goroutine_exec. }
  repeat split; try done.
  intros wk. unfold ServePlaylist. cbn [mgr with_threads with_closed with_mgr
    ready set_ready negb playlist].
  destruct (initialize_unfold _ m' Hinit) as (md & v & _ & _ & Hm').
  cbv zeta in Hm'. rewrite Hm' at 1. cbn [playlist set_segments set_playlist].
  do 2 f_equal. rewrite Hm'. by apply getPlaylist_ext.
Qed.

Lemma goroutine_completes_witness :
  exists n, forall fuel, (n <= fuel)%nat ->
    ready (mgr (run_goroutine fuel 0
                  (fst (Start example_env (new_world example_config)))))
    = true.
Proof.
  destruct (goroutine_completes example_env
              (fst (Start example_env (new_world example_config)))
              0%nat 1%nat
              (set_ready false (mgr (started example_env example_config))))
    as (n & w' & Hn & _ & Hm & _).
  - reflexivity.
  - reflexivity.
  - reflexivity.
  - vm_compute. reflexivity.
  - reflexivity.
  - vm_compute. set_solver.
  - exists n. intros fuel Hfuel. rewrite (Hn fuel Hfuel), Hm. reflexivity.
Defined.

(** X21. [Stop] does not stop a start-up in progress: when [Stop]
    succeeds while the goroutine of [Start] has not yet loaded the
    metadata, and the load still returns nil (a cache hit does not consult
    the cancelled context) with metadata that [initialize] accepts, the
    goroutine goes on to set [ready] and to close the readiness channel;
    the manager ends up ready with its context cancelled and its shutdown
    channel closed. *)
Theorem Stop_does_not_cancel (cfg : Config) (env : Env) (w w1 : World)
    (g : nat) (m' : ManagerCtx) :
  reachable cfg w ->
  crashed w = false ->
  threads w !! g = Some (I_load env) ->
  recv_ready (onReadyChange (mgr w)) (closed w) = false ->
  Stop w = (w1, None) ->
  result_of (loadMetadata env (mgr w1)) = None ->
  initialize (state_of (loadMetadata env (mgr w1))) = Some m' ->
  ready (mgr w1) = false /\
  exists n, forall fuel, (n <= fuel)%nat ->
    let w2 := run_goroutine fuel g w1 in
    ready (mgr w2) = true /\
    cancelled (mgr w2) = true /\
    recv_ready (shutdown (mgr w2)) (closed w2) = true /\
    recv_ready (onReadyChange (mgr w2)) (closed w2) = true /\
    crashed w2 = false.
Proof.
  intros Hreach Hrun Hg Hwait Hstop Hres Hinit.
  destruct (reachable_channels_fresh cfg w Hreach) as (_ & _ & _ & Hne & Hth).
  destruct (Hth g _ Hg) as [c Hc].
  rewrite Hc in Hwait. cbn in Hwait. apply bool_decide_eq_false in Hwait.
  destruct (Stop_unfold _ _ _ Hstop)
    as [(? & _)|[(s & ? & _)|(s & _ & Hs & Hsopen & Hw1)]]; try done.
  assert (Hcs : s <> c) by (by apply Hne).
  split; [by rewrite Hw1|].
  destruct (goroutine_run env w1 g c m') as [n Hn]; try done.
  - by rewrite Hw1.
  - by rewrite Hw1.
  - by rewrite Hw1.
  - rewrite Hw1. cbn. intros Hin.
    apply elem_of_union in Hin as [Hin|Hin]; [|done].
    apply elem_of_singleton in Hin. congruence.
  - exists n. intros fuel Hfuel. cbv zeta. rewrite (Hn fuel Hfuel).
    destruct (initialize_unfold _ m' Hinit) as (md & v & _ & _ & Hm').
    destruct (init_step_load env w1) as (r & m1 & evs & Hload & Hframe & _).
    rewrite Hload in Hm'. unfold state_of in Hm'. cbn [fst snd] in Hm'.
    cbv zeta in Hm'.
    assert (Hcan : cancelled m' = true).
    { rewrite Hm'. cbn. rewrite Hframe. cbn. by rewrite Hw1. }
    assert (Hsh : shutdown m' = Some s).
    { rewrite Hm'. cbn. rewrite Hframe. cbn. by rewrite Hw1. }
    assert (Hrc : onReadyChange m' = Some c).
    { rewrite Hm'. cbn. rewrite Hframe. cbn. by rewrite Hw1. }
    cbn. rewrite Hcan, Hsh, Hrc. cbn.
    repeat split; try done.
    + apply bool_decide_eq_true_2. rewrite Hw1. cbn. set_solver.
    + apply bool_decide_eq_true_2. set_solver.
    + by rewrite Hw1.
Qed.

Lemma Stop_does_not_cancel_witness :
  exists n, forall fuel, (n <= fuel)%nat ->
    ready (mgr (run_goroutine fuel 0
                  (fst (Stop (fst (Start example_env
                                     (new_world example_config)))))))
    = true.
Proof.
  destruct (Stop_does_not_cancel example_config example_env
              (fst (Start example_env (new_world example_config)))
              (fst (Stop (fst (Start example_env
                                 (new_world example_config)))))
              0%nat
              (set_ready false
                 (set_cancelled true
                    (mgr (started example_env example_config)))))
    as (_ & n & Hn).
  - destruct (Start_exec example_env (new_world example_config) eq_refl)
      as [tr Htr]. by exists tr.
  - reflexivity.
  - reflexivity.
  - vm_compute. reflexivity.
  - vm_compute. reflexivity.
  - reflexivity.
  - vm_compute. reflexivity.
  - exists n. intros fuel Hfuel. exact (proj1 (Hn fuel Hfuel)).
Defined.

Lemma init_label_not_Stop g pc res p : init_label g pc res <> Stop_label p.
Proof. by destruct res, pc, p. Qed.

(** X22. The context made by [New] is cancelled by the first call of
    [Stop], whether that call panics or not, and nothing renews it: in
    every state the system can reach, the context is cancelled exactly
    when some [Stop] has been called, so a [Start] after a [Stop] runs
    its probes under a cancelled context. *)
Theorem cancelled_once_stopped (cfg : Config) (tr : list Label) (w : World) :
  exec (new_world cfg) tr w ->
  cancelled (mgr w) = true <-> stopped tr.
Proof.
  revert tr w.
  refine (exec_trace_invariant
            (fun w tr => cancelled (mgr w) = true <-> stopped tr) _ _ _).
  - cbn. split; [done|]. by intros [p []].
  - intros tr w l w' IH Hs.
    assert (Hsame : cancelled (mgr w') = cancelled (mgr w) ->
                    (forall p, l <> Stop_label p) ->
                    cancelled (mgr w') = true <-> stopped (tr ++ [l])).
    { intros -> Hl. rewrite IH. unfold stopped. split.
      - intros [p Hin]. exists p. apply in_or_app. by left.
      - intros [p Hin]. exists p. apply in_app_or in Hin as [Hin|[Hin|[]]];
          [done|]. by destruct (Hl p). }
    step_cases Hs.
    + apply Hsame; [done|]. by intros [|].
    + apply Hsame; [done|]. by intros [|].
    + apply Hsame; [done|]. by intros [|].
    + apply Hsame; [|intros p0; apply init_label_not_Stop].
      destruct pc as [env0| | | |i|].
      * destruct (init_step_load env0 w) as (r & m' & evs' & _ & Hm' & Hst).
        rewrite Hst in Hstep.
        destruct r; injection Hstep as <- <-; cbn; by rewrite Hm'.
      * cbn in Hstep. by destruct (metadata (mgr w) ≫= Video);
          injection Hstep as <- <-.
      * by injection Hstep as <- <-.
      * by injection Hstep as <- <-.
      * cbn in Hstep.
        destruct (i <? Z.of_nat (length (segmentsTimes (mgr w))));
          [destruct (segments (mgr w))|]; by injection Hstep as <- <-.
      * cbn in Hstep. destruct (onReadyChange (mgr w)) as [c|]; cbn in Hstep;
          [destruct (decide (c ∈ closed w))|]; by injection Hstep as <- <-.
    + split.
      * intros _. exists p. apply in_or_app. right. by left.
      * intros _.
        destruct (Stop_unfold _ _ _ Hstop)
          as [(_ & _ & ->)|[(c & _ & _ & _ & ->)|(c & _ & _ & _ & ->)]];
          done.
Qed.

Lemma cancelled_once_stopped_witness :
  cancelled (mgr (fst (Stop (new_world example_config)))) = true.
Proof.
  apply (cancelled_once_stopped example_config
           [L_Stop_panic "close of nil channel"]).
  - apply exec_one.
    by apply (step_Stop (new_world example_config) _
                (Some "close of nil channel")).
  - exists (Some "close of nil channel"). by left.
Defined.

(* ===================================================================== *)
(** ** A failed start-up, and what the playlist endpoint answers          *)
(* ===================================================================== *)

















